(** * Multi-client LoRA training: the orchestrator of [optim/lora.py] and the
      entry point of [main.py], embedded and verified.

    The Python code mutates objects in place and lets exceptions propagate, so
    the embedding is a state-and-exception monad in which the state survives
    an exception.  Collaborators that live outside the two source files
    (batch sampling, the forward and backward pass, the optimizer, the
    scheduler, the trust aggregator, the evaluator) are fields of a [world]
    record; every call to one of them is written to an event log kept in the
    state, which is what the temporal properties are stated on. *)

From Stdlib Require Import ZArith QArith Lia List Ascii.
From stdpp Require Import base option list strings gmap pretty.

Local Open Scope Z_scope.

(** ** Python values used by the orchestrator *)

(** The exceptions the two source files can raise, plus the one the
    evaluator may raise and the marker of an exhausted loop budget. *)
Inductive exn :=
| IndexError
| AttributeError
| ZeroDivisionError
| UnboundLocalError
| EvaluatorError
| OutOfFuel.

#[global] Instance exn_eq_dec : EqDecision exn.
Proof. solve_decision. Defined.

(** [nullcontext()] on cpu, [torch.amp.autocast(..., bfloat16)] otherwise. *)
Inductive type_ctx_t := NullContext | Autocast.

(** A token shard as [np.memmap] returns it. *)
Definition Shard := list Z.

(** The three files read per client (lines 40-45): note that [data['val']]
    is read from [test_i.bin] and [data['ref']] from [valid_i.bin]. *)
Inductive shard_file := TrainBin | TestBin | ValidBin.

(** Gradients of the trainable parameters: component index to value. *)
Definition Grad := nat → Q.

Definition gzero : Grad := λ _, 0%Q.
Definition gadd (a b : Grad) : Grad := λ j, (a j + b j)%Q.
Definition gscale (c : Q) (a : Grad) : Grad := λ j, (c * a j)%Q.
Definition geq (a b : Grad) : Prop := ∀ j, (a j == b j)%Q.

(** [p.grad] is [None] until the first backward pass after a
    [zero_grad(set_to_none=True)]; later passes add to it. *)
Definition accumulate (acc : option Grad) (g : Grad) : option Grad :=
  match acc with
  | None => Some g
  | Some a => Some (gadd a g)
  end.

(** [extra_args]: the fields of the namespace that [train_lora] reads. *)
Record args_t := Args {
  device_is_cuda : bool;        (* 'cuda' in str(extra_args.device) *)
  no_compile : bool;
  grad_clip : Q;
  trust_freq : Z;
  pretraining_rounds : Z;
  trust : string;
  use_wandb : bool;             (* extra_args.wandb *)
  lr : Q;
}.

(** [stats]: four lists, one inner list per client. *)
Record stats_t := Stats {
  train_loss : list (list Q);
  val_loss : list (list Q);
  val_pp : list (list Q);
  val_acc : list (list Q);
}.

(** [data]: the three lists of memory-mapped shards. *)
Record data_t := Data {
  d_train : list Shard;
  d_ref : list Shard;
  d_val : list Shard;
}.

(** ** The collaborators *)

Record world := World {
  Params : Type;                (* trainable parameters of one model *)
  OptState : Type;
  SchedState : Type;
  Batch : Type;                 (* an (x, y) pair returned by get_batch *)
  Rng : Type;                   (* the global random state *)
  (* np.memmap(os.path.join(data_path, "<kind>_<i>.bin"), ...) *)
  memmap : shard_file → nat → Shard;
  (* utils.get_batch(shard, sequence_length, batch_size, device) *)
  get_batch : Rng → Shard → Z → Z → Batch * Rng;
  (* model(x, targets=y)['loss'], for a model in the given mode *)
  forward_loss : type_ctx_t → bool → Params → Batch → Q;
  (* the gradient of that loss in the trainable parameters *)
  loss_grad : type_ctx_t → bool → Params → Batch → Grad;
  (* torch.nn.utils.clip_grad_norm_(model.parameters(), max_norm) *)
  clip_grad_norm_ : option Grad → Q → option Grad;
  (* opt.step(): reads the gradients, updates parameters and its own state *)
  opt_step : OptState → Params → option Grad → OptState * Params;
  (* scheduler.step(): updates the schedule and the optimizer's rate *)
  sched_step : SchedState → OptState → SchedState * OptState;
  (* scheduler.get_last_lr()[0] *)
  get_last_lr : SchedState → Q;
  (* strategies.aggregate(clients, trust, data, sequence_length, batch_size,
     type_ctx, extra_args): the new parameters of every client *)
  aggregate : string → list Params → data_t → Z → Z → type_ctx_t → Rng →
              list Params * Rng;
  (* utils.eval(model, shard, sequence_length, batch_size, device,
     max_num_batches, ctx): (val_acc, val_loss, val_perplexity), or an
     exception *)
  eval : bool → Params → Shard → Z → Z → Z → type_ctx_t → Rng →
         option (Q * Q * Q) * Rng;
  (* distributed_backend.is_master_process() *)
  is_master_process : bool;
}.

(** ** The training orchestrator, [optim/lora.py] *)

Module Lora.
Section train_lora.

Context (W : world).

(** One entry of [clients]: the list [[model, opt, scheduler]], with the
    parts of the model object the loop touches. *)
Record client := Client {
  model : Params W;             (* the trainable parameters *)
  training : bool;              (* model.training *)
  grad : option Grad;           (* the .grad of the trainable parameters *)
  opt : OptState W;
  scheduler : option (SchedState W);
}.

(** The calls to collaborators and the writes to [stats], in program order. *)
Inductive event :=
| EvCompile (i : nat)
| EvGetBatch (i : nat) (b : Batch W)
| EvForward (i : nat) (microstep_idx : Z) (in_training_mode : bool)
    (p : Params W) (b : Batch W) (out : Q)
| EvBackward (i : nat) (loss : Q)
| EvClip (i : nat) (g : option Grad) (max_norm : Q)
| EvOptStep (i : nat) (g : option Grad)
| EvSchedStep (i : nat)
| EvAggregate (round : Z)
| EvZeroGrad (i : nat)
| EvEval (i : nat) (in_training_mode : bool) (p : Params W)
| EvRecord (i : nat) (tl vl vp va : Q)
| EvWandbMeans (tl vl vp va : Q)
| EvWandbClient (i : nat) (it : Z) (tl vl vp va cur_lr : Q) (commit : bool).

(** The mutable objects and locals of one call of [train_lora]. *)
Record state := State {
  clients : list client;
  itr : list Z;
  substep : list Z;
  stats : stats_t;
  loss : option Q;              (* the local [loss]; unbound at first *)
  rng : Rng W;
  log : list event;
}.

Definition set_clients (f : list client → list client) (s : state) : state :=
  State (f (clients s)) (itr s) (substep s) (stats s) (loss s) (rng s) (log s).
Definition set_itr (f : list Z → list Z) (s : state) : state :=
  State (clients s) (f (itr s)) (substep s) (stats s) (loss s) (rng s) (log s).
Definition set_substep (f : list Z → list Z) (s : state) : state :=
  State (clients s) (itr s) (f (substep s)) (stats s) (loss s) (rng s) (log s).
Definition set_stats (f : stats_t → stats_t) (s : state) : state :=
  State (clients s) (itr s) (substep s) (f (stats s)) (loss s) (rng s) (log s).
Definition set_loss (l : option Q) (s : state) : state :=
  State (clients s) (itr s) (substep s) (stats s) l (rng s) (log s).
Definition set_rng (r : Rng W) (s : state) : state :=
  State (clients s) (itr s) (substep s) (stats s) (loss s) r (log s).
Definition set_log (f : list event → list event) (s : state) : state :=
  State (clients s) (itr s) (substep s) (stats s) (loss s) (rng s) (f (log s)).

(** *** The monad: the state is returned on both exits *)

Definition M (A : Type) : Type := state → state * (exn + A).

#[global] Instance M_ret : MRet M := λ A a s, (s, inr a).
#[global] Instance M_bind : MBind M := λ A B f m s,
  match m s with
  | (s', inr a) => f a s'
  | (s', inl e) => (s', inl e)
  end.

Definition raise {A} (e : exn) : M A := λ s, (s, inl e).
Definition gets {A} (f : state → A) : M A := λ s, (s, inr (f s)).
Definition modify (f : state → state) : M unit := λ s, (f s, inr tt).
Definition emit (ev : event) : M unit := modify (set_log (λ l, l ++ [ev])).

(** [for x in xs: body(x)] *)
Fixpoint for_ {X} (xs : list X) (body : X → M unit) : M unit :=
  match xs with
  | [] => mret tt
  | x :: xs' => _ ← body x; for_ xs' body
  end.

(** [while cond: body], with a budget of iterations of the body. *)
Fixpoint while_ (fuel : nat) (cond : M bool) (body : M unit) : M unit :=
  c ← cond;
  if c : bool then
    match fuel with
    | O => raise OutOfFuel
    | S fuel' => _ ← body; while_ fuel' cond body
    end
  else mret tt.

(** [l[i]] *)
Definition index {A} (l : list A) (i : nat) : M A :=
  match l !! i with
  | Some x => mret x
  | None => raise IndexError
  end.

(** [l[-1]] *)
Definition index_last {A} (l : list A) : M A :=
  match last l with
  | Some x => mret x
  | None => raise IndexError
  end.

(** [a % b] and [a // b] on Python integers: floor semantics, as [Z.modulo]
    and [Z.div], and [ZeroDivisionError] for a zero divisor. *)
Definition py_mod (a b : Z) : M Z :=
  if decide (b = 0) then raise ZeroDivisionError else mret (a `mod` b).
Definition py_floordiv (a b : Z) : M Z :=
  if decide (b = 0) then raise ZeroDivisionError else mret (a `div` b).

(** [range(n)] for a Python integer [n]. *)
Definition range (n : Z) : list Z := Z.of_nat <$> seq 0 (Z.to_nat n).

(** The objects bound by [model, opt, scheduler = clients[i]]. *)
Definition client_at (i : nat) : M client := cs ← gets clients; index cs i.

(** An in-place mutation of the objects of client [i]. *)
Definition update_client (i : nat) (f : client → client) : M unit :=
  modify (set_clients (alter f i)).

Definition with_model (p : Params W) (c : client) : client :=
  Client p (training c) (grad c) (opt c) (scheduler c).
Definition with_training (b : bool) (c : client) : client :=
  Client (model c) b (grad c) (opt c) (scheduler c).
Definition with_grad (g : option Grad) (c : client) : client :=
  Client (model c) (training c) g (opt c) (scheduler c).
Definition with_opt (o : OptState W) (c : client) : client :=
  Client (model c) (training c) (grad c) o (scheduler c).
Definition with_scheduler (sc : option (SchedState W)) (c : client) : client :=
  Client (model c) (training c) (grad c) (opt c) sc.

(** [xs[i] += 1] on a list of integers. *)
Definition increment (get : state → list Z)
    (set : (list Z → list Z) → state → state) (i : nat) : M unit :=
  xs ← gets get;
  x ← index xs i;
  modify (set (λ l, <[i := x + 1]> l)).

(** [stats[key][i].append(v)] *)
Definition append_at (i : nat) (v : Q) (l : list (list Q)) : M (list (list Q)) :=
  xs ← index l i;
  mret (<[i := xs ++ [v]]> l).

(** [np.mean([col[j][-1] for j in range(num_clients)])] *)
Fixpoint last_entries (col : list (list Q)) (js : list nat) : M (list Q) :=
  match js with
  | [] => mret []
  | j :: js' =>
      xs ← index col j;
      x ← index_last xs;
      rest ← last_entries col js';
      mret (x :: rest)
  end.

Definition Qsum (l : list Q) : Q := foldr Qplus 0%Q l.
Definition mean (l : list Q) : Q := (Qsum l / inject_Z (Z.of_nat (length l)))%Q.

Section run.

(** The arguments of [train_lora] other than [clients] (which is the
    initial content of the state) and the backend (which is part of [W]). *)
Context (iterations acc_steps batch_size sequence_length eval_freq : Z).
Context (extra_args : args_t).

Definition type_ctx : type_ctx_t :=
  if device_is_cuda extra_args then Autocast else NullContext.

Section loop.

Context (num_clients : nat) (data : data_t) (num_substeps_per_epoch : list Z).

(** Lines 65-73: one microstep of gradient accumulation. *)
Definition microstep (i : nat) (microstep_idx : Z) : M unit :=
  shard ← index (d_train data) i;
  r ← gets rng;
  let '(b, r') := get_batch W r shard sequence_length batch_size in
  _ ← modify (set_rng r');
  _ ← emit (EvGetBatch i b);
  c ← client_at i;
  let out := forward_loss W type_ctx (training c) (model c) b in
  _ ← emit (EvForward i microstep_idx (training c) (model c) b out);
  let l := (out / inject_Z acc_steps)%Q in
  _ ← modify (set_loss (Some l));
  (* loss.backward(): the gradient of out / acc_steps *)
  let g := gscale (1 / inject_Z acc_steps)
             (loss_grad W type_ctx (training c) (model c) b) in
  _ ← update_client i (λ c, with_grad (accumulate (grad c) g) c);
  _ ← emit (EvBackward i l);
  increment substep set_substep i.

(** Lines 75-76. *)
Definition clip_gradients (i : nat) : M unit :=
  if Qeq_bool (grad_clip extra_args) 0 then mret tt
  else
    c ← client_at i;
    _ ← emit (EvClip i (grad c) (grad_clip extra_args));
    update_client i
      (λ c, with_grad (clip_grad_norm_ W (grad c) (grad_clip extra_args)) c).

(** Line 77. *)
Definition optimizer_step (i : nat) : M unit :=
  c ← client_at i;
  _ ← emit (EvOptStep i (grad c));
  let '(o', p') := opt_step W (opt c) (model c) (grad c) in
  update_client i (λ c, with_opt o' (with_model p' c)).

(** Line 78: a call of a method on [scheduler], which may be [None]. *)
Definition scheduler_step (i : nat) : M unit :=
  c ← client_at i;
  match scheduler c with
  | None => raise AttributeError
  | Some sc =>
      let '(sc', o') := sched_step W sc (opt c) in
      _ ← update_client i (λ c, with_scheduler (Some sc') (with_opt o' c));
      emit (EvSchedStep i)
  end.

(** Lines 61-79: the body of the loop over clients. *)
Definition local_step (i : nat) : M unit :=
  _ ← (xs ← gets itr; index xs i);          (* print(f'\r{i} {itr[i]}') *)
  _ ← client_at i;
  _ ← for_ (range acc_steps) (microstep i);
  _ ← clip_gradients i;
  _ ← optimizer_step i;
  _ ← scheduler_step i;
  increment itr set_itr i.

(** Lines 60-79: every client takes its local step, in index order. *)
Definition train_clients : M unit :=
  for_ (seq 0 num_clients) local_step.

(** The call of line 83.  [aggregate] mutates the models in place: every
    client keeps its optimizer and scheduler and receives new parameters. *)
Definition call_aggregate (round : Z) : M unit :=
  _ ← emit (EvAggregate round);
  cs ← gets clients;
  r ← gets rng;
  let '(ps, r') :=
    aggregate W (trust extra_args) (model <$> cs) data sequence_length
      batch_size type_ctx r in
  _ ← modify (set_rng r');
  modify (set_clients
            (imap (λ j c, with_model (default (model c) (ps !! j)) c))).

(** Lines 82-83.  [and] evaluates its second operand only when the first
    holds; the second cannot raise once the first was evaluated. *)
Definition maybe_aggregate : M unit :=
  xs ← gets itr;
  last_itr ← index_last xs;
  m ← py_mod last_itr (trust_freq extra_args);
  if (m =? 0) && (pretraining_rounds extra_args - 1 <=? last_itr)
  then call_aggregate last_itr
  else mret tt.

(** Lines 113-128: the telemetry of one evaluation. *)
Definition wandb_log (i : nat) (it : Z) (tl vl vp va cur_lr : Q) : M unit :=
  if use_wandb extra_args then
    _ ← (if decide (i = (num_clients - 1)%nat) then
           st ← gets stats;
           tls ← last_entries (train_loss st) (seq 0 num_clients);
           vls ← last_entries (val_loss st) (seq 0 num_clients);
           vps ← last_entries (val_pp st) (seq 0 num_clients);
           vas ← last_entries (val_acc st) (seq 0 num_clients);
           emit (EvWandbMeans (mean tls) (mean vls) (mean vps) (mean vas))
         else mret tt);
    emit (EvWandbClient i it tl vl vp va cur_lr
            (bool_decide (i = (num_clients - 1)%nat)))
  else mret tt.

(** Lines 108-111. *)
Definition record_stats (i : nat) (tl vl vp va : Q) : M unit :=
  st ← gets stats;
  c1 ← append_at i tl (train_loss st);
  _ ← modify (set_stats (λ st, Stats c1 (val_loss st) (val_pp st) (val_acc st)));
  st ← gets stats;
  c2 ← append_at i vl (val_loss st);
  _ ← modify (set_stats (λ st, Stats (train_loss st) c2 (val_pp st) (val_acc st)));
  st ← gets stats;
  c3 ← append_at i vp (val_pp st);
  _ ← modify (set_stats (λ st, Stats (train_loss st) (val_loss st) c3 (val_acc st)));
  st ← gets stats;
  c4 ← append_at i va (val_acc st);
  _ ← modify (set_stats (λ st, Stats (train_loss st) (val_loss st) (val_pp st) c4));
  emit (EvRecord i tl vl vp va).

(** Lines 94-130: the evaluation of client [i] on the master process. *)
Definition evaluate (i : nat) (it : Z) : M unit :=
  ss ← gets substep;
  sub ← index ss i;
  per_epoch ← index num_substeps_per_epoch i;
  _ ← py_floordiv sub per_epoch;                        (* epoch *)
  _ ← update_client i (with_training false);            (* model.eval() *)
  l ← gets loss;
  match l with
  | None => raise UnboundLocalError
  | Some l =>
      let tl := (l * inject_Z acc_steps)%Q in
      c ← client_at i;
      let current_lr :=
        match scheduler c with
        | Some sc => get_last_lr W sc
        | None => lr extra_args
        end in
      shard ← index (d_val data) i;
      r ← gets rng;
      let '(res, r') :=
        eval W (training c) (model c) shard sequence_length batch_size 12
          type_ctx r in
      _ ← modify (set_rng r');
      _ ← emit (EvEval i (training c) (model c));
      match res with
      | None => raise EvaluatorError
      | Some (va, vl, vp) =>
          _ ← record_stats i tl vl vp va;
          _ ← wandb_log i it tl vl vp va current_lr;
          update_client i (with_training true)          (* model.train() *)
      end
  end.

(** Lines 89-130: the body of the second loop over clients.  [or]
    evaluates its second operand only when the first fails. *)
Definition after_step (i : nat) : M unit :=
  _ ← client_at i;
  _ ← update_client i (with_grad None);    (* opt.zero_grad(set_to_none=True) *)
  _ ← emit (EvZeroGrad i);
  xs ← gets itr;
  it ← index xs i;
  m ← py_mod it eval_freq;
  if (m =? 0) || (it =? iterations) then
    if is_master_process W then evaluate i it else mret tt
  else mret tt.

(** Lines 131-134: the checkpoint stub; only its guard can have an effect. *)
Definition checkpoint_stub : M unit :=
  xs ← gets itr;
  last_itr ← index_last xs;
  m ← py_mod last_itr eval_freq;
  if (m =? 0) || (last_itr =? iterations) then
    cs ← gets clients; for_ cs (λ _, mret tt)
  else mret tt.

(** Lines 60-135: the body of the [while] loop. *)
Definition round : M unit :=
  _ ← train_clients;
  _ ← maybe_aggregate;
  _ ← for_ (seq 0 num_clients) after_step;
  checkpoint_stub.

(** Line 59. *)
Definition loop_cond : M bool :=
  xs ← gets itr;
  last_itr ← index_last xs;
  mret (last_itr <? iterations).

End loop.

(** Lines 46-48. *)
Fixpoint substeps_per_epoch (train : list Shard) : M (list Z) :=
  match train with
  | [] => mret []
  | t :: train' =>
      q ← py_floordiv (Z.of_nat (length t)) (batch_size * sequence_length);
      rest ← substeps_per_epoch train';
      mret (q :: rest)
  end.

(** The loop of line 59 runs its body at most [iterations] times: each
    round adds one to [itr[-1]], which starts at 0. *)
Definition fuel : nat := Z.to_nat iterations.

(** Lines 28-56: everything before the loop. *)
Definition setup : M (nat * data_t * list Z) :=
  cs ← gets clients;
  let num_clients := length cs in
  _ ← modify (set_itr (λ _, replicate num_clients 0));
  _ ← modify (set_substep (λ _, replicate num_clients 0));
  _ ← modify (set_stats (λ _,
         Stats (replicate num_clients []) (replicate num_clients [])
               (replicate num_clients []) (replicate num_clients [])));
  let data :=
    Data (memmap W TrainBin <$> seq 0 num_clients)
         (memmap W ValidBin <$> seq 0 num_clients)
         (memmap W TestBin <$> seq 0 num_clients) in
  num_substeps_per_epoch ← substeps_per_epoch (d_train data);
  _ ← (if no_compile extra_args then mret tt
       else for_ (seq 0 num_clients) (λ i, emit (EvCompile i)));
  _ ← for_ (seq 0 num_clients) (λ i, update_client i (with_training true));
  mret (num_clients, data, num_substeps_per_epoch).

(** [train_lora], from the state in which [clients] holds the argument. *)
Definition train_lora : M stats_t :=
  '(num_clients, data, num_substeps_per_epoch) ← setup;
  _ ← while_ fuel loop_cond (round num_clients data num_substeps_per_epoch);
  gets stats.

(** The states in which the condition of line 59 is evaluated: the one the
    setup leaves, and the one each completed round leaves. *)
Inductive loop_top (s0 : state) : nat → state → Prop :=
| top_first s env :
    setup s0 = (s, inr env) → loop_top s0 O s
| top_next k s s' s1 num_clients data per_epoch :
    setup s0 = (s1, inr (num_clients, data, per_epoch)) →
    loop_top s0 k s →
    loop_cond s = (s, inr true) →
    round num_clients data per_epoch s = (s', inr tt) →
    loop_top s0 (S k) s'.

End run.

(** The state in which [train_lora] is entered. *)
Definition initial_state (cs : list client) (r : Rng W) : state :=
  State cs [] [] (Stats [] [] [] []) None r [].

(** *** Vocabulary of the specifications *)

(** [wp m Q E s]: run from [s], [m] either returns a value and a state that
    satisfy [Q], or raises an exception in a state that satisfies [E]. *)
Definition wp {A} (m : M A) (Q : A → state → Prop)
    (E : exn → state → Prop) (s : state) : Prop :=
  match m s with
  | (s', inr a) => Q a s'
  | (s', inl e) => E e s'
  end.

(** Every event of a log satisfies [P], which may look at the events
    before it. *)
Definition justified (P : list event → event → Prop) (l : list event) : Prop :=
  ∀ pre e post, l = pre ++ e :: post → P pre e.

(** The rounds at which the aggregator was called, in order. *)
Definition aggregations (l : list event) : list Z :=
  omap (λ e, match e with EvAggregate r => Some r | _ => None end) l.

Definition is_aggregate (e : event) : bool :=
  match e with EvAggregate _ => true | _ => false end.

Definition is_clip (e : event) : bool :=
  match e with EvClip _ _ _ => true | _ => false end.

Definition is_forward (e : event) : bool :=
  match e with EvForward _ _ _ _ _ _ => true | _ => false end.

Definition is_record (e : event) : bool :=
  match e with EvRecord _ _ _ _ _ => true | _ => false end.

(** The client, the microstep index and the loss of the latest forward
    pass. *)
Fixpoint last_forward (l : list event) : option (nat * Z * Q) :=
  match l with
  | [] => None
  | e :: l' =>
      match last_forward l' with
      | Some x => Some x
      | None =>
          match e with
          | EvForward i k _ _ _ out => Some (i, k, out)
          | _ => None
          end
      end
  end.

(** The number of optimizer steps client [i] has taken. *)
Definition is_opt_step (i : nat) (e : event) : bool :=
  match e with EvOptStep j _ => bool_decide (j = i) | _ => false end.
Definition opt_steps (i : nat) (l : list event) : nat :=
  length (List.filter (is_opt_step i) l).

(** Every per-client list has one entry per client. *)
Definition shaped (n : nat) (s : state) : Prop :=
  length (clients s) = n ∧ length (itr s) = n ∧ length (substep s) = n ∧
  length (train_loss (stats s)) = n ∧ length (val_loss (stats s)) = n ∧
  length (val_pp (stats s)) = n ∧ length (val_acc (stats s)) = n.

(** The counters of [n] clients in round [k + 1], when the first [i] of
    them have taken their step. *)
Definition counters (n k i : nat) : list Z :=
  replicate i (Z.of_nat k + 1) ++ replicate (n - i) (Z.of_nat k).

Definition lockstep (n k i : nat) (s : state) : Prop :=
  shaped n s ∧ itr s = counters n k i.

(** The locals bound by the setup agree with the number of clients. *)
Definition env_ok (n : nat) (data : data_t) (per_epoch : list Z) : Prop :=
  length (d_train data) = n ∧ length (d_val data) = n ∧ length per_epoch = n.

(** The telemetry events. *)
Definition is_wandb (e : event) : bool :=
  match e with
  | EvWandbMeans _ _ _ _ | EvWandbClient _ _ _ _ _ _ _ _ => true
  | _ => false
  end.

(** What the second loop appends after [EvZeroGrad i] when it reaches
    client [i], the local [loss] being [l]: nothing when the client is not
    evaluated or the evaluation fails early; the call of the evaluator, in
    inference mode; and, when the evaluator returns, the record, whose train
    loss is [loss * acc_steps], and the telemetry. *)
Inductive eval_trace (acc_steps : Z) (i : nat) (l : option Q)
  : list event → Prop :=
| eval_none : eval_trace acc_steps i l []
| eval_raised p : eval_trace acc_steps i l [EvEval i false p]
| eval_recorded p l0 vl vp va wevs :
    l = Some l0 →
    forallb is_wandb wevs = true →
    eval_trace acc_steps i l
      (EvEval i false p :: EvRecord i (l0 * inject_Z acc_steps)%Q vl vp va
         :: wevs).

(** The optimizer and scheduler steps. *)
Definition is_step (e : event) : bool :=
  match e with
  | EvOptStep _ _ | EvSchedStep _ => true
  | _ => false
  end.

(** The three calls of a microstep. *)
Definition is_micro (e : event) : bool :=
  match e with
  | EvGetBatch _ _ | EvForward _ _ _ _ _ _ | EvBackward _ _ => true
  | _ => false
  end.

(** Client [j] has an entry in each of the four columns of [stats]. *)
Definition has_last (col : list (list Q)) (j : nat) : Prop :=
  ∃ xs x, col !! j = Some xs ∧ last xs = Some x.
Definition recorded (st : stats_t) (j : nat) : Prop :=
  has_last (train_loss st) j ∧ has_last (val_loss st) j ∧
  has_last (val_pp st) j ∧ has_last (val_acc st) j.

(** What line 83 does to the clients: new parameters, nothing else. *)
Definition aggregated (ps : list (Params W)) (cs : list client) : list client :=
  imap (λ j c, with_model (default (model c) (ps !! j)) c) cs.

(** What lines 28-56 leave in the state, and the locals they bind. *)
Definition loaded_data (n : nat) : data_t :=
  Data (memmap W TrainBin <$> seq 0 n) (memmap W ValidBin <$> seq 0 n)
       (memmap W TestBin <$> seq 0 n).
Definition empty_stats (n : nat) : stats_t :=
  Stats (replicate n []) (replicate n []) (replicate n []) (replicate n []).
Definition compile_events (no_compile : bool) (n : nat) : list event :=
  if no_compile then [] else EvCompile <$> seq 0 n.

(** The rounds whose training the last client has completed. *)
Definition rounds_trained (s : state) : list Z :=
  Z.of_nat <$> seq 1 (Z.to_nat (default 0 (last (itr s)))).

(** The guard of line 82, at round [r]. *)
Definition agg_due (extra_args : args_t) (r : Z) : bool :=
  (r `mod` trust_freq extra_args =? 0)
  && (pretraining_rounds extra_args - 1 <=? r).

(** When the aggregator is called for round [r], each of the [n] clients has
    taken exactly [r] optimizer steps. *)
Definition after_all_steps (n : nat) (pre : list event) (e : event) : Prop :=
  match e with
  | EvAggregate r => ∀ i, (i < n)%nat → Z.of_nat (opt_steps i pre) = r
  | _ => True
  end.

(** The evaluator sees a model in inference mode, a training forward pass
    a model in training mode. *)
Definition mode_discipline (pre : list event) (e : event) : Prop :=
  match e with
  | EvEval _ mode _ => mode = false
  | EvForward _ _ mode _ _ _ => mode = true
  | _ => True
  end.

(** The optimizer step consumes the gradient that the clipping call just
    before it produced, for the configured bound. *)
Definition clipped_step (extra_args : args_t) (pre : list event) (e : event)
  : Prop :=
  match e with
  | EvOptStep i g =>
      ∃ pre' g0,
        pre = pre' ++ [EvClip i g0 (grad_clip extra_args)] ∧
        g = clip_grad_norm_ W g0 (grad_clip extra_args)
  | _ => True
  end.

(** The train loss of a record is the loss of the latest forward pass, which
    is the final microstep of the last of the [n] clients, divided and then
    multiplied by [acc_steps]. *)
Definition train_loss_source (n : nat) (acc_steps : Z) (pre : list event)
    (e : event) : Prop :=
  match e with
  | EvRecord _ tl _ _ _ =>
      ∃ out,
        last_forward pre = Some ((n - 1)%nat, acc_steps - 1, out) ∧
        tl = (out / inject_Z acc_steps * inject_Z acc_steps)%Q
  | _ => True
  end.

(** The events of the microsteps [ks] of client [i] on the batches [bs],
    for a model in mode [mode] with parameters [p]. *)
Definition window (acc_steps : Z) (ctx : type_ctx_t) (i : nat) (mode : bool)
    (p : Params W) (ks : list Z) (bs : list (Batch W)) : list event :=
  flat_map
    (λ kb : Z * Batch W,
       let out := forward_loss W ctx mode p kb.2 in
       [EvGetBatch i kb.2; EvForward i kb.1 mode p kb.2 out;
        EvBackward i (out / inject_Z acc_steps)%Q])
    (zip ks bs).

(** A batch returned by [get_batch] for the train shard of client [i]. *)
Definition sampled (batch_size sequence_length : Z) (i : nat) (b : Batch W)
  : Prop :=
  ∃ r, b = (get_batch W r (memmap W TrainBin i) sequence_length batch_size).1.

Definition gsum (gs : list Grad) : Grad := foldr gadd gzero gs.

Definition mean_grad (gs : list Grad) : Grad :=
  gscale (1 / inject_Z (Z.of_nat (length gs))) (gsum gs).

(** The log [pre] ends with exactly [acc_steps] microsteps of client [i],
    each on a batch sampled from its train shard, and [g] is the mean of the
    gradients of the loss on these batches. *)
Definition accumulated_mean (acc_steps batch_size sequence_length : Z)
    (ctx : type_ctx_t) (pre : list event) (i : nat) (g : option Grad) : Prop :=
  ∃ pre' mode p bs G,
    pre = pre' ++ window acc_steps ctx i mode p (range acc_steps) bs ∧
    (∀ e, last pre' = Some e → is_micro e = false) ∧
    length bs = Z.to_nat acc_steps ∧
    Forall (sampled batch_size sequence_length i) bs ∧
    g = Some G ∧
    geq G (mean_grad (loss_grad W ctx mode p <$> bs)).

(** The gradient an optimizer step consumes is that mean, passed through
    the clipping call when one is configured. *)
Definition mean_gradient_step (acc_steps batch_size sequence_length : Z)
    (extra_args : args_t) (pre : list event) (e : event) : Prop :=
  match e with
  | EvOptStep i g =>
      ∃ pre' g0,
        accumulated_mean acc_steps batch_size sequence_length
          (type_ctx extra_args) pre' i g0 ∧
        if Qeq_bool (grad_clip extra_args) 0 then pre = pre' ∧ g = g0
        else pre = pre' ++ [EvClip i g0 (grad_clip extra_args)] ∧
             g = clip_grad_norm_ W g0 (grad_clip extra_args)
  | _ => True
  end.

(** The effect of the microsteps [ks] of client [i] on the gradient, the
    random state and [loss], and the events they append: the parameters and
    the mode of the model do not change before the optimizer step. *)
Fixpoint microsteps (acc_steps batch_size sequence_length : Z)
    (ctx : type_ctx_t) (i : nat) (shard : Shard) (mode : bool) (p : Params W)
    (ks : list Z) (g : option Grad) (r : Rng W) (l : option Q)
    : option Grad * Rng W * option Q * list event :=
  match ks with
  | [] => (g, r, l, [])
  | k :: ks' =>
      let '(b, r') := get_batch W r shard sequence_length batch_size in
      let out := forward_loss W ctx mode p b in
      let '(g', r'', l', evs) :=
        microsteps acc_steps batch_size sequence_length ctx i shard mode p ks'
          (accumulate g (gscale (1 / inject_Z acc_steps) (loss_grad W ctx mode p b)))
          r' (Some (out / inject_Z acc_steps)%Q) in
      (g', r'', l',
       EvGetBatch i b :: EvForward i k mode p b out
         :: EvBackward i (out / inject_Z acc_steps)%Q :: evs)
  end.

End train_lora.

Arguments justified {W} P l.
Arguments aggregations {W} l.
Arguments opt_steps {W} i l.
Arguments is_aggregate {W} e.
Arguments is_forward {W} e.
Arguments is_record {W} e.
Arguments last_forward {W} l.
Arguments train_loss_source {W} n acc_steps pre e.
Arguments is_clip {W} e.
Arguments mode_discipline {W} pre e.
Arguments is_step {W} e.
Arguments is_micro {W} e.
Arguments is_wandb {W} e.
Arguments rounds_trained {W} s.
Arguments after_all_steps {W} n pre e.

End Lora.

(** ** The entry point, [main.py] *)

Module Main.

(** The namespace [args], by the fields [main] reads; [extra] holds the
    fields that [train_lora] reads as [extra_args] (among them [lr],
    [trust_freq], [wandb] and the device). *)
Record args := MainArgs {
  dataset : string;
  model : string;
  scheduler : string;
  opt : string;
  results_base_folder : string;
  num_clients : Z;
  iterations : Z;
  acc_steps : Z;
  batch_size : Z;
  sequence_length : Z;
  eval_freq : Z;
  seed : Z;
  lora_rank : Z;
  lora_alpha : Q;
  lora_dropout : Q;
  extra : args_t;
}.

(** What [main] raises itself or lets through. *)
Inductive main_exn :=
| NotImplementedError
| SystemExit (code : Z)         (* sys.exit(code) *)
| OSError                       (* open() on a path that cannot be written *)
| Raised (e : exn).             (* UnboundLocalError, or out of train_lora *)

(** A file system, by the paths the program asks about. *)
Inductive content :=
| Summary (stats : stats_t) (a : args)   (* json.dump(stats, fs) *)
| Bytes (s : string).

Inductive node := Dir | File (c : content).

Definition filesystem := gmap string node.

Definition exists_ (fs : filesystem) (p : string) : bool :=
  bool_decide (is_Some (fs !! p)).

Definition isfile (fs : filesystem) (p : string) : bool :=
  match fs !! p with
  | Some (File _) => true
  | _ => false
  end.

(** [os.path.join(a, *ps)] of posixpath: an absolute component discards what
    precedes it; a separator is added unless the path so far is empty or
    ends with one. *)
Fixpoint endswith_sep (s : string) : bool :=
  match s with
  | EmptyString => false
  | String c EmptyString => bool_decide (c = "/"%char)
  | String _ s' => endswith_sep s'
  end.

Definition join_step (path b : string) : string :=
  if String.prefix "/" b then b
  else if bool_decide (path = "") || endswith_sep path then path +:+ b
  else path +:+ "/" +:+ b.

Definition os_path_join (a : string) (ps : list string) : string :=
  foldl join_step a ps.

Section main.

Context (W : world).

(** The library calls of [main] that build the run. *)
Record library := Library {
  (* torch.manual_seed, random.seed, np.random.seed *)
  manual_seed : Z → Rng W;
  (* get_model(args).to(args.device), transformed by the backend *)
  get_model : args → Rng W → Params W * Rng W;
  (* torch.optim.AdamW(group_specs, ...) and torch.optim.SGD(group_specs, ...) *)
  AdamW : args → Params W → OptState W;
  SGD : args → Params W → OptState W;
  (* torch.optim.lr_scheduler.OneCycleLR(optimizer=opt, ...) *)
  OneCycleLR : args → OptState W → SchedState W;
  (* str() of a float, as an f-string renders it *)
  str_float : Q → string;
}.

Context (L : library).

Inductive message :=
| LoadingDataset (name : string)
| OptimizedParameters
| UsingFusedAdamW
| InitializeWandb
| AlreadyFound (ckpt_path : string)
| TrainingModel (name : string).

(** The effects of [main], in program order. *)
Inductive event :=
| EvPrint (m : message)
| EvWandbInit (name : string)
| EvMakedirs (path : string)
| EvTrain (final : Lora.state W)
| EvDump (path : string)
| EvFinalize.

Record state := State {
  fs : filesystem;
  rng : Rng W;
  clients : list (Lora.client W);
  out : list event;
}.

Definition M (A : Type) : Type := state → state * (main_exn + A).

#[global] Instance M_ret : MRet M := λ A a s, (s, inr a).
#[global] Instance M_bind : MBind M := λ A B f m s,
  match m s with
  | (s', inr a) => f a s'
  | (s', inl e) => (s', inl e)
  end.

Definition raise {A} (e : main_exn) : M A := λ s, (s, inl e).
Definition gets {A} (f : state → A) : M A := λ s, (s, inr (f s)).
Definition modify (f : state → state) : M unit := λ s, (f s, inr tt).
Definition emit (ev : event) : M unit :=
  modify (λ s, State (fs s) (rng s) (clients s) (out s ++ [ev])).
Definition when (b : bool) (m : M unit) : M unit := if b then m else mret tt.

Fixpoint for_ {X} (xs : list X) (body : X → M unit) : M unit :=
  match xs with
  | [] => mret tt
  | x :: xs' => _ ← body x; for_ xs' body
  end.

(** Lines 28-35: no branch binds [data_path] for another dataset name. *)
Definition get_dataset_from_args (a : args) : M string :=
  if String.eqb (dataset a) "multiwiki" then
    mret "/mloscratch/homes/dfan/codes/efficient-collaborative-instruction-tuning/data-multilingual-no-mixture/4/"
  else if String.eqb (dataset a) "slimpajama" then
    mret "/mloscratch/homes/bmessmer/data/efficient-collaborative-instruction-tuning/redpajama-formal/4/"
  else if String.eqb (dataset a) "agnews" then
    mret "/mloscratch/homes/dfan/codes/efficient-collaborative-instruction-tuning/data-agnews-no-mixture-v2/4/"
  else raise (Raised UnboundLocalError).

(** Lines 38-43. *)
Definition get_exp_name (a : args) : string :=
  model a +:+ "_lr_" +:+ str_float L (lr (extra a))
    +:+ "_bs_" +:+ pretty (batch_size a) +:+ "x" +:+ pretty (acc_steps a)
    +:+ "_trust_update_every_" +:+ pretty (trust_freq (extra a))
    +:+ "_lora_rank_" +:+ pretty (lora_rank a)
    +:+ "_alpha_" +:+ str_float L (lora_alpha a)
    +:+ "_dropout_" +:+ str_float L (lora_dropout a)
    +:+ "_seed=" +:+ pretty (seed a).

(** Lines 86-93. *)
Definition make_optimizer (a : args) (p : Params W) : M (OptState W) :=
  if String.eqb (opt a) "adamw" then
    _ ← emit (EvPrint UsingFusedAdamW);
    mret (AdamW L a p)
  else mret (SGD L a p).

(** Lines 95-106. *)
Definition make_scheduler (a : args) (o : OptState W) :
    M (option (SchedState W)) :=
  if negb (String.eqb (scheduler a) "none") then
    if String.eqb (scheduler a) "cos" || String.eqb (scheduler a) "linear" then
      mret (Some (OneCycleLR L a o))
    else raise NotImplementedError
  else mret None.

(** Lines 69-108: the body of the loop over clients. *)
Definition make_client (a : args) (i : nat) : M unit :=
  r ← gets rng;
  let '(p, r') := get_model L a r in
  _ ← modify (λ s, State (fs s) r' (clients s) (out s));
  _ ← when (bool_decide (i = 0%nat)) (emit (EvPrint OptimizedParameters));
  o ← make_optimizer a p;
  sc ← make_scheduler a o;
  modify (λ s, State (fs s) (rng s)
                 (clients s ++ [Lora.Client W p true None o sc]) (out s)).

Definition ckpt_path (a : args) : string :=
  os_path_join (results_base_folder a) [dataset a; model a; get_exp_name a].

(** Lines 119-124. *)
Definition check_completed (a : args) : M unit :=
  files ← gets fs;
  if negb (exists_ files (ckpt_path a)) then
    when (is_master_process W)
      (_ ← modify (λ s, State (<[ckpt_path a := Dir]> (fs s)) (rng s)
                          (clients s) (out s));
       emit (EvMakedirs (ckpt_path a)))
  else if isfile files (os_path_join (ckpt_path a) ["summary.json"]) then
    _ ← emit (EvPrint (AlreadyFound (ckpt_path a)));
    raise (SystemExit 0)
  else mret tt.

(** Lines 133-136: the call of [train], on the clients built above. *)
Definition train (a : args) : M stats_t :=
  cs ← gets clients;
  r ← gets rng;
  let '(final, res) :=
    Lora.train_lora W (iterations a) (acc_steps a) (batch_size a)
      (sequence_length a) (eval_freq a) (extra a) (Lora.initial_state W cs r) in
  _ ← emit (EvTrain final);
  match res with
  | inl e => raise (Raised e)
  | inr stats => mret stats
  end.

(** Lines 141-143: [open(f'{ckpt_path}/summary.json', 'w')] needs the
    directory, and a path that is not itself a directory. *)
Definition dump_summary (a : args) (stats : stats_t) : M unit :=
  let path := ckpt_path a +:+ "/summary.json" in
  files ← gets fs;
  match files !! ckpt_path a, files !! path with
  | Some Dir, None | Some Dir, Some (File _) =>
      _ ← modify (λ s, State (<[path := File (Summary stats a)]> (fs s))
                          (rng s) (clients s) (out s));
      emit (EvDump path)
  | _, _ => raise OSError
  end.

(** Lines 112-116. *)
Definition init_wandb (a : args) : M unit :=
  when (is_master_process W && use_wandb (extra a))
    (_ ← emit (EvPrint InitializeWandb);
     emit (EvWandbInit (get_exp_name a))).

Definition main (a : args) : M unit :=
  _ ← modify (λ s, State (fs s) (manual_seed L (seed a)) (clients s) (out s));
  _ ← emit (EvPrint (LoadingDataset (dataset a)));
  data_path ← get_dataset_from_args a;
  _ ← modify (λ s, State (fs s) (rng s) [] (out s));
  _ ← for_ (seq 0 (Z.to_nat (num_clients a))) (make_client a);
  _ ← init_wandb a;
  _ ← check_completed a;
  _ ← (if String.eqb (model a) "lora" then mret tt
       else raise NotImplementedError);
  _ ← emit (EvPrint (TrainingModel (model a)));
  stats ← train a;
  _ ← when (is_master_process W) (dump_summary a stats);
  emit EvFinalize.

(** The process starts with a file system and nothing else. *)
Definition start (files : filesystem) (r : Rng W) : state :=
  State files r [] [].

(** Printing and the wandb handshake: the effects that neither train nor
    touch the file system. *)
Definition quiet (e : event) : bool :=
  match e with
  | EvPrint _ | EvWandbInit _ => true
  | _ => false
  end.

Definition known_dataset (a : args) : Prop :=
  dataset a ∈ ["multiwiki"; "slimpajama"; "agnews"].

Definition known_scheduler (a : args) : Prop :=
  scheduler a ∈ ["none"; "cos"; "linear"].

(** [ckpt_path] is a directory that holds a [summary.json] file. *)
Definition completed (files : filesystem) (a : args) : Prop :=
  is_Some (files !! ckpt_path a) ∧
  ∃ c, files !! os_path_join (ckpt_path a) ["summary.json"] = Some (File c).

(** [m] returns [x] from [s], having printed at most: the files are
    untouched and the new events are all quiet. *)
Definition runs_quietly {A} (m : M A) (s : state) (x : A) (s' : state) :
    Prop :=
  m s = (s', inr x) ∧ fs s' = fs s ∧
  ∃ evs, out s' = out s ++ evs ∧ forallb quiet evs = true.

End main.

Arguments quiet {W} e.
Arguments runs_quietly {W A} m s x s'.

End Main.

(** ** The trust aggregator *)

Module Trust.

(** Modelled from the spec: the Trust Aggregator, [strategies.aggregate], whose
    file is not among the sources.  For each ordered pair [(i, j)] a scalar
    loss [L i j] of client [i]'s model on client [j]'s reference shard; for a
    target [j] the row of losses is turned into non-negative weights over the
    sources by a pluggable policy, the row is normalized to sum to 1, self
    term included, and the new parameters of [j] are the combination of all
    clients' parameters, read from one snapshot, under that row. *)
Definition policy := Q → Q.

Definition total (ws : list Q) : Q := foldr Qplus 0%Q ws.

Definition raw_weights (pol : policy) (L : nat → nat → Q) (n j : nat) : list Q :=
  (λ i, pol (L i j)) <$> seq 0 n.

Definition normalize (ws : list Q) : list Q := (λ w, w / total ws)%Q <$> ws.

Definition weights (pol : policy) (L : nat → nat → Q) (n j : nat) : list Q :=
  normalize (raw_weights pol L n j).

(** One coordinate of the combination: the sum of [w_i * p_i]. *)
Fixpoint combine (ws ps : list Q) : Q :=
  match ws, ps with
  | w :: ws', p :: ps' => (w * p + combine ws' ps')%Q
  | _, _ => 0%Q
  end.

(** Parameters are vectors of coordinates; coordinate [k] of the new
    parameters of every client, from the snapshot. *)
Definition aggregate (pol : policy) (L : nat → nat → Q)
    (snapshot : list (nat → Q)) : list (nat → Q) :=
  imap (λ j _ k, combine (weights pol L (length snapshot) j)
                    ((λ p, p k) <$> snapshot)) snapshot.

(** The named strategy used in the examples: the inverse of the loss. *)
Definition inverse_loss : policy := λ l, (/ l)%Q.

End Trust.

(** ** Inputs small enough to run *)

Module Examples.

(** A world small enough to run: parameters are one rational, a batch is the
    value of the counter that stands for the random state, shards hold eight
    tokens, and the evaluator reports the parameter. *)
Definition toy : world := {|
  Params := Q; OptState := unit; SchedState := unit; Batch := Z; Rng := Z;
  memmap := λ _ _, replicate 8%nat 0;
  get_batch := λ r _ _ _, (r, r + 1);
  forward_loss := λ _ _ p b, (p + inject_Z b)%Q;
  loss_grad := λ _ _ _ b _, inject_Z b;
  clip_grad_norm_ := λ g _, g;
  opt_step := λ o p g, (o, match g with Some g => (p - g 0%nat)%Q | None => p end);
  sched_step := λ sc o, (sc, o);
  get_last_lr := λ _, 1%Q;
  aggregate := λ _ ps _ _ _ _ r, (ps, r);
  eval := λ _ p _ _ _ _ _ r, (Some (p, p, p), r);
  is_master_process := true;
|}.

(** The same world with an evaluator that raises. *)
Definition toy_failing_eval : world := {|
  Params := Q; OptState := unit; SchedState := unit; Batch := Z; Rng := Z;
  memmap := memmap toy;
  get_batch := get_batch toy;
  forward_loss := forward_loss toy;
  loss_grad := loss_grad toy;
  clip_grad_norm_ := clip_grad_norm_ toy;
  opt_step := opt_step toy;
  sched_step := sched_step toy;
  get_last_lr := get_last_lr toy;
  aggregate := aggregate toy;
  eval := λ _ _ _ _ _ _ _ r, (None, r);
  is_master_process := true;
|}.

(** A client as [main] builds it, with and without a scheduler. *)
Definition scheduled (W : world) (p : Params W) (o : OptState W)
    (sc : SchedState W) : Lora.client W :=
  Lora.Client W p true None o (Some sc).

Definition unscheduled (W : world) (p : Params W) (o : OptState W) :
    Lora.client W :=
  Lora.Client W p true None o None.

Definition two_clients : list (Lora.client toy) :=
  [scheduled toy 0%Q tt tt; scheduled toy 0%Q tt tt].

(** cpu, no compilation, no clipping, aggregation every second round from
    the start, no wandb. *)
Definition every_second_round : args_t :=
  Args false true 0%Q 2 1 "none" false 1%Q.

(** The same with [trust_freq = 0]. *)
Definition zero_trust_freq : args_t :=
  Args false true 0%Q 0 1 "none" false 1%Q.

(** Seeds are random states, a new model is the counter it is drawn at,
    optimizers and schedulers carry nothing, and a float is shown as a
    fraction. *)
Definition toy_library : Main.library toy :=
  Main.Library toy
    (λ seed, seed)
    (λ _ r, (inject_Z r, r + 1))
    (λ _ _, tt)
    (λ _ _, tt)
    (λ _ _, tt)
    (λ q, pretty (Qnum q) +:+ ":" +:+ pretty (Z.pos (Qden q))).

Definition toy_args (scheduler : string) : Main.args := {|
  Main.dataset := "agnews";
  Main.model := "lora";
  Main.scheduler := scheduler;
  Main.opt := "adamw";
  Main.results_base_folder := "exps";
  Main.num_clients := 2;
  Main.iterations := 4;
  Main.acc_steps := 1;
  Main.batch_size := 2;
  Main.sequence_length := 2;
  Main.eval_freq := 2;
  Main.seed := 0;
  Main.lora_rank := 4;
  Main.lora_alpha := 32%Q;
  Main.lora_dropout := 0%Q;
  Main.extra := every_second_round;
|}.

(** A checkpoint directory that already holds a summary. *)
Definition completed_files (a : Main.args) : Main.filesystem :=
  {[ Main.ckpt_path toy toy_library a := Main.Dir;
     Main.os_path_join (Main.ckpt_path toy toy_library a) ["summary.json"] :=
       Main.File (Main.Bytes "{}") ]}.

(** Losses of client [i] on the reference shard of client [j]. *)
Definition toy_losses (i j : nat) : Q :=
  if decide (i = j) then 1%Q else 2%Q.

Definition toy_snapshot : list (nat → Q) := [λ _, 0%Q; λ _, 3%Q].

End Examples.

(** ** Vocabulary for the accounts of a run *)

Module Accounting.
Section accounting.

Context {W : world}.

(** The calls of the evaluator, the writes to [stats] and the telemetry:
    what lines 93-130 do. *)
Definition is_evaluation (e : Lora.event W) : bool :=
  match e with
  | Lora.EvEval _ _ _ _ | Lora.EvRecord _ _ _ _ _ _
  | Lora.EvWandbMeans _ _ _ _ _ | Lora.EvWandbClient _ _ _ _ _ _ _ _ _ => true
  | _ => false
  end.

(** The guard of lines 92 and 131, for a counter that stands at [r]. *)
Definition eval_due (iterations eval_freq r : Z) : bool :=
  (r `mod` eval_freq =? 0) || (r =? iterations).

(** How many of the rounds [1 .. k] are evaluated. *)
Definition evaluations (iterations eval_freq : Z) (k : nat) : nat :=
  length (List.filter (eval_due iterations eval_freq) (Z.of_nat <$> seq 1 k)).

(** A column of [stats]: [n] lists, of [m] entries each. *)
Definition entries (n m : nat) (col : list (list Q)) : Prop :=
  length col = n ∧ Forall (λ l, length l = m) col.

(** The lengths of the per-client lists of a column, and of all four. *)
Definition col_lengths (f : nat → nat) (col : list (list Q)) : Prop :=
  ∀ j l, col !! j = Some l → length l = f j.

Definition stats_lengths (f : nat → nat) (st : stats_t) : Prop :=
  col_lengths f (train_loss st) ∧ col_lengths f (val_loss st) ∧
  col_lengths f (val_pp st) ∧ col_lengths f (val_acc st).

(** The scheduler steps of client [i] in a log. *)
Definition is_sched_step (i : nat) (e : Lora.event W) : bool :=
  match e with Lora.EvSchedStep _ j => bool_decide (j = i) | _ => false end.
Definition sched_steps (i : nat) (l : list (Lora.event W)) : nat :=
  length (List.filter (is_sched_step i) l).

End accounting.
End Accounting.

(** ** Vocabulary for the effects of the entry point *)

Module Effects.
Section effects.

Context {W : world} (L : Main.library W).

(** The optimizer and the scheduler that lines 86-106 choose, when the
    scheduler name is known. *)
Definition optimizer_of (a : Main.args) (p : Params W) : OptState W :=
  if String.eqb (Main.opt a) "adamw" then Main.AdamW W L a p
  else Main.SGD W L a p.

Definition scheduler_of (a : Main.args) (o : OptState W) :
    option (SchedState W) :=
  if String.eqb (Main.scheduler a) "none" then None
  else Some (Main.OneCycleLR W L a o).

(** The list that the loop of lines 68-108 builds in [k] passes from the
    random state [r], and the random state it leaves. *)
Fixpoint built (a : Main.args) (k : nat) (r : Rng W) :
    list (Lora.client W) * Rng W :=
  match k with
  | O => ([], r)
  | S k' =>
      let '(p, r') := Main.get_model W L a r in
      let o := optimizer_of a p in
      let '(cs, r'') := built a k' r' in
      (Lora.Client W p true None o (scheduler_of a o) :: cs, r'')
  end.

(** The path that line 142 opens. *)
Definition summary_path (a : Main.args) : string :=
  Main.ckpt_path W L a +:+ "/summary.json".

(** Whatever its outcome, [m] takes a state to one related to it by [R]. *)
Definition keeps {A} (R : Main.state W → Main.state W → Prop)
    (m : Main.M W A) : Prop :=
  ∀ s s' res, m s = (s', res) → R s s'.

(** The file system differs at most at the paths in [ps]. *)
Definition same_files_except (ps : list string)
    (s s' : Main.state W) : Prop :=
  ∀ p, p ∉ ps → Main.fs W s' !! p = Main.fs W s !! p.

(** The arguments with another seed. *)
Definition with_seed (seed' : Z) (a : Main.args) : Main.args :=
  Main.MainArgs (Main.dataset a) (Main.model a) (Main.scheduler a)
    (Main.opt a) (Main.results_base_folder a) (Main.num_clients a)
    (Main.iterations a) (Main.acc_steps a) (Main.batch_size a)
    (Main.sequence_length a) (Main.eval_freq a) seed' (Main.lora_rank a)
    (Main.lora_alpha a) (Main.lora_dropout a) (Main.extra a).

Definition is_train (e : Main.event W) : bool :=
  match e with Main.EvTrain _ _ => true | _ => false end.

(** The clients and the random state that [main] has when the loop over
    the clients is done. *)
Definition loaded (a : Main.args) : list (Lora.client W) * Rng W :=
  built a (Z.to_nat (Main.num_clients a)) (Main.manual_seed W L (Main.seed a)).

(** Nothing stops [main] before line 110. *)
Definition ready (a : Main.args) : Prop :=
  Main.known_dataset a ∧ (Main.num_clients a ≤ 0 ∨ Main.known_scheduler a).

(** The two tests of lines 119 and 122. *)
Definition found (files : Main.filesystem) (a : Main.args) : bool :=
  Main.exists_ files (Main.ckpt_path W L a) &&
  Main.isfile files (Main.os_path_join (Main.ckpt_path W L a) ["summary.json"]).

(** The file system after lines 119-121, and the event of line 121. *)
Definition makes_dir (files : Main.filesystem) (a : Main.args) : bool :=
  negb (Main.exists_ files (Main.ckpt_path W L a)) && is_master_process W.

Definition prepared (files : Main.filesystem) (a : Main.args) :
    Main.filesystem :=
  if makes_dir files a then <[Main.ckpt_path W L a := Main.Dir]> files
  else files.

Definition makedirs_events (files : Main.filesystem) (a : Main.args) :
    list (Main.event W) :=
  if makes_dir files a then [Main.EvMakedirs W (Main.ckpt_path W L a)] else [].

(** Line 142 can open the summary for writing. *)
Definition writable (files : Main.filesystem) (a : Main.args) : bool :=
  match files !! Main.ckpt_path W L a, files !! summary_path a with
  | Some Main.Dir, None | Some Main.Dir, Some (Main.File _) => true
  | _, _ => false
  end.

(** The call of line 133, on the clients and random state of [s]. *)
Definition trained (a : Main.args) (s : Main.state W) :
    Lora.state W * (exn + stats_t) :=
  Lora.train_lora W (Main.iterations a) (Main.acc_steps a) (Main.batch_size a)
    (Main.sequence_length a) (Main.eval_freq a) (Main.extra a)
    (Lora.initial_state W (Main.clients W s) (Main.rng W s)).

(** The state holds what the loop over the clients built. *)
Definition holds_loaded (a : Main.args) (s : Main.state W) : Prop :=
  Main.clients W s = (loaded a).1 ∧ Main.rng W s = (loaded a).2.

(** The ways [main] can end, from the file system [files]. *)
Inductive outcome (a : Main.args) (files : Main.filesystem) :
    Main.state W * (Main.main_exn + ()) → Prop :=
| unknown_dataset s :
    ¬ Main.known_dataset a →
    Main.fs W s = files → Main.clients W s = [] →
    forallb Main.quiet (Main.out W s) = true →
    outcome a files (s, inl (Main.Raised UnboundLocalError))
| unknown_scheduler s :
    Main.known_dataset a → 1 ≤ Main.num_clients a →
    ¬ Main.known_scheduler a →
    Main.fs W s = files → Main.clients W s = [] →
    forallb Main.quiet (Main.out W s) = true →
    outcome a files (s, inl Main.NotImplementedError)
| skipped s :
    ready a → found files a = true →
    Main.fs W s = files → holds_loaded a s →
    forallb Main.quiet (Main.out W s) = true →
    outcome a files (s, inl (Main.SystemExit 0))
| unknown_model s pre :
    ready a → found files a = false → Main.model a ≠ "lora" →
    Main.fs W s = prepared files a → holds_loaded a s →
    Main.out W s = pre ++ makedirs_events files a →
    forallb Main.quiet pre = true →
    outcome a files (s, inl Main.NotImplementedError)
| training_raised s pre final e :
    ready a → found files a = false → Main.model a = "lora" →
    trained a s = (final, inl e) →
    Main.fs W s = prepared files a → holds_loaded a s →
    Main.out W s = pre ++ makedirs_events files a
                     ++ [Main.EvPrint W (Main.TrainingModel (Main.model a));
                         Main.EvTrain W final] →
    forallb Main.quiet pre = true →
    outcome a files (s, inl (Main.Raised e))
| dump_failed s pre final st :
    ready a → found files a = false → Main.model a = "lora" →
    trained a s = (final, inr st) →
    is_master_process W = true → writable (prepared files a) a = false →
    Main.fs W s = prepared files a → holds_loaded a s →
    Main.out W s = pre ++ makedirs_events files a
                     ++ [Main.EvPrint W (Main.TrainingModel (Main.model a));
                         Main.EvTrain W final] →
    forallb Main.quiet pre = true →
    outcome a files (s, inl Main.OSError)
| returned s pre final st :
    ready a → found files a = false → Main.model a = "lora" →
    trained a s = (final, inr st) →
    (is_master_process W = true → writable (prepared files a) a = true) →
    Main.fs W s
    = (if is_master_process W
       then <[summary_path a := Main.File (Main.Summary st a)]>
              (prepared files a)
       else prepared files a) →
    holds_loaded a s →
    Main.out W s = pre ++ makedirs_events files a
                     ++ [Main.EvPrint W (Main.TrainingModel (Main.model a));
                         Main.EvTrain W final]
                     ++ (if is_master_process W
                         then [Main.EvDump W (summary_path a)] else [])
                     ++ [Main.EvFinalize W] →
    forallb Main.quiet pre = true →
    outcome a files (s, inr ()).

End effects.

(** A string that is not empty and does not end with the separator. *)
Definition open_ended (s : string) : Prop :=
  s ≠ "" ∧ Main.endswith_sep s = false.

End Effects.

(** ** More inputs small enough to run *)

Module Scenarios.
Import Examples.

(** The toy world seen from a process that is not the master. *)
Definition toy_worker : world := {|
  Params := Q; OptState := unit; SchedState := unit; Batch := Z; Rng := Z;
  memmap := memmap toy;
  get_batch := get_batch toy;
  forward_loss := forward_loss toy;
  loss_grad := loss_grad toy;
  clip_grad_norm_ := clip_grad_norm_ toy;
  opt_step := opt_step toy;
  sched_step := sched_step toy;
  get_last_lr := get_last_lr toy;
  aggregate := aggregate toy;
  eval := eval toy;
  is_master_process := false;
|}.

Definition two_workers : list (Lora.client toy_worker) :=
  [scheduled toy_worker 0%Q tt tt; scheduled toy_worker 0%Q tt tt].

(** The example arguments with another dataset and another model type. *)
Definition with_dataset (name : string) (a : Main.args) : Main.args :=
  Main.MainArgs name (Main.model a) (Main.scheduler a)
    (Main.opt a) (Main.results_base_folder a) (Main.num_clients a)
    (Main.iterations a) (Main.acc_steps a) (Main.batch_size a)
    (Main.sequence_length a) (Main.eval_freq a) (Main.seed a)
    (Main.lora_rank a) (Main.lora_alpha a) (Main.lora_dropout a)
    (Main.extra a).

Definition with_model (name : string) (a : Main.args) : Main.args :=
  Main.MainArgs (Main.dataset a) name (Main.scheduler a)
    (Main.opt a) (Main.results_base_folder a) (Main.num_clients a)
    (Main.iterations a) (Main.acc_steps a) (Main.batch_size a)
    (Main.sequence_length a) (Main.eval_freq a) (Main.seed a)
    (Main.lora_rank a) (Main.lora_alpha a) (Main.lora_dropout a)
    (Main.extra a).

End Scenarios.

(** * Verification of the orchestrator *)

Module LoraProofs.
Import Lora.

Create HintDb lora discriminated.
Create HintDb lora_set discriminated.
Create HintDb lora_with discriminated.

#[local] Hint Unfold wp client_at increment update_client emit modify gets
  raise index index_last mbind M_bind mret M_ret : lora.

#[local] Hint Unfold set_clients set_itr set_substep set_stats set_loss
  set_rng set_log : lora_set.
#[local] Hint Unfold with_model with_training with_grad with_opt
  with_scheduler : lora_with.

(** Symbolic execution of straight-line code. *)
Ltac run := repeat autounfold with lora; simpl.

(** The state reached, as one record. *)
Ltac norm_state :=
  autounfold with lora_set; simpl; rewrite <- ?app_assoc; simpl.

Lemma alter_lookup {A} (f : A → A) (l : list A) i x :
  l !! i = Some x → alter f i l = <[i := f x]> l.
Proof.
  intros Hx. rewrite list_insert_alter. apply list_alter_ext; [|done].
  intros y Hy. congruence.
Qed.

Lemma alter_insert {A} (f : A → A) (l : list A) i x :
  (i < length l)%nat → alter f i (<[i := x]> l) = <[i := f x]> l.
Proof.
  intros Hi. rewrite (alter_lookup f _ i x).
  - by rewrite list_insert_insert_eq.
  - by apply list_lookup_insert_eq.
Qed.

(** The objects of a client after a sequence of in-place updates. *)
Ltac norm_clients :=
  rewrite ?alter_insert by (by rewrite ?length_insert);
  autounfold with lora_with; simpl.


(** *** Properties of event logs *)

Section logs.

Context {W : world}.
Implicit Types (l pre evs : list (event W)) (e : event W).

Lemma justified_nil (P : list (event W) → event W → Prop) : justified P [].
Proof. intros pre e post H. by destruct pre. Qed.

Lemma justified_snoc (P : list (event W) → event W → Prop) l e :
  justified P l → P l e → justified P (l ++ [e]).
Proof.
  intros Hl He pre e' post Heq.
  destruct (exists_last (l:=e' :: post)) as (post' & x & Hpost); [done|].
  rewrite Hpost, app_assoc in Heq. apply app_inj_tail in Heq as [-> <-].
  destruct post as [|y post].
  - destruct post'; [|by destruct post'].
    simpl in Hpost. simplify_eq. by rewrite app_nil_r in He.
  - destruct post' as [|z post']; [done|]. simpl in Hpost.
    injection Hpost as <- Hpost. by eapply (Hl pre e' post').
Qed.

Lemma justified_app (P : list (event W) → event W → Prop) l evs :
  justified P l →
  (∀ pre e post, evs = pre ++ e :: post → P (l ++ pre) e) →
  justified P (l ++ evs).
Proof.
  revert l. induction evs as [|x evs IH] using rev_ind; intros l Hl Hevs.
  - by rewrite app_nil_r.
  - rewrite app_assoc. apply justified_snoc.
    + apply IH; [done|]. intros pre e post ->.
      apply (Hevs pre e (post ++ [x])). by rewrite <- app_assoc.
    + apply (Hevs evs x []). done.
Qed.

Lemma justified_app_any (P : list (event W) → event W → Prop) l evs :
  justified P l → Forall (λ e, ∀ pre, P pre e) evs → justified P (l ++ evs).
Proof.
  intros Hl Hevs. apply justified_app; [done|]. intros pre e post ->.
  apply Forall_app in Hevs as [_ Hevs]. by apply Forall_cons in Hevs as [? _].
Qed.

Lemma aggregations_app l evs :
  aggregations (l ++ evs) = aggregations l ++ aggregations evs.
Proof. apply omap_app. Qed.

Lemma aggregations_none evs :
  forallb (λ e, negb (is_aggregate e)) evs = true → aggregations evs = [].
Proof.
  induction evs as [|e evs IH]; [done|]. simpl.
  intros [He Hevs]%andb_true_iff. unfold aggregations in *. simpl.
  rewrite IH by done. by destruct e.
Qed.

Lemma aggregations_quiet l evs :
  forallb (λ e, negb (is_aggregate e)) evs = true →
  aggregations (l ++ evs) = aggregations l.
Proof.
  intros H. by rewrite aggregations_app, (aggregations_none evs), app_nil_r.
Qed.

Lemma opt_steps_app i l evs :
  opt_steps i (l ++ evs) = (opt_steps i l + opt_steps i evs)%nat.
Proof. unfold opt_steps. by rewrite List.filter_app, length_app. Qed.

Lemma opt_steps_none i evs :
  forallb (λ e, negb (is_step e)) evs = true → opt_steps i evs = O.
Proof.
  induction evs as [|e evs IH]; [done|]. simpl.
  intros [He Hevs]%andb_true_iff. unfold opt_steps in *. simpl.
  destruct (is_opt_step W i e) eqn:Hopt; [by destruct e|]. by apply IH.
Qed.

Lemma opt_steps_quiet i l evs :
  forallb (λ e, negb (is_step e)) evs = true →
  opt_steps i (l ++ evs) = opt_steps i l.
Proof. intros H. rewrite opt_steps_app, (opt_steps_none i evs) by done. lia. Qed.

Lemma forallb_impl {A} (f g : A → bool) (xs : list A) :
  (∀ x, f x = true → g x = true) → forallb f xs = true → forallb g xs = true.
Proof. rewrite !forallb_forall. auto. Qed.

Lemma eval_trace_quiet acc i lo evs :
  eval_trace W acc i lo evs →
  forallb (λ e, negb (is_step e) && negb (is_aggregate e) && negb (is_micro e))
    evs = true.
Proof.
  destruct 1 as [|p|p l0 vl vp va wevs _ Hw]; simpl; try done.
  revert Hw. apply forallb_impl. by intros [].
Qed.

Lemma after_all_steps_other n pre e :
  is_aggregate e = false → after_all_steps n pre e.
Proof. by destruct e. Qed.

Lemma justified_no_aggregate n l evs :
  forallb (λ e, negb (is_aggregate e)) evs = true →
  justified (after_all_steps n) l → justified (after_all_steps n) (l ++ evs).
Proof.
  intros Hevs Hl. apply justified_app_any; [done|].
  apply Forall_forall. intros e He pre. apply after_all_steps_other.
  rewrite forallb_forall in Hevs. apply negb_true_iff, Hevs.
  by apply list_elem_of_In.
Qed.

Lemma filter_rounds_S (f : Z → bool) k :
  List.filter f (Z.of_nat <$> seq 1 (S k)) =
  List.filter f (Z.of_nat <$> seq 1 k)
    ++ (if f (Z.of_nat (S k)) then [Z.of_nat (S k)] else []).
Proof. by rewrite seq_S, fmap_app, List.filter_app. Qed.

Lemma rounds_trained_last (s : state W) k :
  last (itr W s) = Some (Z.of_nat k) → rounds_trained s = Z.of_nat <$> seq 1 k.
Proof. unfold rounds_trained. intros ->. simpl. by rewrite Nat2Z.id. Qed.

Lemma opt_steps_one i j g :
  opt_steps j [EvOptStep W i g] = if decide (i = j) then 1%nat else O.
Proof. unfold opt_steps. simpl. by repeat case_decide; case_bool_decide. Qed.

Lemma eval_trace_no_clip acc i lo evs :
  eval_trace W acc i lo evs →
  forallb (λ e, negb (is_step e) && negb (is_clip e)) evs = true.
Proof.
  destruct 1 as [|p|p l0 vl vp va wevs _ Hw]; simpl; try done.
  revert Hw. apply forallb_impl. by intros [].
Qed.

Lemma justified_clipped_other ea l evs :
  forallb (λ e, negb (is_step e)) evs = true →
  justified (clipped_step W ea) l → justified (clipped_step W ea) (l ++ evs).
Proof.
  intros Hevs Hl. apply justified_app_any; [done|].
  apply Forall_forall. intros e He pre.
  rewrite forallb_forall in Hevs. apply list_elem_of_In, Hevs in He.
  by destruct e.
Qed.

Lemma last_forward_app l evs :
  last_forward (l ++ evs) =
  match last_forward evs with
  | Some x => Some x
  | None => last_forward l
  end.
Proof.
  induction l as [|e l IH]; simpl.
  - by destruct (last_forward evs).
  - rewrite IH. by destruct (last_forward evs).
Qed.

Lemma last_forward_none evs :
  forallb (λ e, negb (is_forward e)) evs = true → last_forward evs = None.
Proof.
  induction evs as [|e evs IH]; [done|]. simpl.
  intros [He Hevs]%andb_true_iff. rewrite IH by done. by destruct e.
Qed.

Lemma last_forward_quiet l evs :
  forallb (λ e, negb (is_forward e)) evs = true →
  last_forward (l ++ evs) = last_forward l.
Proof. intros H. by rewrite last_forward_app, last_forward_none. Qed.

Lemma justified_source_other n acc l evs :
  forallb (λ e, negb (is_record e)) evs = true →
  justified (train_loss_source n acc) l →
  justified (train_loss_source n acc) (l ++ evs).
Proof.
  intros Hevs Hl. apply justified_app_any; [done|].
  apply Forall_forall. intros e He pre.
  rewrite forallb_forall in Hevs. apply list_elem_of_In, Hevs in He.
  by destruct e.
Qed.

Lemma app_snoc_two l evs (a b : event W) :
  l ++ evs ++ [a; b] = (l ++ evs ++ [a]) ++ [b].
Proof. by rewrite <- !app_assoc. Qed.

Lemma last_not_micro l evs :
  forallb (λ e, negb (is_micro e)) evs = true →
  (∀ e, last l = Some e → is_micro e = false) →
  ∀ e, last (l ++ evs) = Some e → is_micro e = false.
Proof.
  intros Hevs Hl e. rewrite last_app. destruct (last evs) as [e'|] eqn:He'.
  - intros [= <-]. apply last_Some_elem_of, list_elem_of_In in He'.
    rewrite forallb_forall in Hevs. by apply negb_true_iff, Hevs.
  - apply Hl.
Qed.

Lemma justified_mode_app l evs :
  justified mode_discipline l → Forall (mode_discipline []) evs →
  justified mode_discipline (l ++ evs).
Proof.
  intros Hl Hevs. apply justified_app_any; [done|].
  eapply Forall_impl; [exact Hevs|]. intros e He pre. by destruct e.
Qed.

Lemma mode_discipline_wandb evs :
  forallb is_wandb evs = true → Forall (mode_discipline (W:=W) []) evs.
Proof.
  rewrite forallb_forall, Forall_forall. intros H e He.
  apply list_elem_of_In, H in He. by destruct e.
Qed.

Lemma app_snoc_three l (a b c : event W) :
  l ++ [a; b; c] = (l ++ [a; b]) ++ [c].
Proof. by rewrite <- !app_assoc. Qed.

Lemma forallb_app_quiet (f : event W → bool) l evs :
  forallb f l = true → forallb f evs = true → forallb f (l ++ evs) = true.
Proof. intros Hl Hevs. by rewrite forallb_app, Hl, Hevs. Qed.

End logs.

Section monad.

Context (W : world).
Implicit Types (s : state W) (E : exn → state W → Prop).

Lemma wp_bind {A B} (m : M W A) (f : A → M W B) Q E s :
  wp W m (λ a, wp W (f a) Q E) E s → wp W (m ≫= f) Q E s.
Proof.
  unfold wp, mbind, M_bind. destruct (m s) as [s' [e|a]]; auto.
Qed.

Lemma wp_bind_inv {A B} (m : M W A) (f : A → M W B) Q E s :
  wp W (m ≫= f) Q E s → wp W m (λ a, wp W (f a) Q E) E s.
Proof.
  unfold wp, mbind, M_bind. destruct (m s) as [s' [e|a]]; auto.
Qed.

Lemma wp_ret {A} (a : A) (Q : A → state W → Prop) E s :
  Q a s → wp W (mret a) Q E s.
Proof. done. Qed.

Lemma wp_gets {A} (f : state W → A) (Q : A → state W → Prop) E s :
  Q (f s) s → wp W (gets W f) Q E s.
Proof. done. Qed.

Lemma wp_modify (f : state W → state W) (Q : () → state W → Prop) E s :
  Q tt (f s) → wp W (modify W f) Q E s.
Proof. done. Qed.

Lemma wp_emit (ev : event W) (Q : () → state W → Prop) E s :
  Q tt (set_log W (λ l, l ++ [ev]) s) → wp W (emit W ev) Q E s.
Proof. done. Qed.

Lemma wp_raise {A} (e : exn) (Q : A → state W → Prop) E s :
  E e s → wp W (raise W e) Q E s.
Proof. done. Qed.

Lemma wp_returns {A} (m : M W A) (Q : A → state W → Prop) E s s' a :
  wp W m Q E s → m s = (s', inr a) → Q a s'.
Proof. unfold wp. intros H Heq. by rewrite Heq in H. Qed.

Lemma wp_raises {A} (m : M W A) (Q : A → state W → Prop) E s s' e :
  wp W m Q E s → m s = (s', inl e) → E e s'.
Proof. unfold wp. intros H Heq. by rewrite Heq in H. Qed.

Lemma wp_mono {A} (m : M W A) (Q Q' : A → state W → Prop) E E' s :
  (∀ a s', Q a s' → Q' a s') → (∀ e s', E e s' → E' e s') →
  wp W m Q E s → wp W m Q' E' s.
Proof.
  unfold wp. intros HQ HE. destruct (m s) as [s' [e|a]]; auto.
Qed.

Lemma wp_conj {A} (m : M W A) (Q Q' : A → state W → Prop) E E' s :
  wp W m Q E s → wp W m Q' E' s →
  wp W m (λ a s', Q a s' ∧ Q' a s') (λ e s', E e s' ∧ E' e s') s.
Proof.
  unfold wp. destruct (m s) as [s' [e|a]]; auto.
Qed.

Lemma wp_index_some {A} (l : list A) i x (Q : A → state W → Prop) E s :
  l !! i = Some x → Q x s → wp W (index W l i) Q E s.
Proof. intros Hl HQ. unfold wp, index. rewrite Hl. exact HQ. Qed.

Lemma wp_index {A} (l : list A) i (Q : A → state W → Prop) E s :
  (∀ x, l !! i = Some x → Q x s) → (l !! i = None → E IndexError s) →
  wp W (index W l i) Q E s.
Proof.
  intros HQ HE. unfold wp, index. destruct (l !! i); [apply HQ|apply HE]; done.
Qed.

Lemma wp_index_last {A} (l : list A) (Q : A → state W → Prop) E s :
  (∀ x, last l = Some x → Q x s) → (l = [] → E IndexError s) →
  wp W (index_last W l) Q E s.
Proof.
  intros HQ HE. unfold wp, index_last. destruct (last l) eqn:Hl.
  - apply HQ; done.
  - apply HE. by apply last_None.
Qed.

Lemma wp_py_mod a b (Q : Z → state W → Prop) E s :
  (b ≠ 0 → Q (a `mod` b) s) → (b = 0 → E ZeroDivisionError s) →
  wp W (py_mod W a b) Q E s.
Proof.
  intros HQ HE. unfold wp, py_mod. destruct (decide (b = 0)); simpl; auto.
Qed.

Lemma wp_py_floordiv a b (Q : Z → state W → Prop) E s :
  (b ≠ 0 → Q (a `div` b) s) → (b = 0 → E ZeroDivisionError s) →
  wp W (py_floordiv W a b) Q E s.
Proof.
  intros HQ HE. unfold wp, py_floordiv. destruct (decide (b = 0)); simpl; auto.
Qed.

(** The rule of [for]: [I pre] holds when the elements [pre] have been
    processed. *)
Lemma wp_for {X} (I : list X → state W → Prop) (xs : list X)
    (body : X → M W ()) E s :
  (∀ pre x rest s', xs = pre ++ x :: rest → I pre s' →
     wp W (body x) (λ _, I (pre ++ [x])) E s') →
  I [] s → wp W (for_ W xs body) (λ _, I xs) E s.
Proof.
  intros Hbody HI.
  cut (∀ rest pre s', xs = pre ++ rest → I pre s' →
         wp W (for_ W rest body) (λ _, I xs) E s').
  { intros H. by apply (H xs []). }
  clear s HI. induction rest as [|x rest IH]; intros pre s Hxs HI.
  - rewrite app_nil_r in Hxs. subst pre. exact HI.
  - simpl. apply wp_bind.
    eapply wp_mono; [| |by apply (Hbody pre x rest)]; simpl; [|done].
    intros _ s' HI'. apply (IH (pre ++ [x])); [|done]. by rewrite <- app_assoc.
Qed.

(** The rule of [while]: [I k] holds when the body has run [k] times; the
    condition may hold only while the budget is not spent. *)
Lemma wp_while (I : nat → state W → Prop) fuel (cond : M W bool)
    (body : M W ()) (Q : () → state W → Prop) E s :
  (∀ k s', (k ≤ fuel)%nat → I k s' →
     wp W cond
       (λ c s'', if c then (k < fuel)%nat ∧ wp W body (λ _, I (S k)) E s''
                 else Q tt s'') E s') →
  I O s → wp W (while_ W fuel cond body) Q E s.
Proof.
  intros Hstep.
  cut (∀ n k s', (k + n = fuel)%nat → I k s' →
         wp W (while_ W n cond body) Q E s').
  { intros H HI. by apply (H fuel O). }
  clear s. induction n as [|n IH]; intros k s Hk HI.
  - simpl. apply wp_bind.
    eapply wp_mono; [| |apply (Hstep k s); [lia|done]]; simpl; [|done].
    intros [] s'; [|done]. intros [Hlt _]. lia.
  - simpl. apply wp_bind.
    eapply wp_mono; [| |apply (Hstep k s); [lia|done]]; simpl; [|done].
    intros [] s'; [|done]. intros [_ Hb]. apply wp_bind.
    eapply wp_mono; [| |exact Hb]; simpl; [|done].
    intros _ s'' HI'. apply (IH (S k)); [lia|done].
Qed.

End monad.

(** One step through a sequence of primitive operations. *)
Ltac wp_step :=
  lazymatch goal with
  | |- wp _ (mbind _ _) _ _ _ => apply wp_bind
  | |- wp _ (mret _) _ _ _ => apply wp_ret
  | |- wp _ (gets _ _) _ _ _ => apply wp_gets
  | |- wp _ (modify _ _) _ _ _ => apply wp_modify
  | |- wp _ (emit _ _) _ _ _ => apply wp_emit
  | |- wp _ (raise _ _) _ _ _ => apply wp_raise
  end.


Section blocks.

Context (W : world).
Context (iterations acc_steps batch_size sequence_length eval_freq : Z).
Context (extra_args : args_t).
Context (num_clients : nat) (data : data_t) (num_substeps_per_epoch : list Z).

Implicit Types (s : state W) (c : client W) (E : exn → state W → Prop).

Local Abbreviation ctx := (type_ctx extra_args).
Local Abbreviation microstep :=
  (Lora.microstep W acc_steps batch_size sequence_length extra_args data).
Local Abbreviation microsteps :=
  (Lora.microsteps W acc_steps batch_size sequence_length ctx).
Local Abbreviation clip_gradients := (Lora.clip_gradients W extra_args).
Local Abbreviation optimizer_step := (Lora.optimizer_step W).
Local Abbreviation scheduler_step := (Lora.scheduler_step W).
Local Abbreviation local_step :=
  (Lora.local_step W acc_steps batch_size sequence_length extra_args data).
Local Abbreviation train_clients :=
  (Lora.train_clients W acc_steps batch_size sequence_length extra_args
     num_clients data).
Local Abbreviation call_aggregate :=
  (Lora.call_aggregate W batch_size sequence_length extra_args data).
Local Abbreviation maybe_aggregate :=
  (Lora.maybe_aggregate W batch_size sequence_length extra_args data).
Local Abbreviation wandb_log := (Lora.wandb_log W extra_args num_clients).
Local Abbreviation record_stats := (Lora.record_stats W).
Local Abbreviation evaluate :=
  (Lora.evaluate W acc_steps batch_size sequence_length extra_args num_clients
     data num_substeps_per_epoch).
Local Abbreviation after_step :=
  (Lora.after_step W iterations acc_steps batch_size sequence_length eval_freq
     extra_args num_clients data num_substeps_per_epoch).
Local Abbreviation checkpoint_stub := (Lora.checkpoint_stub W iterations eval_freq).
Local Abbreviation round :=
  (Lora.round W iterations acc_steps batch_size sequence_length eval_freq
     extra_args num_clients data num_substeps_per_epoch).
Local Abbreviation loop_cond := (Lora.loop_cond W iterations).
Local Abbreviation setup :=
  (Lora.setup W batch_size sequence_length extra_args).
Local Abbreviation train_lora :=
  (Lora.train_lora W iterations acc_steps batch_size sequence_length eval_freq
     extra_args).

(** One microstep, when the objects it indexes exist. *)
Lemma wp_microstep i k s shard c x (Q : () → state W → Prop) E :
  d_train data !! i = Some shard →
  clients W s !! i = Some c →
  substep W s !! i = Some x →
  (∀ b r', get_batch W (rng W s) shard sequence_length batch_size = (b, r') →
     let out := forward_loss W ctx (training W c) (model W c) b in
     let l := (out / inject_Z acc_steps)%Q in
     let g := gscale (1 / inject_Z acc_steps)
                (loss_grad W ctx (training W c) (model W c) b) in
     Q tt (State W
             (<[i := with_grad W (accumulate (grad W c) g) c]> (clients W s))
             (itr W s) (<[i := x + 1]> (substep W s)) (stats W s) (Some l) r'
             (log W s ++ [EvGetBatch W i b;
                          EvForward W i k (training W c) (model W c) b out;
                          EvBackward W i l]))) →
  wp W (microstep i k) Q E s.
Proof.
  intros Hshard Hc Hx HQ.
  unfold Lora.microstep. run. rewrite Hshard. simpl.
  destruct (get_batch W (rng W s) shard sequence_length batch_size)
    as [b r'] eqn:Hb. simpl.
  run. rewrite Hc. simpl. rewrite Hx. simpl.
  norm_state. rewrite (alter_lookup _ _ _ _ Hc). by apply HQ.
Qed.

(** The loop over microsteps. *)
Lemma wp_microsteps i ks s shard c x (Q : () → state W → Prop) E :
  d_train data !! i = Some shard →
  clients W s !! i = Some c →
  substep W s !! i = Some x →
  (∀ g r l evs,
     microsteps i shard (training W c) (model W c) ks (grad W c) (rng W s)
       (loss W s) = (g, r, l, evs) →
     Q tt (State W (<[i := with_grad W g c]> (clients W s)) (itr W s)
             (<[i := x + Z.of_nat (length ks)]> (substep W s)) (stats W s)
             l r (log W s ++ evs))) →
  wp W (for_ W ks (microstep i)) Q E s.
Proof.
  intros Hshard. revert s c x Q.
  induction ks as [|k ks IH]; intros s c x Q Hc Hx HQ.
  - simpl. specialize (HQ _ _ _ _ eq_refl).
    rewrite app_nil_r, Z.add_0_r in HQ.
    rewrite !list_insert_id in HQ by (done || by destruct c).
    by destruct s.
  - cbn [for_]. apply wp_bind. eapply wp_microstep; [done..|].
    intros b r' Hb out l g.
    eapply IH; simpl.
    { apply list_lookup_insert_eq. by eapply lookup_lt_Some. }
    { apply list_lookup_insert_eq. by eapply lookup_lt_Some. }
    intros g1 r1 l1 evs Hms. simpl in Hms.
    specialize (HQ g1 r1 l1
      (EvGetBatch W i b :: EvForward W i k (training W c) (model W c) b out
         :: EvBackward W i l :: evs)).
    simpl in HQ. rewrite Hb in HQ. fold out in HQ. fold g in HQ. fold l in HQ.
    rewrite Hms in HQ. specialize (HQ eq_refl).
    rewrite !list_insert_insert_eq. rewrite <- app_assoc. simpl.
    replace (x + 1 + Z.of_nat (length ks)) with (x + Z.pos (Pos.of_succ_nat (length ks))) by lia.
    exact HQ.
Qed.

(** The local step of client [i] (lines 61-79).  It fails exactly when the
    client has no scheduler, after the optimizer step. *)
Lemma wp_local_step i s shard c x it (Q : () → state W → Prop) E :
  d_train data !! i = Some shard →
  clients W s !! i = Some c →
  substep W s !! i = Some x →
  itr W s !! i = Some it →
  (∀ g1 r1 l1 evs o' p',
     microsteps i shard (training W c) (model W c) (range acc_steps)
       (grad W c) (rng W s) (loss W s) = (g1, r1, l1, evs) →
     let clip := negb (Qeq_bool (grad_clip extra_args) 0) in
     let g2 := if clip then clip_grad_norm_ W g1 (grad_clip extra_args)
               else g1 in
     let evs' := evs ++ (if clip then [EvClip W i g1 (grad_clip extra_args)]
                         else []) ++ [EvOptStep W i g2] in
     let sub' := <[i := x + Z.of_nat (length (range acc_steps))]> (substep W s) in
     opt_step W (opt W c) (model W c) g2 = (o', p') →
     match scheduler W c with
     | None =>
         E AttributeError
           (State W (<[i := Client W p' (training W c) g2 o' None]> (clients W s))
              (itr W s) sub' (stats W s) l1 r1 (log W s ++ evs'))
     | Some sc =>
         ∀ sc' o'', sched_step W sc o' = (sc', o'') →
           Q tt
             (State W
                (<[i := Client W p' (training W c) g2 o'' (Some sc')]>
                   (clients W s))
                (<[i := it + 1]> (itr W s)) sub' (stats W s) l1 r1
                (log W s ++ evs' ++ [EvSchedStep W i]))
     end) →
  wp W (local_step i) Q E s.
Proof.
  intros Hshard Hc Hx Hit HQ.
  assert (Hi : (i < length (clients W s))%nat) by (by eapply lookup_lt_Some).
  unfold Lora.local_step.
  apply wp_bind. run. rewrite Hit. simpl.
  apply wp_bind. run. rewrite Hc. simpl.
  apply wp_bind. eapply wp_microsteps; [done..|].
  intros g1 r1 l1 evs Hms. specialize (HQ g1 r1 l1 evs).
  unfold Lora.clip_gradients, Lora.optimizer_step, Lora.scheduler_step.
  destruct (Qeq_bool (grad_clip extra_args) 0) eqn:Hclip; simpl in HQ.
  - run. rewrite list_lookup_insert_eq by done. simpl.
    destruct (opt_step W (opt W c) (model W c) g1) as [o' p'] eqn:Hopt. simpl.
    specialize (HQ o' p' Hms eq_refl).
    run. rewrite !list_lookup_alter_eq, !list_lookup_insert_eq by done. simpl.
    destruct (scheduler W c) as [sc|] eqn:Hs.
    + destruct (sched_step W sc o') as [sc' o''] eqn:Hsched. simpl.
      specialize (HQ _ _ eq_refl).
      run. rewrite Hit. simpl.
      norm_state. norm_clients. rewrite ?Hs.
      rewrite <- ?app_assoc in HQ. simpl in HQ. exact HQ.
    + simpl. norm_state. norm_clients. rewrite ?Hs. exact HQ.
  - run. rewrite list_lookup_insert_eq by done. simpl.
    rewrite !list_lookup_alter_eq, !list_lookup_insert_eq by done. simpl.
    destruct (opt_step W (opt W c) (model W c)
                (clip_grad_norm_ W g1 (grad_clip extra_args)))
      as [o' p'] eqn:Hopt. simpl.
    specialize (HQ o' p' Hms eq_refl).
    run. rewrite !list_lookup_alter_eq, !list_lookup_insert_eq by done. simpl.
    destruct (scheduler W c) as [sc|] eqn:Hs.
    + destruct (sched_step W sc o') as [sc' o''] eqn:Hsched. simpl.
      specialize (HQ _ _ eq_refl).
      run. rewrite Hit. simpl.
      norm_state. norm_clients. rewrite ?Hs.
      rewrite <- ?app_assoc in HQ. simpl in HQ. exact HQ.
    + simpl. norm_state. norm_clients. rewrite ?Hs.
      rewrite <- ?app_assoc in HQ. simpl in HQ. exact HQ.
Qed.

(** Lines 108-111. *)
Lemma wp_record_stats i tl vl vp va s a1 a2 a3 a4 (Q : () → state W → Prop) E :
  train_loss (stats W s) !! i = Some a1 →
  val_loss (stats W s) !! i = Some a2 →
  val_pp (stats W s) !! i = Some a3 →
  val_acc (stats W s) !! i = Some a4 →
  Q tt (State W (clients W s) (itr W s) (substep W s)
          (Stats (<[i := a1 ++ [tl]]> (train_loss (stats W s)))
                 (<[i := a2 ++ [vl]]> (val_loss (stats W s)))
                 (<[i := a3 ++ [vp]]> (val_pp (stats W s)))
                 (<[i := a4 ++ [va]]> (val_acc (stats W s))))
          (loss W s) (rng W s) (log W s ++ [EvRecord W i tl vl vp va])) →
  wp W (record_stats i tl vl vp va) Q E s.
Proof.
  intros H1 H2 H3 H4 HQ. unfold Lora.record_stats, append_at. run.
  rewrite H1. simpl. rewrite H2. simpl. rewrite H3. simpl. rewrite H4. simpl.
  norm_state. exact HQ.
Qed.

Lemma wp_last_entries col js s (Q : list Q → state W → Prop) E :
  (∀ xs, Q xs s) →
  (¬ (∀ j, j ∈ js → has_last col j) → E IndexError s) →
  wp W (last_entries W col js) Q E s.
Proof.
  revert Q. induction js as [|j js IH]; intros Q HQ HE; simpl.
  - apply HQ.
  - apply wp_bind. apply wp_index.
    + intros xs Hxs. apply wp_bind. apply wp_index_last.
      * intros x Hx. apply wp_bind. apply IH.
        { intros rest. apply HQ. }
        intros Hn. apply HE. intros Hall. apply Hn. intros j' Hj'.
        apply Hall. by apply list_elem_of_further.
      * intros ->. apply HE. intros Hall.
        destruct (Hall j) as (xs' & x & Hl & Hlast); [apply list_elem_of_here|].
        rewrite Hxs in Hl. by simplify_eq.
    + intros Hnone. apply HE. intros Hall.
      destruct (Hall j) as (xs' & x & Hl & Hlast); [apply list_elem_of_here|].
      congruence.
Qed.

(** Lines 113-128: the telemetry only adds events; it fails when some
    client has no entry yet. *)
Lemma wp_wandb_log i it tl vl vp va cur_lr s (Q : () → state W → Prop) E :
  (∀ evs, forallb (is_wandb) evs = true →
     Q tt (State W (clients W s) (itr W s) (substep W s) (stats W s)
             (loss W s) (rng W s) (log W s ++ evs))) →
  (use_wandb extra_args = true → i = (num_clients - 1)%nat →
   ¬ (∀ j, (j < num_clients)%nat → recorded (stats W s) j) → E IndexError s) →
  wp W (wandb_log i it tl vl vp va cur_lr) Q E s.
Proof.
  intros HQ HE. unfold Lora.wandb_log.
  assert (Hs : ∀ s' : state W,
    State W (clients W s') (itr W s') (substep W s') (stats W s') (loss W s')
      (rng W s') (log W s') = s') by (by intros []).
  destruct (use_wandb extra_args).
  2:{ specialize (HQ [] eq_refl). rewrite app_nil_r, Hs in HQ. exact HQ. }
  specialize (HE eq_refl).
  apply wp_bind. destruct (decide (i = (num_clients - 1)%nat)) as [->|Hne].
  - specialize (HE eq_refl). apply wp_bind. run.
    assert (Hfail : ∀ col, (∀ j, (j < num_clients)%nat → recorded (stats W s) j → has_last col j) →
      ¬ (∀ j, j ∈ seq 0 num_clients → has_last col j) → E IndexError s).
    { intros col Hcol Hn. apply HE. intros Hall. apply Hn. intros j Hj.
      apply elem_of_seq in Hj. apply Hcol; [lia|]. apply Hall. lia. }
    apply wp_bind. apply wp_last_entries; [|apply Hfail; by intros j _ (?&?&?&?)].
    intros tls. apply wp_bind.
    apply wp_last_entries; [|apply Hfail; by intros j _ (?&?&?&?)].
    intros vls. apply wp_bind.
    apply wp_last_entries; [|apply Hfail; by intros j _ (?&?&?&?)].
    intros vps. apply wp_bind.
    apply wp_last_entries; [|apply Hfail; by intros j _ (?&?&?&?)].
    intros vas. run. norm_state. by apply HQ.
  - run. norm_state. by apply HQ.
Qed.

(** Lines 94-130: the evaluation of client [i], branch by branch. *)
Lemma wp_evaluate i it s c sub pe shard a1 a2 a3 a4
    (Q : () → state W → Prop) E :
  clients W s !! i = Some c →
  substep W s !! i = Some sub →
  num_substeps_per_epoch !! i = Some pe →
  d_val data !! i = Some shard →
  train_loss (stats W s) !! i = Some a1 →
  val_loss (stats W s) !! i = Some a2 →
  val_pp (stats W s) !! i = Some a3 →
  val_acc (stats W s) !! i = Some a4 →
  (pe = 0 → E ZeroDivisionError s) →
  (pe ≠ 0 →
   let in_eval := <[i := with_training W false c]> (clients W s) in
   match loss W s with
   | None =>
       E UnboundLocalError
         (State W in_eval (itr W s) (substep W s) (stats W s) None (rng W s)
            (log W s))
   | Some l =>
       ∀ res r',
         eval W false (model W c) shard sequence_length batch_size 12 ctx
           (rng W s) = (res, r') →
         let log1 := log W s ++ [EvEval W i false (model W c)] in
         match res with
         | None =>
             E EvaluatorError
               (State W in_eval (itr W s) (substep W s) (stats W s) (Some l)
                  r' log1)
         | Some (va, vl, vp) =>
             let tl := (l * inject_Z acc_steps)%Q in
             let st' :=
               Stats (<[i := a1 ++ [tl]]> (train_loss (stats W s)))
                     (<[i := a2 ++ [vl]]> (val_loss (stats W s)))
                     (<[i := a3 ++ [vp]]> (val_pp (stats W s)))
                     (<[i := a4 ++ [va]]> (val_acc (stats W s))) in
             let log2 := log1 ++ [EvRecord W i tl vl vp va] in
             (use_wandb extra_args = true → i = (num_clients - 1)%nat →
              ¬ (∀ j, (j < num_clients)%nat → recorded st' j) →
              E IndexError
                (State W in_eval (itr W s) (substep W s) st' (Some l) r' log2)) ∧
             (∀ evs, forallb (is_wandb) evs = true →
                Q tt
                  (State W (<[i := with_training W true c]> (clients W s))
                     (itr W s) (substep W s) st' (Some l) r' (log2 ++ evs)))
         end
   end) →
  wp W (evaluate i it) Q E s.
Proof.
  intros Hc Hsub Hpe Hshard H1 H2 H3 H4 Hzero HQ.
  assert (Hi : (i < length (clients W s))%nat) by (by eapply lookup_lt_Some).
  unfold Lora.evaluate.
  apply wp_bind. run. rewrite Hsub. simpl.
  apply wp_bind. apply (wp_index_some _ _ _ _ _ _ _ Hpe).
  apply wp_bind. apply wp_py_floordiv; [|exact Hzero].
  intros Hne. specialize (HQ Hne). simpl in HQ.
  run. norm_state. rewrite (alter_lookup _ _ _ _ Hc).
  destruct (loss W s) as [l|] eqn:Hl; [|exact HQ].
  run. rewrite list_lookup_insert_eq by done. simpl.
  rewrite Hshard. simpl.
  destruct (eval W false (model W c) shard sequence_length batch_size 12 ctx
              (rng W s)) as [res r'] eqn:Heval.
  specialize (HQ res r' eq_refl). simpl.
  destruct res as [[[va vl] vp]|]; [|norm_state; exact HQ].
  destruct HQ as [HE HQ].
  change (wp W
    (_ ← record_stats i (l * inject_Z acc_steps)%Q vl vp va;
     _ ← wandb_log i it (l * inject_Z acc_steps)%Q vl vp va
           (match scheduler W c with
            | Some sc => get_last_lr W sc
            | None => lr extra_args
            end);
     update_client W i (with_training W true)) Q E
    (set_log W (λ l0, l0 ++ [EvEval W i false (model W c)])
       (set_rng W r'
          (State W (<[i:=with_training W false c]> (clients W s)) (itr W s)
             (substep W s) (stats W s) (Some l) (rng W s) (log W s))))).
  apply wp_bind. eapply wp_record_stats; [done..|].
  apply wp_bind. norm_state. apply wp_wandb_log; simpl.
  - intros evs Hevs. run. norm_state. norm_clients.
    specialize (HQ evs Hevs). rewrite <- ?app_assoc in HQ. exact HQ.
  - intros Hw Hi' Hn. rewrite <- ?app_assoc in HE. by apply HE.
Qed.

(** Lines 89-130: the body of the second loop over clients. *)
Lemma wp_after_step i s c it (Q : () → state W → Prop) E :
  clients W s !! i = Some c →
  itr W s !! i = Some it →
  let s1 :=
    State W (<[i := with_grad W None c]> (clients W s)) (itr W s)
      (substep W s) (stats W s) (loss W s) (rng W s)
      (log W s ++ [EvZeroGrad W i]) in
  (eval_freq = 0 → E ZeroDivisionError s1) →
  (eval_freq ≠ 0 →
   if ((it `mod` eval_freq =? 0) || (it =? iterations))
      && is_master_process W
   then wp W (evaluate i it) Q E s1 else Q tt s1) →
  wp W (after_step i) Q E s.
Proof.
  intros Hc Hit s1 Hzero HQ. unfold Lora.after_step.
  apply wp_bind. run. rewrite Hc. simpl. rewrite Hit. simpl.
  norm_state. rewrite (alter_lookup _ _ _ _ Hc). fold s1.
  apply wp_bind. apply wp_py_mod; [|exact Hzero].
  intros Hne. specialize (HQ Hne).
  destruct ((it `mod` eval_freq =? 0) || (it =? iterations)); simpl in *;
    [|exact HQ].
  destruct (is_master_process W); exact HQ.
Qed.

(** Line 83. *)
Lemma wp_call_aggregate r s (Q : () → state W → Prop) E :
  (∀ ps r',
     aggregate W (trust extra_args) (model W <$> clients W s) data
       sequence_length batch_size ctx (rng W s) = (ps, r') →
     Q tt (State W (aggregated W ps (clients W s)) (itr W s) (substep W s)
             (stats W s) (loss W s) r' (log W s ++ [EvAggregate W r]))) →
  wp W (call_aggregate r) Q E s.
Proof.
  intros HQ. unfold Lora.call_aggregate. run.
  destruct (aggregate W (trust extra_args) (model W <$> clients W s) data
              sequence_length batch_size ctx (rng W s)) as [ps r'] eqn:Hagg.
  simpl. norm_state. by apply HQ.
Qed.

(** Lines 82-83. *)
Lemma wp_maybe_aggregate s (Q : () → state W → Prop) E :
  (itr W s = [] → E IndexError s) →
  (trust_freq extra_args = 0 → E ZeroDivisionError s) →
  (∀ r, last (itr W s) = Some r → trust_freq extra_args ≠ 0 →
     if (r `mod` trust_freq extra_args =? 0)
        && (pretraining_rounds extra_args - 1 <=? r)
     then wp W (call_aggregate r) Q E s else Q tt s) →
  wp W maybe_aggregate Q E s.
Proof.
  intros Hnil Hzero HQ. unfold Lora.maybe_aggregate.
  apply wp_bind. run. apply wp_bind. apply wp_index_last; [|exact Hnil].
  intros r Hr. apply wp_bind. apply wp_py_mod; [|exact Hzero].
  intros Hne. specialize (HQ r Hr Hne).
  destruct ((r `mod` trust_freq extra_args =? 0)
            && (pretraining_rounds extra_args - 1 <=? r)); exact HQ.
Qed.

Lemma for_skip {X} (xs : list X) s : for_ W xs (λ _, mret tt) s = (s, inr tt).
Proof. induction xs as [|x xs IH]; [done|]. simpl. run. exact IH. Qed.

(** Lines 131-134: no effect, unless the guard raises. *)
Lemma wp_checkpoint_stub s (Q : () → state W → Prop) E :
  (itr W s = [] → E IndexError s) →
  (eval_freq = 0 → E ZeroDivisionError s) →
  Q tt s →
  wp W checkpoint_stub Q E s.
Proof.
  intros Hnil Hzero HQ. unfold Lora.checkpoint_stub.
  apply wp_bind. run. apply wp_bind. apply wp_index_last; [|exact Hnil].
  intros r Hr. apply wp_bind. apply wp_py_mod; [|exact Hzero].
  intros Hne.
  destruct ((r `mod` eval_freq =? 0) || (r =? iterations)); [|exact HQ].
  unfold wp, mbind, M_bind, gets. simpl. rewrite for_skip. exact HQ.
Qed.

(** Line 59. *)
Lemma wp_loop_cond s (Q : bool → state W → Prop) E :
  (itr W s = [] → E IndexError s) →
  (∀ r, last (itr W s) = Some r → Q (r <? iterations) s) →
  wp W loop_cond Q E s.
Proof.
  intros Hnil HQ. unfold Lora.loop_cond.
  apply wp_bind. run. apply wp_bind. apply wp_index_last; [|exact Hnil].
  intros r Hr. by apply HQ.
Qed.

(** Lines 46-48: one division per client, all by the same divisor. *)
Lemma wp_substeps_per_epoch train s (Q : list Z → state W → Prop) E :
  (train ≠ [] → batch_size * sequence_length = 0 → E ZeroDivisionError s) →
  (train = [] ∨ batch_size * sequence_length ≠ 0 →
   Q ((λ t, Z.of_nat (length t) `div` (batch_size * sequence_length)) <$> train)
     s) →
  wp W (substeps_per_epoch W batch_size sequence_length train) Q E s.
Proof.
  revert Q. induction train as [|t train IH]; intros Q HE HQ; simpl.
  - apply HQ. by left.
  - apply wp_bind. apply wp_py_floordiv; [|by apply HE].
    intros Hne. apply wp_bind. apply IH; [done|].
    intros _. run. apply HQ. by right.
Qed.

Lemma for_emit {X} (f : X → event W) (xs : list X) s :
  for_ W xs (λ x, emit W (f x)) s = (set_log W (λ l, l ++ (f <$> xs)) s, inr tt).
Proof.
  revert s. induction xs as [|x xs IH]; intros s; simpl.
  - run. norm_state. rewrite app_nil_r. by destruct s.
  - run. rewrite IH. norm_state. done.
Qed.

Lemma for_update_client (f : client W → client W) (js : list nat) s :
  for_ W js (λ i, update_client W i f) s =
  (set_clients W (λ cs, foldl (λ cs i, alter f i cs) cs js) s, inr tt).
Proof.
  revert s. induction js as [|j js IH]; intros s; simpl.
  - run. norm_state. by destruct s.
  - run. rewrite IH. norm_state. done.
Qed.

Lemma foldl_alter_lookup {A} (f : A → A) (js : list nat) (l : list A) j :
  NoDup js →
  foldl (λ l i, alter f i l) l js !! j =
  if decide (j ∈ js) then f <$> l !! j else l !! j.
Proof.
  intros Hnd. revert l. induction Hnd as [|i js Hi Hnd IH]; intros l; simpl.
  - destruct (decide (j ∈ [])) as [Hin|]; [|done]. by apply elem_of_nil in Hin.
  - rewrite IH. destruct (decide (j = i)) as [->|Hne].
    + destruct (decide (i ∈ js)); [done|].
      destruct (decide (i ∈ i :: js)) as [|Hn]; [|by destruct Hn; left].
      apply list_lookup_alter_eq.
    + rewrite list_lookup_alter_ne by done.
      destruct (decide (j ∈ js)) as [Hin|Hin];
        destruct (decide (j ∈ i :: js)) as [Hin'|Hin']; try done.
      * destruct Hin'. by right.
      * apply elem_of_cons in Hin' as [?|?]; done.
Qed.

Lemma foldl_alter_all {A} (f : A → A) (l : list A) :
  foldl (λ l i, alter f i l) l (seq 0 (length l)) = f <$> l.
Proof.
  apply list_eq. intros j. rewrite foldl_alter_lookup by apply NoDup_seq.
  rewrite list_lookup_fmap. case_decide as Hj; [done|].
  rewrite elem_of_seq in Hj. rewrite lookup_ge_None_2 by lia. done.
Qed.

(** Lines 28-56.  The only failure is the division of line 48. *)
Lemma wp_setup s (Q : nat * data_t * list Z → state W → Prop) E :
  let n := length (clients W s) in
  let init cs evs :=
    State W cs (replicate n 0) (replicate n 0) (empty_stats n) (loss W s)
      (rng W s) (log W s ++ evs) in
  (n ≠ O → batch_size * sequence_length = 0 →
   E ZeroDivisionError (init (clients W s) [])) →
  (n = O ∨ batch_size * sequence_length ≠ 0 →
   Q (n, loaded_data W n,
      (λ t, Z.of_nat (length t) `div` (batch_size * sequence_length))
        <$> d_train (loaded_data W n))
     (init (with_training W true <$> clients W s)
        (compile_events W (no_compile extra_args) n))) →
  wp W setup Q E s.
Proof.
  intros n init HE HQ. subst init. simpl in HE, HQ. unfold Lora.setup.
  do 8 wp_step. norm_state. fold n. cbv zeta.
  wp_step. apply wp_substeps_per_epoch.
  - intros Hne. rewrite app_nil_r in HE. apply HE. intros Hn. apply Hne.
    by rewrite Hn.
  - intros Hok.
    assert (Hok' : n = O ∨ batch_size * sequence_length ≠ 0).
    { destruct Hok as [Hnil|]; [left|by right].
      apply fmap_nil_inv in Hnil. by destruct n. }
    specialize (HQ Hok'). clear Hok Hok' HE.
    unfold compile_events in HQ. wp_step.
    assert (Hf : foldl (λ cs i, alter (with_training W true) i cs)
                   (clients W s) (seq 0 n)
                 = with_training W true <$> clients W s)
      by apply foldl_alter_all.
    destruct (no_compile extra_args).
    + do 2 wp_step. unfold wp at 1. rewrite for_update_client. wp_step.
      norm_state. rewrite Hf. rewrite app_nil_r in HQ. exact HQ.
    + unfold wp at 1. rewrite for_emit. wp_step. unfold wp at 1.
      rewrite for_update_client. wp_step. norm_state.
      rewrite Hf. exact HQ.
Qed.

(** *** The counters and the shape of the state along a round *)

Lemma counters_0 n k : counters n k 0 = replicate n (Z.of_nat k).
Proof. unfold counters. simpl. by rewrite Nat.sub_0_r. Qed.

Lemma counters_full n k : counters n k n = counters n (S k) 0.
Proof.
  rewrite counters_0. unfold counters.
  rewrite Nat.sub_diag, app_nil_r. f_equal. lia.
Qed.

Lemma counters_length n k i : (i ≤ n)%nat → length (counters n k i) = n.
Proof. intros. unfold counters. rewrite length_app, !length_replicate. lia. Qed.

Lemma counters_lookup n k i :
  (i < n)%nat → counters n k i !! i = Some (Z.of_nat k).
Proof.
  intros. unfold counters. rewrite lookup_app_r by (rewrite length_replicate; lia).
  rewrite length_replicate, Nat.sub_diag. apply lookup_replicate_2. lia.
Qed.

Lemma counters_step n k i :
  (i < n)%nat → <[i := Z.of_nat k + 1]> (counters n k i) = counters n k (S i).
Proof.
  intros. unfold counters.
  rewrite insert_app_r_alt by (rewrite length_replicate; lia).
  rewrite length_replicate, Nat.sub_diag.
  replace (n - i)%nat with (S (n - S i)) by lia.
  rewrite (replicate_S_end i), <- app_assoc. done.
Qed.

Lemma counters_last n k i :
  (i < n)%nat → last (counters n k i) = Some (Z.of_nat k).
Proof.
  intros. unfold counters.
  replace (n - i)%nat with (S (n - S i)) by lia.
  rewrite (replicate_S_end (n - S i)), app_assoc. apply last_snoc.
Qed.

Lemma counters_0_lookup n k j :
  (j < n)%nat → counters n k 0 !! j = Some (Z.of_nat k).
Proof. intros. rewrite counters_0. by apply lookup_replicate_2. Qed.

Lemma seq_prefix n pre x rest :
  seq 0 n = pre ++ x :: rest → pre = seq 0 x ∧ (x < n)%nat.
Proof.
  intros Hs.
  assert (Hlen : length (seq 0 n) = length (pre ++ x :: rest)) by by rewrite Hs.
  rewrite length_seq, length_app in Hlen. simpl in Hlen.
  assert (Hx : seq 0 n !! length pre = Some x).
  { rewrite Hs. by rewrite list_lookup_middle. }
  apply lookup_seq in Hx as [Hx _]. simpl in Hx. subst x. split; [|lia].
  assert (Ht : take (length pre) (seq 0 n) = pre).
  { rewrite Hs. by rewrite take_app_length. }
  etrans; [symmetry; exact Ht|]. rewrite take_seq. f_equal. lia.
Qed.

(** The rule of [for i in range(n)]. *)
Lemma wp_for_range (I : nat → state W → Prop) n (body : nat → M W ()) E s :
  (∀ i s', (i < n)%nat → I i s' → wp W (body i) (λ _, I (S i)) E s') →
  I O s → wp W (for_ W (seq 0 n) body) (λ _, I n) E s.
Proof.
  intros Hbody HI.
  eapply wp_mono;
    [| |apply (wp_for W (λ pre, I (length pre)) (seq 0 n) body E s)].
  - intros [] s'. simpl. by rewrite length_seq.
  - done.
  - intros pre x rest s' Hs HI'. apply seq_prefix in Hs as [-> Hx].
    rewrite length_app, length_seq in *. simpl.
    replace (x + 1)%nat with (S x) by lia. by apply Hbody.
  - exact HI.
Qed.

(** The structure of a round. *)
Lemma wp_round (T V : nat → state W → Prop) (Q : () → state W → Prop) E s :
  T O s →
  (∀ i s', (i < num_clients)%nat → T i s' →
     wp W (local_step i) (λ _, T (S i)) E s') →
  (∀ s', T num_clients s' → wp W maybe_aggregate (λ _, V O) E s') →
  (∀ i s', (i < num_clients)%nat → V i s' →
     wp W (after_step i) (λ _, V (S i)) E s') →
  (∀ s', V num_clients s' → wp W checkpoint_stub Q E s') →
  wp W round Q E s.
Proof.
  intros HT Hlocal Hagg Hafter Hstub. unfold Lora.round.
  wp_step. unfold Lora.train_clients.
  eapply wp_mono; [| |by apply (wp_for_range T)]; simpl; [|done].
  intros _ s1 HT1. wp_step.
  eapply wp_mono; [| |by apply Hagg]; simpl; [|done].
  intros _ s2 HV. wp_step.
  eapply wp_mono; [| |by apply (wp_for_range V)]; simpl; [|done].
  intros _ s3 HV3. by apply Hstub.
Qed.

Lemma shaped_lookups n s i :
  shaped W n s → (i < n)%nat →
  ∃ c x it a1 a2 a3 a4,
    clients W s !! i = Some c ∧ substep W s !! i = Some x ∧
    itr W s !! i = Some it ∧
    train_loss (stats W s) !! i = Some a1 ∧ val_loss (stats W s) !! i = Some a2 ∧
    val_pp (stats W s) !! i = Some a3 ∧ val_acc (stats W s) !! i = Some a4.
Proof.
  intros (H1 & H2 & H3 & H4 & H5 & H6 & H7) Hi.
  destruct (lookup_lt_is_Some_2 (clients W s) i) as [c Hc]; [lia|].
  destruct (lookup_lt_is_Some_2 (substep W s) i) as [x Hx]; [lia|].
  destruct (lookup_lt_is_Some_2 (itr W s) i) as [it Hit]; [lia|].
  destruct (lookup_lt_is_Some_2 (train_loss (stats W s)) i) as [a1 Ha1]; [lia|].
  destruct (lookup_lt_is_Some_2 (val_loss (stats W s)) i) as [a2 Ha2]; [lia|].
  destruct (lookup_lt_is_Some_2 (val_pp (stats W s)) i) as [a3 Ha3]; [lia|].
  destruct (lookup_lt_is_Some_2 (val_acc (stats W s)) i) as [a4 Ha4]; [lia|].
  by exists c, x, it, a1, a2, a3, a4.
Qed.

Lemma env_lookups n i :
  env_ok n data num_substeps_per_epoch → (i < n)%nat →
  ∃ tr va pe,
    d_train data !! i = Some tr ∧ d_val data !! i = Some va ∧
    num_substeps_per_epoch !! i = Some pe.
Proof.
  intros (H1 & H2 & H3) Hi.
  destruct (lookup_lt_is_Some_2 (d_train data) i) as [tr Htr]; [lia|].
  destruct (lookup_lt_is_Some_2 (d_val data) i) as [va Hva]; [lia|].
  destruct (lookup_lt_is_Some_2 num_substeps_per_epoch i) as [pe Hpe]; [lia|].
  by exists tr, va, pe.
Qed.

Lemma length_aggregated ps (cs : list (client W)) :
  length (aggregated W ps cs) = length cs.
Proof. unfold aggregated. apply length_imap. Qed.

(** The shape is kept by every block; closes goals on explicit states. *)
Ltac shape :=
  unfold shaped in *; simpl in *;
  rewrite ?length_insert, ?length_aggregated, ?length_fmap, ?length_replicate;
  intuition (try done; try lia).

Lemma frame_local_step n k i s :
  env_ok n data num_substeps_per_epoch → (i < n)%nat →
  lockstep W n k i s →
  wp W (local_step i) (λ _, lockstep W n k (S i)) (λ _ _, True) s.
Proof.
  intros Henv Hi [Hsh Hitr].
  destruct (shaped_lookups n s i Hsh Hi) as (c & x & it & _ & _ & _ & _ & Hc & Hx & Hit & _).
  destruct (env_lookups n i Henv Hi) as (tr & _ & _ & Htr & _).
  assert (it = Z.of_nat k) as ->.
  { rewrite Hitr, counters_lookup in Hit by done. by simplify_eq. }
  eapply wp_local_step; [done..|].
  intros g1 r1 l1 evs o' p' _. simpl. intros _.
  destruct (scheduler W c); [|done].
  intros sc' o'' _. split; [shape|]. simpl.
  rewrite Hitr. by apply counters_step.
Qed.

Lemma frame_maybe_aggregate n s :
  shaped W n s →
  wp W maybe_aggregate (λ _ s', shaped W n s' ∧ itr W s' = itr W s)
    (λ _ _, True) s.
Proof.
  intros Hsh. apply wp_maybe_aggregate; [done..|].
  intros r _ _. destruct (_ && _); [|done].
  apply wp_call_aggregate. intros ps r' _. split; [shape|done].
Qed.

Lemma frame_after_step n i s :
  env_ok n data num_substeps_per_epoch → (i < n)%nat → shaped W n s →
  wp W (after_step i) (λ _ s', shaped W n s' ∧ itr W s' = itr W s)
    (λ _ _, True) s.
Proof.
  intros Henv Hi Hsh.
  destruct (shaped_lookups n s i Hsh Hi)
    as (c & x & it & a1 & a2 & a3 & a4 & Hc & Hx & Hit & H1 & H2 & H3 & H4).
  destruct (env_lookups n i Henv Hi) as (_ & va & pe & _ & Hva & Hpe).
  eapply wp_after_step; [done..|].
  intros _. destruct (_ && _); [|split; [shape|done]].
  eapply wp_evaluate; simpl; [|done..|].
  { apply list_lookup_insert_eq. by eapply lookup_lt_Some. }
  intros _. destruct (loss W s); [|done].
  intros res r' _. destruct res as [[[? ?] ?]|]; [|done].
  split; [done|]. intros evs _. rewrite list_insert_insert_eq.
  split; [shape|done].
Qed.

(** A round, with the counters and the shape of the state taken care of:
    [JT i] is what else holds before client [i] trains, [JV i] before the
    second loop reaches client [i]. *)
Lemma wp_round_lockstep k (JT JV : nat → state W → Prop)
    (Q : () → state W → Prop) E s :
  env_ok num_clients data num_substeps_per_epoch → (0 < num_clients)%nat →
  lockstep W num_clients k 0 s → JT O s →
  (∀ i s', (i < num_clients)%nat → lockstep W num_clients k i s' → JT i s' →
     wp W (local_step i) (λ _, JT (S i)) E s') →
  (∀ s', lockstep W num_clients (S k) 0 s' → JT num_clients s' →
     wp W maybe_aggregate (λ _, JV O) E s') →
  (∀ i s', (i < num_clients)%nat → lockstep W num_clients (S k) 0 s' →
     JV i s' → wp W (after_step i) (λ _, JV (S i)) E s') →
  (∀ s', lockstep W num_clients (S k) 0 s' → JV num_clients s' →
     (eval_freq = 0 → E ZeroDivisionError s') ∧ Q tt s') →
  wp W round Q E s.
Proof.
  intros Henv Hn Hls HJ Hlocal Hagg Hafter Hstub.
  apply (wp_round (λ i s', lockstep W num_clients k i s' ∧ JT i s')
                  (λ i s', lockstep W num_clients (S k) 0 s' ∧ JV i s')).
  - done.
  - intros i s' Hi [Hls' HJ'].
    eapply wp_mono;
      [| |apply wp_conj; [by apply frame_local_step|by apply Hlocal]];
      simpl; [done|by intros e s'' [_ ?]].
  - intros s' [[Hsh Hitr] HJ']. rewrite counters_full in Hitr.
    eapply wp_mono;
      [| |apply wp_conj; [by apply (frame_maybe_aggregate num_clients)
                         |by apply Hagg]];
      simpl; [|by intros e s'' [_ ?]].
    intros _ s'' [[Hsh' Hitr'] HJ'']. split; [|done]. split; [done|congruence].
  - intros i s' Hi [[Hsh Hitr] HJ'].
    eapply wp_mono;
      [| |apply wp_conj; [by apply (frame_after_step num_clients)
                         |by apply Hafter]];
      simpl; [|by intros e s'' [_ ?]].
    intros _ s'' [[Hsh' Hitr'] HJ'']. split; [|done]. split; [done|congruence].
  - intros s' [[Hsh Hitr] HJ'].
    destruct (Hstub s') as [HE HQ]; [done..|].
    apply wp_checkpoint_stub; [|done..].
    intros Hnil. rewrite Hnil in Hitr.
    assert (Hlen : length (counters num_clients (S k) 0) = O) by by rewrite <- Hitr.
    rewrite counters_length in Hlen by lia. lia.
Qed.

(** *** Facts about the pure description of the microsteps *)

Lemma range_nonempty n : 1 ≤ n → range n ≠ [].
Proof.
  intros Hn. unfold range. destruct (Z.to_nat n) eqn:Hz; [lia|]. done.
Qed.

Lemma microsteps_loss i shard mode p ks g r l g' r' l' evs :
  microsteps i shard mode p ks g r l = (g', r', l', evs) →
  ks ≠ [] → is_Some l'.
Proof.
  revert g r l g' r' l' evs.
  induction ks as [|k ks IH]; intros g r l g' r' l' evs Hms Hne; [done|].
  simpl in Hms. destruct (get_batch W r shard sequence_length batch_size) as [b r1].
  destruct (Lora.microsteps W acc_steps batch_size sequence_length ctx i shard
              mode p ks _ r1 _) as [[[g2 r2] l2] evs2] eqn:Hrec.
  simplify_eq. destruct ks as [|k' ks'].
  - simpl in Hrec. by simplify_eq.
  - by eapply IH.
Qed.

Lemma microsteps_events i shard mode p ks g r l g' r' l' evs :
  microsteps i shard mode p ks g r l = (g', r', l', evs) →
  forallb (is_micro) evs = true.
Proof.
  revert g r l g' r' l' evs.
  induction ks as [|k ks IH]; intros g r l g' r' l' evs Hms.
  - simpl in Hms. by simplify_eq.
  - simpl in Hms.
    destruct (get_batch W r shard sequence_length batch_size) as [b r1].
    destruct (Lora.microsteps W acc_steps batch_size sequence_length ctx i shard
                mode p ks _ r1 _) as [[[g2 r2] l2] evs2] eqn:Hrec.
    simplify_eq. simpl. by eapply IH.
Qed.

Lemma Forall_aggregated (P : client W → Prop) ps (cs : list (client W)) :
  (∀ c p, P c → P (with_model W p c)) →
  Forall P cs → Forall P (aggregated W ps cs).
Proof.
  intros HP Hcs. unfold aggregated. apply Forall_lookup. intros j c Hc.
  rewrite list_lookup_imap in Hc.
  destruct (cs !! j) as [c0|] eqn:Hc0; simpl in Hc; [|done].
  injection Hc as <-. apply HP. by eapply Forall_lookup_1.
Qed.

Lemma has_last_insert_eq (col : list (list Q)) i xs x :
  col !! i = Some xs → has_last (<[i := xs ++ [x]]> col) i.
Proof.
  intros Hi. exists (xs ++ [x]), x. split; [|apply last_snoc].
  apply list_lookup_insert_eq. by eapply lookup_lt_Some.
Qed.

Lemma has_last_insert_ne (col : list (list Q)) i j xs :
  j ≠ i → has_last col j → has_last (<[i := xs]> col) j.
Proof.
  intros Hne (ys & y & Hj & Hy). exists ys, y.
  by rewrite list_lookup_insert_ne.
Qed.

Lemma recorded_insert_eq (st : stats_t) i a1 a2 a3 a4 tl vl vp va :
  train_loss st !! i = Some a1 → val_loss st !! i = Some a2 →
  val_pp st !! i = Some a3 → val_acc st !! i = Some a4 →
  recorded (Stats (<[i := a1 ++ [tl]]> (train_loss st))
                    (<[i := a2 ++ [vl]]> (val_loss st))
                    (<[i := a3 ++ [vp]]> (val_pp st))
                    (<[i := a4 ++ [va]]> (val_acc st))) i.
Proof. intros. repeat split; simpl; by apply has_last_insert_eq. Qed.

Lemma recorded_insert_ne (st : stats_t) i j b1 b2 b3 b4 :
  j ≠ i → recorded st j →
  recorded (Stats (<[i := b1]> (train_loss st)) (<[i := b2]> (val_loss st))
                    (<[i := b3]> (val_pp st)) (<[i := b4]> (val_acc st))) j.
Proof.
  intros Hne (H1 & H2 & H3 & H4).
  repeat split; simpl; by apply has_last_insert_ne.
Qed.

(** The second loop at client [i], whatever the exit: the counters and
    [loss] are kept, the gradient of the client is dropped, and the log grows
    by [EvZeroGrad i] and an [eval_trace]. *)
Lemma after_step_effect n i s :
  env_ok n data num_substeps_per_epoch → (i < n)%nat → shaped W n s →
  let R s' :=
    itr W s' = itr W s ∧ loss W s' = loss W s ∧
    (∃ c c', clients W s !! i = Some c ∧
       clients W s' = <[i := c']> (clients W s) ∧ grad W c' = None ∧
       model W c' = model W c ∧ opt W c' = opt W c ∧
       scheduler W c' = scheduler W c) ∧
    (∃ evs, log W s' = log W s ++ EvZeroGrad W i :: evs ∧
            eval_trace W acc_steps i (loss W s) evs) in
  wp W (after_step i) (λ _, R) (λ _, R) s.
Proof.
  intros Henv Hi Hsh R.
  destruct (shaped_lookups n s i Hsh Hi)
    as (c & x & it & a1 & a2 & a3 & a4 & Hc & Hx & Hit & H1 & H2 & H3 & H4).
  destruct (env_lookups n i Henv Hi) as (_ & va & pe & _ & Hva & Hpe).
  assert (Hi' : (i < length (clients W s))%nat) by by eapply lookup_lt_Some.
  assert (Hnone : R (State W (<[i := with_grad W None c]> (clients W s))
                       (itr W s) (substep W s) (stats W s) (loss W s)
                       (rng W s) (log W s ++ [EvZeroGrad W i]))).
  { repeat split; simpl.
    - exists c, (with_grad W None c). by destruct c.
    - exists []. split; [done|constructor]. }
  eapply wp_after_step; [done..| |]; [done|].
  intros _. destruct (_ && _); [|done].
  eapply wp_evaluate; simpl; [by apply list_lookup_insert_eq|done..| |];
    [done|].
  intros _. destruct (loss W s) as [l|] eqn:Hl.
  2:{ repeat split; simpl; try done.
      - exists c, (with_training W false (with_grad W None c)).
        rewrite list_insert_insert_eq. by destruct c.
      - exists []. split; [done|constructor]. }
  intros res r' _. destruct res as [[[va' vl'] vp']|].
  2:{ repeat split; simpl; try done.
      - exists c, (with_training W false (with_grad W None c)).
        rewrite list_insert_insert_eq. by destruct c.
      - exists [EvEval W i false (model W c)]. rewrite <- app_assoc.
        split; [done|]. rewrite ?Hl. constructor. }
  split.
  - intros _ _ _. repeat split; simpl; try done.
    + exists c, (with_training W false (with_grad W None c)).
      rewrite list_insert_insert_eq. by destruct c.
    + eexists. rewrite <- !app_assoc. split; [done|]. simpl. rewrite ?Hl.
      by apply (eval_recorded W _ _ _ _ l _ _ _ []).
  - intros evs Hevs. repeat split; simpl; try done.
    + exists c, (with_training W true (with_grad W None c)).
      rewrite !list_insert_insert_eq. by destruct c.
    + eexists. rewrite <- !app_assoc. split; [done|]. simpl. rewrite ?Hl.
      by apply eval_recorded.
Qed.

Lemma frame_round k s :
  env_ok num_clients data num_substeps_per_epoch → (0 < num_clients)%nat →
  lockstep W num_clients k 0 s →
  wp W round (λ _, lockstep W num_clients (S k) 0) (λ _ _, True) s.
Proof.
  intros Henv Hn Hls.
  apply (wp_round_lockstep k (λ _ _, True) (λ _ _, True)); try done.
  - intros i s' Hi Hls' _.
    eapply wp_mono; [| |by apply (frame_local_step num_clients k)]; done.
  - intros s' [Hsh _] _.
    eapply wp_mono; [| |by apply (frame_maybe_aggregate num_clients)]; done.
  - intros i s' Hi [Hsh _] _.
    eapply wp_mono; [| |by apply (frame_after_step num_clients)]; done.
Qed.

End blocks.

Section runs.

Context (W : world).
Context (iterations acc_steps batch_size sequence_length eval_freq : Z).
Context (extra_args : args_t).

Implicit Types (s : state W) (E : exn → state W → Prop).

Local Abbreviation round :=
  (Lora.round W iterations acc_steps batch_size sequence_length eval_freq
     extra_args).
Local Abbreviation loop_cond := (Lora.loop_cond W iterations).
Local Abbreviation setup :=
  (Lora.setup W batch_size sequence_length extra_args).
Local Abbreviation train_lora :=
  (Lora.train_lora W iterations acc_steps batch_size sequence_length eval_freq
     extra_args).
Local Abbreviation per_epoch n :=
  ((λ t : Shard, Z.of_nat (length t) `div` (batch_size * sequence_length))
     <$> d_train (loaded_data W n)).

Lemma per_epoch_lookup n i pe :
  per_epoch n !! i = Some pe →
  pe = Z.of_nat (length (memmap W TrainBin i))
         `div` (batch_size * sequence_length).
Proof.
  unfold loaded_data. simpl. rewrite !list_lookup_fmap.
  destruct (seq 0 n !! i) as [j|] eqn:Hj; [|done]. simpl.
  apply lookup_seq in Hj as [-> _]. simpl. by intros [= <-].
Qed.

Lemma env_ok_loaded n : env_ok n (loaded_data W n) (per_epoch n).
Proof.
  unfold env_ok, loaded_data. simpl. by rewrite !length_fmap, !length_seq.
Qed.

(** The whole call: [J k] is what holds, besides the lockstep of the
    counters, when the loop condition is evaluated for the [k]-th time after
    the first. *)
Lemma wp_train_lora (J : nat → state W → Prop)
    (Qf : stats_t → state W → Prop) E s0 :
  let n := length (clients W s0) in
  let init cs evs :=
    State W cs (replicate n 0) (replicate n 0) (empty_stats n) (loss W s0)
      (rng W s0) (log W s0 ++ evs) in
  (n ≠ O → batch_size * sequence_length = 0 →
   E ZeroDivisionError (init (clients W s0) [])) →
  (n = O ∨ batch_size * sequence_length ≠ 0 →
   J O (init (with_training W true <$> clients W s0)
          (compile_events W (no_compile extra_args) n))) →
  (n = O → ∀ s, J O s → itr W s = [] → E IndexError s) →
  (∀ k s, (0 < n)%nat → Z.of_nat k < iterations → lockstep W n k 0 s → J k s →
     wp W (round n (loaded_data W n) (per_epoch n)) (λ _, J (S k)) E s) →
  (∀ k s, (0 < n)%nat → k = Z.to_nat iterations → iterations ≤ Z.of_nat k →
     lockstep W n k 0 s → J k s → Qf (stats W s) s) →
  wp W train_lora Qf E s0.
Proof.
  intros n init Hfail Hinit Hnone Hround Hexit. subst init. simpl in *.
  unfold Lora.train_lora. wp_step. apply wp_setup; [done|].
  fold n. intros Hok. specialize (Hinit Hok). simpl. wp_step.
  set (s1 := State W (with_training W true <$> clients W s0) _ _ _ _ _ _) in *.
  assert (Hls : lockstep W n 0 0 s1).
  { split; [|by rewrite counters_0]. subst s1. unfold shaped, empty_stats.
    cbn [clients itr substep stats train_loss val_loss val_pp val_acc].
    by rewrite length_fmap, !length_replicate. }
  destruct (decide (n = O)) as [Hn|Hn].
  - assert (Hitr : itr W s1 = []) by (subst s1; simpl; by rewrite Hn).
    unfold fuel. destruct (Z.to_nat iterations); simpl; wp_step;
      (apply wp_loop_cond; [by intros; apply Hnone|by rewrite Hitr]).
  - apply (wp_while W (λ k s, lockstep W n k 0 s ∧ J k s)); [|done].
    intros k s Hk [Hls' HJ]. apply wp_loop_cond.
    { intros Hnil. destruct Hls' as [(_ & Hlen & _) _].
      rewrite Hnil in Hlen. simpl in Hlen. lia. }
    intros r Hr. destruct Hls' as [Hsh Hitr].
    rewrite Hitr, counters_last in Hr by lia. simplify_eq.
    unfold fuel in *. destruct (Z.ltb_spec (Z.of_nat k) iterations) as [Hlt|Hge].
    + split; [lia|].
      eapply wp_mono;
        [| |apply wp_conj;
             [apply frame_round; [apply env_ok_loaded|lia|done]
             |apply Hround; [lia|done..]]]; simpl; [done|by intros e s' [_ ?]].
    + wp_step. apply (Hexit k); [lia|lia|done..].
Qed.

Local Abbreviation loop_top :=
  (Lora.loop_top W iterations acc_steps batch_size sequence_length eval_freq
     extra_args).

Lemma loop_top_lockstep s0 k s :
  loop_top s0 k s → lockstep W (length (clients W s0)) k 0 s.
Proof.
  set (n := length (clients W s0)).
  assert (Hsetup : ∀ s1 env, setup s0 = (s1, inr env) →
            env = (n, loaded_data W n, per_epoch n) ∧ lockstep W n 0 0 s1).
  { intros s1 env Hs.
    apply (wp_returns W setup
             (λ env s1, env = (n, loaded_data W n, per_epoch n)
                        ∧ lockstep W n 0 0 s1) (λ _ _, True) s0); [|done].
    apply wp_setup; [done|]. intros _. split; [done|].
    split; [|by rewrite counters_0]. unfold shaped, empty_stats.
    cbn [clients itr substep stats train_loss val_loss val_pp val_acc].
    by rewrite length_fmap, !length_replicate. }
  induction 1 as [s env Hs|k s s' s1 m data pes Hs Htop IH Hcond Hround].
  - by apply (Hsetup s env).
  - destruct (Hsetup _ _ Hs) as [Henv _]. simplify_eq.
    assert (Hn : (0 < n)%nat).
    { destruct (Nat.eq_dec n O) as [Hz|]; [|lia].
      destruct IH as [(_ & Hlen & _) _]. rewrite Hz in Hlen.
      apply nil_length_inv in Hlen.
      unfold Lora.loop_cond, gets, index_last, mbind, M_bind in Hcond.
      rewrite Hlen in Hcond. done. }
    apply (wp_returns W (round n (loaded_data W n) (per_epoch n))
             (λ _, lockstep W n (S k) 0) (λ _ _, True) s s' tt); [|done].
    apply frame_round; [apply env_ok_loaded|done..].
Qed.

(** C6. At every round boundary, that is whenever the condition of the
    [while] loop is evaluated, all per-client iteration counters are equal,
    and each equals the number of rounds completed so far. *)
Theorem counters_in_lockstep (cs : list (client W)) (r0 : Rng W)
    (k : nat) (s : state W) :
  loop_top (initial_state W cs r0) k s →
  itr W s = replicate (length cs) (Z.of_nat k).
Proof.
  intros Htop. apply loop_top_lockstep in Htop as [_ Hitr].
  by rewrite Hitr, counters_0.
Qed.

Local Abbreviation ctx := (type_ctx extra_args).

(** C4, amended. A run with at least one client and [0 <= iterations]
    returns, when the last client's counter reaches [iterations], the
    statistics accumulated in the state, provided that no step raises: every
    client has a scheduler, the two frequencies and
    [batch_size * sequence_length] are not zero and, on the master process,
    [acc_steps] is at least 1, every train shard holds at least one batch and
    the evaluator does not raise. *)
Theorem train_lora_returns (cs : list (client W)) (r0 : Rng W) :
  cs ≠ [] →
  0 ≤ iterations →
  Forall (λ c, is_Some (scheduler W c)) cs →
  trust_freq extra_args ≠ 0 →
  eval_freq ≠ 0 →
  batch_size * sequence_length ≠ 0 →
  (is_master_process W = true →
   1 ≤ acc_steps ∧
   (∀ i, (i < length cs)%nat →
      Z.of_nat (length (memmap W TrainBin i))
        `div` (batch_size * sequence_length) ≠ 0) ∧
   (∀ mode p shard r,
      is_Some (eval W mode p shard sequence_length batch_size 12 ctx r).1)) →
  ∃ s, train_lora (initial_state W cs r0) = (s, inr (stats W s)) ∧
       itr W s = replicate (length cs) iterations.
Proof.
  intros Hcs Hit Hsched Htf Hef Hbs Hmaster.
  set (n := length cs).
  assert (Hn : (0 < n)%nat) by (subst n; destruct cs; [done|simpl; lia]).
  set (sched_ok := λ s : state W,
         Forall (λ c, is_Some (scheduler W c)) (clients W s)).
  set (loss_ok := λ s : state W,
         is_master_process W = true → is_Some (loss W s)).
  cut (wp W train_lora
         (λ st s, st = stats W s ∧ itr W s = replicate n iterations)
         (λ _ _, False) (initial_state W cs r0)).
  { unfold wp. destruct (train_lora (initial_state W cs r0)) as [s [e|st]];
      [done|]. intros [-> Hitr]. by exists s. }
  apply (wp_train_lora (λ _, sched_ok)); simpl; fold n.
  - lia.
  - intros _. unfold sched_ok. simpl. apply Forall_fmap.
    eapply Forall_impl; [exact Hsched|]. by intros [].
  - lia.
  - intros k s _ Hk Hls Hok.
    set (due := ((Z.of_nat (S k) `mod` eval_freq =? 0)
                 || (Z.of_nat (S k) =? iterations))
                && is_master_process W).
    apply (wp_round_lockstep W iterations acc_steps batch_size sequence_length
             eval_freq extra_args n _ _ k
             (λ i s, sched_ok s ∧ ((0 < i)%nat → loss_ok s))
             (λ i s, sched_ok s ∧ loss_ok s ∧
                     (due = true → ∀ j, (j < i)%nat → recorded (stats W s) j)));
      [apply env_ok_loaded|done|done|split; [done|lia]|..].
    + (* the local step of client i *)
      intros i s1 Hi [Hsh Hitr] [Hs1 _].
      destruct (shaped_lookups W n s1 i Hsh Hi)
        as (c & x & it & _ & _ & _ & _ & Hc & Hx & Hit' & _).
      destruct (env_lookups _ _ _ _ (env_ok_loaded n) Hi)
        as (tr & _ & _ & Htr & _).
      eapply wp_local_step; [done..|].
      intros g1 r1 l1 evs o' p' Hms clip g2 evs' sub' _.
      destruct (scheduler W c) as [sc|] eqn:Hsc.
      2:{ pose proof (Forall_lookup_1 _ _ _ _ Hs1 Hc) as [? ?]. congruence. }
      intros sc' o'' _. split.
      * unfold sched_ok. simpl. apply Forall_insert; [done|]. by eexists.
      * intros _ Hm. simpl.
        eapply microsteps_loss; [done|]. apply range_nonempty.
        by apply Hmaster.
    + (* the aggregation *)
      intros s1 [Hsh1 Hitr1] [Hs1 Hl1]. apply wp_maybe_aggregate; [|done|].
      { intros Hnil. destruct Hsh1 as (_ & Hlen & _). rewrite Hnil in Hlen.
        simpl in Hlen. lia. }
      intros r _ _.
      destruct ((r `mod` trust_freq extra_args =? 0)
                && (pretraining_rounds extra_args - 1 <=? r)).
      * apply wp_call_aggregate. intros ps r' _. split; [|split].
        -- unfold sched_ok. simpl. apply Forall_aggregated; [by intros []|done].
        -- unfold loss_ok in *. simpl. apply Hl1. lia.
        -- intros _ j Hj. lia.
      * split; [done|]. split; [apply Hl1; lia|]. intros _ j Hj. lia.
    + (* the second loop, at client i *)
      intros i s1 Hi [Hsh1 Hitr1] (Hs1 & Hl1 & Hrec).
      destruct (shaped_lookups W n s1 i Hsh1 Hi)
        as (c & x & it & a1 & a2 & a3 & a4 & Hc & Hx & Hit' & H1 & H2 & H3 & H4).
      destruct (env_lookups _ _ _ _ (env_ok_loaded n) Hi)
        as (_ & va & pe & _ & Hva & Hpe).
      assert (it = Z.of_nat (S k)) as ->.
      { rewrite Hitr1, counters_0_lookup in Hit' by done. by simplify_eq. }
      assert (Hi' : (i < length (clients W s1))%nat) by by eapply lookup_lt_Some.
      assert (Hsc : is_Some (scheduler W c)) by by eapply (Forall_lookup_1 _ _ _ _ Hs1).
      eapply wp_after_step; [done..|]. intros _. fold due.
      destruct due eqn:Hdue.
      2:{ split; [|split; [done|done]].
          unfold sched_ok. simpl. apply Forall_insert; [done|]. by destruct c. }
      assert (Hm : is_master_process W = true).
      { unfold due in Hdue. by apply andb_true_iff in Hdue as [_ ?]. }
      destruct (Hmaster Hm) as (Hacc & Hpes & Heval).
      eapply wp_evaluate; simpl; [by apply list_lookup_insert_eq|done..| |].
      { intros ->. apply per_epoch_lookup in Hpe. by eapply Hpes. }
      intros _. destruct (Hl1 Hm) as [l Hl]. rewrite Hl.
      intros res r' Hres.
      destruct (Heval false (model W (with_grad W None c)) va (rng W s1))
        as [res' Hres'].
      rewrite Hres in Hres'. simpl in Hres'. subst res.
      destruct res' as [[va' vl'] vp']. split.
      * intros _ -> Hnot. apply Hnot. intros j Hj.
        destruct (decide (j = (n - 1)%nat)) as [->|Hne].
        -- by apply recorded_insert_eq.
        -- apply recorded_insert_ne; [done|]. apply Hrec; [done|lia].
      * intros evs _. rewrite list_insert_insert_eq. split; [|split].
        -- unfold sched_ok. simpl. apply Forall_insert; [done|]. by destruct c.
        -- by intros _.
        -- intros _ j Hj. simpl. destruct (decide (j = i)) as [->|Hne].
           ++ by apply recorded_insert_eq.
           ++ apply recorded_insert_ne; [done|]. apply Hrec; [done|lia].
    + intros s1 _ (Hs1 & _). by split.
  - intros k s _ -> _ [_ Hitr] _. split; [done|].
    rewrite Hitr, counters_0. f_equal. lia.
Qed.

Lemma forallb_micro_not_step (evs : list (event W)) :
  forallb (is_micro) evs = true →
  forallb (λ e, negb (is_step e)) evs = true.
Proof.
  rewrite !forallb_forall. intros H e He. specialize (H e He).
  by destruct e.
Qed.

(** C10. When the first client has no scheduler (as every client has under
    the scheduler choice 'none'), there is at least one iteration to run and
    the setup reaches the loop, the call raises at the first client's first
    scheduler step: the exception is the one of a method call on [None], no
    counter has advanced, and the log ends with that client's optimizer
    step, the only step in it. *)
Theorem train_lora_without_scheduler (c : client W) (cs : list (client W))
    (r0 : Rng W) :
  scheduler W c = None →
  1 ≤ iterations →
  batch_size * sequence_length ≠ 0 →
  ∃ s pre g,
    train_lora (initial_state W (c :: cs) r0) = (s, inl AttributeError) ∧
    itr W s = replicate (S (length cs)) 0 ∧
    log W s = pre ++ [EvOptStep W 0 g] ∧
    forallb (λ e, negb (is_step e)) pre = true.
Proof.
  intros Hnone Hit Hbs.
  set (n := S (length cs)).
  set (Φ := λ s : state W, ∃ pre g,
         itr W s = replicate n 0 ∧ log W s = pre ++ [EvOptStep W 0 g] ∧
         forallb (λ e, negb (is_step e)) pre = true).
  set (J0 := λ s : state W,
         (∃ c', clients W s !! O = Some c' ∧ scheduler W c' = None) ∧
         forallb (λ e, negb (is_step e)) (log W s) = true).
  cut (wp W train_lora (λ _ _, False) (λ e s, e = AttributeError ∧ Φ s)
         (initial_state W (c :: cs) r0)).
  { unfold wp. destruct (train_lora (initial_state W (c :: cs) r0))
      as [s [e|st]]; [|done].
    intros [-> (pre & g & ? & ? & ?)]. by exists s, pre, g. }
  apply (wp_train_lora (λ k s, k = O ∧ J0 s)); simpl; fold n.
  - done.
  - intros _. split; [done|]. split.
    + exists (with_training W true c). by destruct c.
    + unfold compile_events. destruct (no_compile extra_args); [done|].
      apply forallb_forall. intros e He. apply in_map_iff in He as (? & <- & _).
      done.
  - done.
  - intros k s _ _ Hls [-> [(c' & Hc' & Hsc) Hlog]].
    apply (wp_round_lockstep W iterations acc_steps batch_size sequence_length
             eval_freq extra_args n _ _ O
             (λ i s', i = O ∧ s' = s) (λ _ _, False));
      [apply env_ok_loaded|lia|done|done|..]; [|by intros ? ? []..].
    intros i s' Hi [Hsh Hitr] [-> ->].
    destruct (shaped_lookups W n s O Hsh Hi)
      as (c0 & x & it & _ & _ & _ & _ & Hc & Hx & Hit' & _).
    destruct (env_lookups _ _ _ _ (env_ok_loaded n) Hi)
      as (tr & _ & _ & Htr & _).
    simplify_eq.
    eapply wp_local_step; [done..|].
    intros g1 r1 l1 evs o' p' Hms clip g2 evs' sub' _. rewrite Hsc.
    split; [done|]. exists (log W s ++ evs ++ (if clip then [EvClip W 0 g1 (grad_clip extra_args)] else [])), g2.
    simpl. split; [|split].
    + by rewrite Hitr, counters_0.
    + subst evs'. by rewrite !app_assoc.
    + rewrite !forallb_app, Hlog. simpl.
      rewrite (forallb_micro_not_step evs) by by eapply microsteps_events.
      by destruct clip.
  - intros k s _ -> Hge. lia.
Qed.

(** The events of a local step are not calls of the aggregator, and one
    of them is an optimizer step, of that client. *)
Lemma local_events i shard mode p ks g r l g1 r1 l1 evs (clip : bool) gc m g2 j :
  Lora.microsteps W acc_steps batch_size sequence_length ctx i shard mode p ks
    g r l = (g1, r1, l1, evs) →
  let evs' := evs ++ (if clip then [EvClip W i gc m] else [])
                  ++ [EvOptStep W i g2] in
  forallb (λ e, negb (is_aggregate e)) (evs' ++ [EvSchedStep W i]) = true ∧
  forallb (λ e, negb (is_aggregate e)) evs' = true ∧
  opt_steps j evs' = (if decide (i = j) then 1%nat else O) ∧
  opt_steps j (evs' ++ [EvSchedStep W i]) = (if decide (i = j) then 1%nat else O).
Proof.
  intros Hms evs'. subst evs'.
  assert (Hmicro : forallb is_micro evs = true)
    by (eapply microsteps_events; exact Hms).
  assert (Hq : forallb (λ e : event W, negb (is_aggregate e)) evs = true).
  { revert Hmicro. apply forallb_impl. by intros []. }
  assert (Hs : opt_steps j evs = O).
  { apply opt_steps_none. by apply forallb_micro_not_step. }
  rewrite !forallb_app, Hq, !opt_steps_app, Hs, opt_steps_one.
  destruct clip; simpl; repeat split; try done; unfold opt_steps; simpl; lia.
Qed.

(** C1. In a run with a nonzero aggregation frequency, whatever its exit,
    the aggregator has been called exactly for the rounds [r], among those
    whose training the last client has completed, with
    [r % trust_freq == 0] and [r >= pretraining_rounds - 1]; and at each call
    every client has taken exactly [r] optimizer steps, so that all local
    steps of round [r] precede the call and none of round [r + 1] does. *)
Theorem aggregation_rounds (cs : list (client W)) (r0 : Rng W) :
  trust_freq extra_args ≠ 0 →
  let s := (train_lora (initial_state W cs r0)).1 in
  aggregations (log W s)
    = List.filter (agg_due extra_args) (rounds_trained s) ∧
  justified (after_all_steps (length cs)) (log W s).
Proof.
  intros Htf. set (n := length cs).
  set (Φ := λ s : state W,
         aggregations (log W s)
           = List.filter (agg_due extra_args) (rounds_trained s) ∧
         justified (after_all_steps n) (log W s)).
  set (J := λ (k : nat) (steps : nat → nat) (s : state W),
         aggregations (log W s)
           = List.filter (agg_due extra_args) (Z.of_nat <$> seq 1 k) ∧
         justified (after_all_steps n) (log W s) ∧
         ∀ j, (j < n)%nat → opt_steps j (log W s) = steps j).
  cut (wp W train_lora (λ _, Φ) (λ _, Φ) (initial_state W cs r0)).
  { unfold wp. simpl. by destruct (train_lora (initial_state W cs r0)) as [s [e|st]]. }
  apply (wp_train_lora (λ k, J k (λ _, k))); simpl; fold n.
  - intros Hn _. split; [|apply justified_nil].
    rewrite (rounds_trained_last _ O); [done|]. simpl.
    destruct n; [done|]. by rewrite replicate_S_end, last_snoc.
  - intros _. unfold compile_events.
    assert (Hc : forallb (λ e : event W, negb (is_step e) && negb (is_aggregate e))
                   (if no_compile extra_args then []
                    else EvCompile W <$> seq 0 n) = true).
    { destruct (no_compile extra_args); [done|]. apply forallb_forall.
      intros e He. apply in_map_iff in He as (? & <- & _). done. }
    split; [|split].
    + apply aggregations_none. revert Hc. apply forallb_impl.
      by intros e [_ ?]%andb_true_iff.
    + apply (justified_no_aggregate n []); [|apply justified_nil].
      revert Hc. apply forallb_impl. by intros e [_ ?]%andb_true_iff.
    + intros j _. apply opt_steps_none. revert Hc. apply forallb_impl.
      by intros e [? _]%andb_true_iff.
  - intros _ s (Hagg & Hjust & _) Hnil. split; [|done].
    unfold rounds_trained. by rewrite Hnil.
  - intros k s Hn Hk Hls HJ.
    apply (wp_round_lockstep W iterations acc_steps batch_size sequence_length
             eval_freq extra_args n _ _ k
             (λ i, J k (λ j, if decide (j < i)%nat then S k else k))
             (λ _, J (S k) (λ _, S k)));
      [apply env_ok_loaded|done|done|..].
    + destruct HJ as (? & ? & Hsteps). repeat split; [done..|].
      intros j Hj. rewrite decide_False by lia. by apply Hsteps.
    + (* the local step of client i *)
      intros i s1 Hi [Hsh Hitr] (Hagg & Hjust & Hsteps).
      destruct (shaped_lookups W n s1 i Hsh Hi)
        as (c & x & it & _ & _ & _ & _ & Hc & Hx & Hit' & _).
      destruct (env_lookups _ _ _ _ (env_ok_loaded n) Hi)
        as (tr & _ & _ & Htr & _).
      eapply wp_local_step; [done..|].
      intros g1 r1 l1 evs o' p' Hms clip g2 evs' sub' _.
      assert (Hev : ∀ j, _) by
        (intros j; exact (local_events i _ _ _ _ _ _ _ _ _ _ _ clip g1
                            (grad_clip extra_args) g2 j Hms)).
      fold evs' in Hev.
      destruct (scheduler W c) as [sc|].
      * intros sc' o'' _. destruct (Hev O) as (Hq & _). repeat split; simpl.
        -- by rewrite aggregations_quiet.
        -- by apply justified_no_aggregate.
        -- intros j Hj. destruct (Hev j) as (_ & _ & _ & Hone).
           rewrite opt_steps_app, Hone, Hsteps by done.
           repeat case_decide; lia.
      * destruct (Hev O) as (_ & Hq & _). split; simpl.
        -- rewrite aggregations_quiet by done.
           rewrite (rounds_trained_last _ k); [done|]. simpl.
           rewrite Hitr. by apply counters_last.
        -- by apply justified_no_aggregate.
    + (* the aggregation *)
      intros s1 [Hsh1 Hitr1] (Hagg & Hjust & Hsteps).
      apply wp_maybe_aggregate; [|done|].
      { intros Hnil. destruct Hsh1 as (_ & Hlen & _). rewrite Hnil in Hlen.
        simpl in Hlen. lia. }
      intros r Hr _. rewrite Hitr1, counters_last in Hr by done.
      injection Hr as <-.
      fold (agg_due extra_args (Z.of_nat (S k))).
      unfold J. rewrite filter_rounds_S.
      destruct (agg_due extra_args (Z.of_nat (S k))).
      * apply wp_call_aggregate. intros ps r' _. simpl. repeat split.
        -- rewrite aggregations_app, Hagg. done.
        -- apply justified_snoc; [done|]. simpl. intros j Hj.
           rewrite Hsteps by done. rewrite decide_True by done. done.
        -- intros j Hj. rewrite opt_steps_app, Hsteps by done.
           rewrite decide_True by done. unfold opt_steps. simpl. lia.
      * rewrite app_nil_r. repeat split; [done..|]. intros j Hj.
        rewrite Hsteps by done. by rewrite decide_True.
    + (* the second loop *)
      intros i s1 Hi [Hsh1 Hitr1] (Hagg & Hjust & Hsteps).
      eapply wp_mono;
        [| |apply (after_step_effect W iterations acc_steps batch_size
                     sequence_length eval_freq extra_args n _ _ n i s1);
            [apply env_ok_loaded|done..]].
      all: simpl; intros _ s2 (Hitr2 & _ & _ & evs & Hlog & Htrace).
      all: apply eval_trace_quiet in Htrace.
      all: assert (Hq : forallb (λ e : event W, negb (is_aggregate e))
                          (EvZeroGrad W i :: evs) = true)
             by (simpl; revert Htrace; apply forallb_impl;
                 by intros e [[_ ?]%andb_true_iff _]%andb_true_iff).
      all: assert (Hs : ∀ j, opt_steps j (EvZeroGrad W i :: evs) = O)
             by (intros j; apply opt_steps_none; simpl; revert Htrace;
                 apply forallb_impl;
                 by intros e [[? _]%andb_true_iff _]%andb_true_iff).
      * repeat split.
        -- by rewrite Hlog, aggregations_quiet.
        -- rewrite Hlog. by apply justified_no_aggregate.
        -- intros j Hj. rewrite Hlog, opt_steps_app, Hs, Hsteps by done. lia.
      * split.
        -- rewrite Hlog, aggregations_quiet by done.
           rewrite (rounds_trained_last _ (S k)); [done|].
           rewrite Hitr2, Hitr1. by apply counters_last.
        -- rewrite Hlog. by apply justified_no_aggregate.
    + intros s1 [Hsh1 Hitr1] (Hagg & Hjust & Hsteps).
      assert (HΦ : Φ s1).
      { split; [|done]. rewrite (rounds_trained_last _ (S k)); [done|].
        rewrite Hitr1. by apply counters_last. }
      split; [done|]. by repeat split.
  - intros k s Hn _ _ [_ Hitr] (Hagg & Hjust & _). split; [|done].
    rewrite (rounds_trained_last _ k); [done|]. rewrite Hitr.
    by apply counters_last.
Qed.


Lemma range_last n : 1 ≤ n → last (range n) = Some (n - 1).
Proof.
  intros Hn. unfold range. destruct (Z.to_nat n) as [|m] eqn:Hm; [lia|].
  rewrite seq_S, fmap_app. simpl. rewrite last_snoc. f_equal. lia.
Qed.

Lemma range_empty n : n ≤ 0 → range n = [].
Proof. intros Hn. unfold range. by replace (Z.to_nat n) with O by lia. Qed.

(** The loss left by the microsteps is that of their last forward pass. *)
Lemma microsteps_last_forward i shard mode p ks g r l g1 r1 l1 evs :
  Lora.microsteps W acc_steps batch_size sequence_length ctx i shard mode p ks
    g r l = (g1, r1, l1, evs) →
  match last ks with
  | None => evs = [] ∧ l1 = l
  | Some m =>
      ∃ out, last_forward evs = Some (i, m, out) ∧
             l1 = Some (out / inject_Z acc_steps)%Q
  end.
Proof.
  revert g r l g1 r1 l1 evs.
  induction ks as [|k ks IH]; intros g r l g1 r1 l1 evs Hms.
  - simpl in *. by simplify_eq.
  - simpl in Hms.
    destruct (get_batch W r shard sequence_length batch_size) as [b r'].
    destruct (Lora.microsteps W acc_steps batch_size sequence_length ctx i shard
                mode p ks _ r' _) as [[[g2 r2] l2] evs2] eqn:Hrec.
    simplify_eq. specialize (IH _ _ _ _ _ _ _ Hrec).
    destruct ks as [|k' ks'].
    + simpl in *. destruct IH as [-> ->]. by eexists.
    + rewrite last_cons_cons. destruct (last (k' :: ks')) as [m|] eqn:Hlast.
      * destruct IH as (out & Hlf & ->). exists out. split; [|done].
        simpl. by rewrite Hlf.
      * by apply last_None in Hlast.
Qed.


(** *** Gradient accumulation *)

Lemma accumulate_from_some (c : Q) (gs : list Grad) (a : Grad) :
  ∃ G, foldl (λ acc g, accumulate acc (gscale c g)) (Some a) gs = Some G ∧
       geq G (gadd a (gscale c (gsum gs))).
Proof.
  revert a. induction gs as [|g gs IH]; intros a; simpl.
  - exists a. split; [done|]. intros j. unfold gadd, gscale, gzero. ring.
  - destruct (IH (gadd a (gscale c g))) as (G & HG & Hgeq).
    exists G. split; [done|]. intros j. rewrite (Hgeq j).
    unfold gadd, gscale. ring.
Qed.

Lemma accumulate_mean (n : Z) (gs : list Grad) :
  gs ≠ [] → Z.of_nat (length gs) = n →
  ∃ G, foldl (λ acc g, accumulate acc (gscale (1 / inject_Z n) g)) None gs
         = Some G ∧
       geq G (mean_grad gs).
Proof.
  intros Hne Hlen. destruct gs as [|g gs]; [done|]. simpl foldl.
  destruct (accumulate_from_some (1 / inject_Z n) gs (gscale (1 / inject_Z n) g))
    as (G & HG & Hgeq).
  exists G. split; [done|]. intros j. rewrite (Hgeq j).
  unfold mean_grad. rewrite Hlen. unfold gadd, gscale. simpl. unfold gadd. ring.
Qed.

(** The microsteps draw one batch each and add the scaled gradients. *)
Lemma microsteps_window i shard mode p ks g r l g1 r1 l1 evs :
  Lora.microsteps W acc_steps batch_size sequence_length ctx i shard mode p ks
    g r l = (g1, r1, l1, evs) →
  ∃ bs,
    length bs = length ks ∧
    evs = window W acc_steps ctx i mode p ks bs ∧
    Forall (λ b, ∃ r', b = (get_batch W r' shard sequence_length batch_size).1)
      bs ∧
    g1 = foldl (λ acc g, accumulate acc (gscale (1 / inject_Z acc_steps) g)) g
           (loss_grad W ctx mode p <$> bs).
Proof.
  revert g r l g1 r1 l1 evs.
  induction ks as [|k ks IH]; intros g r l g1 r1 l1 evs Hms.
  - simpl in Hms. simplify_eq. by exists [].
  - simpl in Hms.
    destruct (get_batch W r shard sequence_length batch_size) as [b r'] eqn:Hb.
    destruct (Lora.microsteps W acc_steps batch_size sequence_length ctx i shard
                mode p ks _ r' _) as [[[g2 r2] l2] evs2] eqn:Hrec.
    simplify_eq. destruct (IH _ _ _ _ _ _ _ Hrec) as (bs & Hlen & -> & Hbs & ->).
    exists (b :: bs). split_and!; simpl; [by rewrite Hlen|done| |done].
    constructor; [|done]. exists r. by rewrite Hb.
Qed.

Local Abbreviation mean_gradient_step :=
  (Lora.mean_gradient_step W acc_steps batch_size sequence_length extra_args).

Lemma justified_mean_other (l evs : list (event W)) :
  forallb (λ e, negb (is_step e)) evs = true →
  justified mean_gradient_step l → justified mean_gradient_step (l ++ evs).
Proof.
  intros Hevs Hl. apply justified_app_any; [done|].
  apply Forall_forall. intros e He pre.
  rewrite forallb_forall in Hevs. apply list_elem_of_In, Hevs in He.
  by destruct e.
Qed.

Lemma loaded_train_lookup n i tr :
  d_train (loaded_data W n) !! i = Some tr → tr = memmap W TrainBin i.
Proof.
  unfold loaded_data. simpl. rewrite list_lookup_fmap.
  destruct (seq 0 n !! i) as [j|] eqn:Hj; [|done]. simpl.
  apply lookup_seq in Hj as [-> _]. by intros [= <-].
Qed.


Lemma microsteps_mode i shard p ks g r l g1 r1 l1 evs :
  Lora.microsteps W acc_steps batch_size sequence_length ctx i shard true p ks
    g r l = (g1, r1, l1, evs) →
  Forall (mode_discipline []) evs.
Proof.
  revert g r l g1 r1 l1 evs.
  induction ks as [|k ks IH]; intros g r l g1 r1 l1 evs Hms.
  - simpl in Hms. by simplify_eq.
  - simpl in Hms.
    destruct (get_batch W r shard sequence_length batch_size) as [b r'].
    destruct (Lora.microsteps W acc_steps batch_size sequence_length ctx i shard
                true p ks _ r' _) as [[[g2 r2] l2] evs2] eqn:Hrec.
    simplify_eq. repeat (constructor; [done|]). by eapply IH.
Qed.

(** C5, amended. In a run: the evaluator is only ever called on a model in
    inference mode, and every training forward pass sees a model in training
    mode, so the mode was restored after each evaluation that returned; when
    the call returns, every model is in training mode; but when the
    evaluator raises, the exception leaves [train_lora] and the model being
    evaluated stays in inference mode, as no handler restores it. *)
Theorem evaluation_mode (cs : list (client W)) (r0 : Rng W) :
  let run := train_lora (initial_state W cs r0) in
  justified mode_discipline (log W run.1) ∧
  (∀ st, run.2 = inr st →
   Forall (λ c, training W c = true) (clients W run.1)) ∧
  (run.2 = inl EvaluatorError →
   ∃ pre i p c,
     log W run.1 = pre ++ [EvEval W i false p] ∧
     clients W run.1 !! i = Some c ∧ training W c = false).
Proof.
  set (n := length cs).
  set (J := λ s : state W,
         justified mode_discipline (log W s) ∧
         Forall (λ c, training W c = true) (clients W s)).
  set (E := λ (e : exn) (s : state W),
         justified mode_discipline (log W s) ∧
         (e = EvaluatorError →
          ∃ pre i p c,
            log W s = pre ++ [EvEval W i false p] ∧
            clients W s !! i = Some c ∧ training W c = false)).
  cut (wp W train_lora (λ _, J) E (initial_state W cs r0)).
  { unfold wp. simpl.
    destruct (train_lora (initial_state W cs r0)) as [s [e|st]]; simpl.
    - intros [Hj He]. split; [done|]. split; [by intros|].
      intros [= ->]. by apply He.
    - intros [Hj Ht]. split; [done|]. split; [by intros|]. by intros. }
  assert (Hplain : ∀ e s, e ≠ EvaluatorError →
            justified mode_discipline (log W s) → E e s).
  { intros e s Hne Hj. split; [done|]. by intros ->. }
  apply (wp_train_lora (λ _, J)); simpl; fold n.
  - intros _ _. apply Hplain; [done|]. apply justified_nil.
  - intros _. split; simpl.
    + apply (justified_mode_app []); [apply justified_nil|].
      unfold compile_events. destruct (no_compile extra_args); [done|].
      apply Forall_fmap, Forall_forall. done.
    + apply Forall_fmap, Forall_forall. by intros [].
  - intros _ s [Hj _] _. by apply Hplain.
  - intros k s Hn Hk Hls HJ.
    apply (wp_round_lockstep W iterations acc_steps batch_size sequence_length
             eval_freq extra_args n _ _ k (λ _, J) (λ _, J));
      [apply env_ok_loaded|done|done|done|..].
    + (* the local step of client i *)
      intros i s1 Hi [Hsh Hitr] [Hj Ht].
      destruct (shaped_lookups W n s1 i Hsh Hi)
        as (c & x & it & _ & _ & _ & _ & Hc & Hx & Hit' & _).
      destruct (env_lookups _ _ _ _ (env_ok_loaded n) Hi)
        as (tr & _ & _ & Htr & _).
      pose proof (Forall_lookup_1 _ _ _ _ Ht Hc) as Htc. simpl in Htc.
      eapply wp_local_step; [done..|].
      intros g1 r1 l1 evs o' p' Hms clip g2 evs' sub' _.
      rewrite Htc in Hms.
      assert (Hj' : justified mode_discipline (log W s1 ++ evs')).
      { subst evs'. apply justified_mode_app; [done|].
        apply Forall_app. split; [by eapply microsteps_mode|].
        destruct clip; by repeat constructor. }
      destruct (scheduler W c) as [sc|].
      * intros sc' o'' _. split; simpl.
        -- rewrite app_assoc. by apply justified_snoc.
        -- apply Forall_insert; [done|]. simpl. done.
      * by apply Hplain.
    + (* the aggregation *)
      intros s1 [Hsh1 Hitr1] [Hj Ht].
      apply wp_maybe_aggregate; [by intros; apply Hplain..|].
      intros r _ _. destruct (_ && _); [|done].
      apply wp_call_aggregate. intros ps r' _. split; simpl.
      * by apply justified_snoc.
      * apply Forall_aggregated; [by intros []|done].
    + (* the second loop, at client i *)
      intros i s1 Hi [Hsh1 Hitr1] [Hj Ht].
      destruct (shaped_lookups W n s1 i Hsh1 Hi)
        as (c & x & it & a1 & a2 & a3 & a4 & Hc & Hx & Hit' & H1 & H2 & H3 & H4).
      destruct (env_lookups _ _ _ _ (env_ok_loaded n) Hi)
        as (_ & va & pe & _ & Hva & Hpe).
      pose proof (Forall_lookup_1 _ _ _ _ Ht Hc) as Htc. simpl in Htc.
      assert (Hi' : (i < length (clients W s1))%nat) by by eapply lookup_lt_Some.
      assert (Hj1 : justified mode_discipline (log W s1 ++ [EvZeroGrad W i]))
        by by apply justified_snoc.
      eapply wp_after_step; [done..| |].
      { intros _. by apply Hplain. }
      intros _. destruct (_ && _).
      2:{ split; simpl; [done|]. apply Forall_insert; [done|]. by destruct c. }
      eapply wp_evaluate; simpl; [by apply list_lookup_insert_eq|done..| |].
      { intros _. by apply Hplain. }
      intros _. destruct (loss W s1) as [l|]; [|by apply Hplain].
      intros res r' _.
      assert (Hj2 : justified mode_discipline
                      ((log W s1 ++ [EvZeroGrad W i])
                         ++ [EvEval W i false (model W c)]))
        by by apply justified_snoc.
      destruct res as [[[va' vl'] vp']|].
      2:{ split; [done|]. intros _.
          exists (log W s1 ++ [EvZeroGrad W i]), i, (model W c),
            (with_training W false (with_grad W None c)).
          simpl. rewrite list_insert_insert_eq.
          by rewrite list_lookup_insert_eq. }
      assert (Hj3 : justified mode_discipline
                      (((log W s1 ++ [EvZeroGrad W i])
                          ++ [EvEval W i false (model W c)])
                         ++ [EvRecord W i (l * inject_Z acc_steps)%Q vl' vp' va']))
        by by apply justified_snoc.
      split.
      * intros _ _ _. by apply Hplain.
      * intros evs Hevs. rewrite list_insert_insert_eq. split; simpl.
        -- apply justified_mode_app; [done|]. by apply mode_discipline_wandb.
        -- apply Forall_insert; [done|]. done.
    + intros s1 _ [Hj Ht]. split; [|done]. intros _. by apply Hplain.
  - by intros k s _ _ _ _ HJ.
Qed.

End runs.
End LoraProofs.

(** ** Properties of the entry point *)

Module MainProofs.
Import Main.

Section main.

Context (W : world) (L : library W).

Implicit Types (a : args) (s : state W).

Lemma bind_eq {A B} (m : M W A) (f : A → M W B) s s' x :
  m s = (s', inr x) → (m ≫= f) s = f x s'.
Proof. intros H. unfold mbind, M_bind. by rewrite H. Qed.

Lemma quietly_ret {A} (x : A) s : runs_quietly (mret x) s x s.
Proof. split_and!; [done..|]. exists []. by rewrite app_nil_r. Qed.

Lemma quietly_bind {A B} (m : M W A) (f : A → M W B) s x s1 y s2 :
  runs_quietly m s x s1 → runs_quietly (f x) s1 y s2 →
  runs_quietly (m ≫= f) s y s2.
Proof.
  intros (H1 & Hfs1 & evs1 & Ho1 & Hq1) (H2 & Hfs2 & evs2 & Ho2 & Hq2).
  split_and!; [by rewrite (bind_eq _ _ _ _ _ H1)|congruence|].
  exists (evs1 ++ evs2).
  by rewrite Ho2, Ho1, <- app_assoc, forallb_app, Hq1, Hq2.
Qed.

Lemma quietly_emit e s :
  quiet e = true →
  runs_quietly (emit W e) s tt
    (State W (fs W s) (rng W s) (clients W s) (out W s ++ [e])).
Proof.
  intros He. split_and!; [done..|]. exists [e]. simpl. by rewrite He.
Qed.

Lemma quietly_modify (f : state W → state W) s :
  fs W (f s) = fs W s → out W (f s) = out W s →
  runs_quietly (modify W f) s tt (f s).
Proof.
  intros Hfs Hout. split_and!; [done..|]. exists []. by rewrite app_nil_r.
Qed.

Lemma quietly_gets {A} (f : state W → A) s : runs_quietly (gets W f) s (f s) s.
Proof. apply (quietly_ret (f s)). Qed.

Lemma quietly_when (b : bool) (m : M W unit) s s1 :
  (b = true → runs_quietly m s tt s1) →
  ∃ s', runs_quietly (when W b m) s tt s'.
Proof.
  intros Hm. destruct b; simpl.
  - exists s1. by apply Hm.
  - exists s. apply quietly_ret.
Qed.

Lemma get_dataset_known a s :
  known_dataset a → ∃ p, get_dataset_from_args W a s = (s, inr p).
Proof.
  unfold known_dataset, get_dataset_from_args. rewrite !elem_of_cons.
  intros [->|[->|[->|H]]]; [eexists; reflexivity..|]. by apply elem_of_nil in H.
Qed.

Lemma make_scheduler_known a o s :
  known_scheduler a → ∃ sc, runs_quietly (make_scheduler W L a o) s sc s.
Proof.
  unfold known_scheduler, make_scheduler. rewrite !elem_of_cons.
  intros [->|[->|[->|H]]]; [eexists; apply quietly_ret..|].
  by apply elem_of_nil in H.
Qed.

Lemma make_optimizer_quiet a p s :
  ∃ o s', runs_quietly (make_optimizer W L a p) s o s'.
Proof.
  unfold make_optimizer. destruct (String.eqb (opt a) "adamw").
  - eexists _, _. eapply quietly_bind; [by apply quietly_emit|].
    apply quietly_ret.
  - eexists _, _. apply quietly_ret.
Qed.

(** Building one client prints at most, and leaves the files alone. *)
Lemma make_client_known a i s :
  known_scheduler a → ∃ s', runs_quietly (make_client W L a i) s tt s'.
Proof.
  intros Hk. unfold make_client.
  destruct (get_model W L a (rng W s)) as [p r'] eqn:Hp.
  set (s1 := State W (fs W s) r' (clients W s) (out W s)).
  destruct (quietly_when (bool_decide (i = 0%nat))
              (emit W (EvPrint W OptimizedParameters)) s1
              (State W (fs W s1) (rng W s1) (clients W s1)
                 (out W s1 ++ [EvPrint W OptimizedParameters]))) as [s2 H2].
  { intros _. by apply quietly_emit. }
  destruct (make_optimizer_quiet a p s2) as (o & s3 & H3).
  destruct (make_scheduler_known a o s3 Hk) as [sc H4].
  eexists.
  eapply quietly_bind; [apply quietly_gets|].
  rewrite Hp.
  eapply quietly_bind; [by apply quietly_modify|].
  eapply quietly_bind; [exact H2|].
  eapply quietly_bind; [exact H3|].
  eapply quietly_bind; [exact H4|].
  by apply quietly_modify.
Qed.

Lemma make_clients_known a (ids : list nat) s :
  known_scheduler a →
  ∃ s', runs_quietly (for_ W ids (make_client W L a)) s tt s'.
Proof.
  intros Hk. revert s. induction ids as [|i ids IH]; intros s; simpl.
  - exists s. apply quietly_ret.
  - destruct (make_client_known a i s Hk) as [s1 H1].
    destruct (IH s1) as [s2 H2].
    exists s2. by eapply quietly_bind.
Qed.

Lemma init_wandb_quiet a s : ∃ s', runs_quietly (init_wandb W L a) s tt s'.
Proof.
  eapply quietly_when. intros _.
  eapply quietly_bind; by apply quietly_emit.
Qed.

Lemma bind_raise {A B} (m : M W A) (f : A → M W B) s s' e :
  m s = (s', inl e) → (m ≫= f) s = (s', inl e).
Proof. intros H. unfold mbind, M_bind. by rewrite H. Qed.

(** Lines 119-124 on a completed run: the message, then [sys.exit(0)]. *)
Lemma check_completed_exits a s :
  completed W L (fs W s) a →
  check_completed W L a s =
    (State W (fs W s) (rng W s) (clients W s)
       (out W s ++ [EvPrint W (AlreadyFound (ckpt_path W L a))]),
     inl (SystemExit 0)).
Proof.
  intros [Hdir [c Hsum]]. unfold check_completed.
  rewrite (bind_eq _ _ s s (fs W s)) by done.
  unfold exists_, isfile. rewrite Hsum, bool_decide_eq_true_2 by done.
  simpl. by erewrite bind_eq by reflexivity.
Qed.


End main.

End MainProofs.

(** ** Properties of the aggregation weights *)

Module TrustProofs.
Import Trust.

Lemma total_nonneg ws : Forall (Qle 0) ws → (0 <= total ws)%Q.
Proof.
  induction 1 as [|w ws Hw _ IH]; simpl; [apply Qle_refl|].
  replace 0%Q with (0 + 0)%Q by reflexivity. by apply Qplus_le_compat.
Qed.

Lemma total_scale c ws :
  (total ((λ w, w / c) <$> ws) == total ws / c)%Q.
Proof.
  induction ws as [|w ws IH]; simpl.
  - unfold Qdiv. by rewrite Qmult_0_l.
  - rewrite IH. unfold Qdiv. by rewrite Qmult_plus_distr_l.
Qed.

Lemma total_normalize ws : (0 < total ws)%Q → (total (normalize ws) == 1)%Q.
Proof.
  intros Hpos. unfold normalize. rewrite total_scale.
  unfold Qdiv. apply Qmult_inv_r. intros H. rewrite H in Hpos.
  by apply Qlt_irrefl in Hpos.
Qed.

Lemma normalize_nonneg ws :
  Forall (Qle 0) ws → (0 < total ws)%Q → Forall (Qle 0) (normalize ws).
Proof.
  intros Hws Hpos. unfold normalize. apply Forall_fmap.
  eapply Forall_impl; [exact Hws|]. intros w Hw. simpl.
  apply Qle_shift_div_l; [done|]. by rewrite Qmult_0_l.
Qed.

(** A combination under non-negative weights of total 1 stays between any
    bounds that hold for all the combined values. *)
Lemma combine_bounds lo hi ws ps :
  length ws = length ps → Forall (Qle 0) ws →
  Forall (λ p, lo <= p ∧ p <= hi)%Q ps →
  (lo * total ws <= combine ws ps ∧ combine ws ps <= hi * total ws)%Q.
Proof.
  intros Hlen Hws. revert ps Hlen.
  induction Hws as [|w ws Hw Hws IH]; intros [|p ps] Hlen Hps;
    simplify_eq/=.
  - rewrite !Qmult_0_r. split; apply Qle_refl.
  - inversion Hps as [|? ? [Hlo Hhi] Hps']; subst.
    destruct (IH ps Hlen Hps') as [IHlo IHhi].
    rewrite !Qmult_plus_distr_r. split; apply Qplus_le_compat; try done.
    + rewrite (Qmult_comm w p). by apply Qmult_le_compat_r.
    + rewrite (Qmult_comm w p). by apply Qmult_le_compat_r.
Qed.

Lemma weights_length pol L n j : length (weights pol L n j) = n.
Proof.
  unfold weights, normalize, raw_weights. by rewrite !length_fmap, length_seq.
Qed.

Lemma raw_weights_nonneg pol L n j :
  (∀ i, (i < n)%nat → (0 <= pol (L i j))%Q) →
  Forall (Qle 0) (raw_weights pol L n j).
Proof.
  intros Hpol. unfold raw_weights. apply Forall_fmap, Forall_seq.
  intros i [_ Hi]. simpl. by apply Hpol.
Qed.

Lemma raw_weights_total_pos pol L n j :
  (∀ i, (i < n)%nat → (0 <= pol (L i j))%Q) → (j < n)%nat →
  (0 < pol (L j j))%Q → (0 < total (raw_weights pol L n j))%Q.
Proof.
  intros Hpol Hj Hself. unfold raw_weights.
  assert (Hsplit : seq 0 n = seq 0 j ++ j :: seq (S j) (n - S j)).
  { replace n with (j + S (n - S j))%nat at 1 by lia.
    by rewrite seq_app. }
  rewrite Hsplit, fmap_app. simpl.
  assert (Happ : ∀ xs ys, (total (xs ++ ys) == total xs + total ys)%Q).
  { intros xs ys. induction xs as [|x xs IH]; simpl.
    - by rewrite Qplus_0_l.
    - by rewrite IH, Qplus_assoc. }
  rewrite Happ. simpl.
  eapply Qlt_le_trans; [exact Hself|].
  rewrite <- (Qplus_0_l (pol (L j j))) at 1.
  apply Qplus_le_compat.
  - apply total_nonneg, Forall_fmap, Forall_seq. intros i [_ Hi]. simpl.
    apply Hpol. lia.
  - rewrite <- (Qplus_0_r (pol (L j j))) at 1.
    apply Qplus_le_compat; [apply Qle_refl|].
    apply total_nonneg, Forall_fmap, Forall_seq. intros i [_ Hi]. simpl.
    apply Hpol. lia.
Qed.


End TrustProofs.

(** ** The properties at the example inputs *)

Module ExampleRuns.
Import Examples.

(** Two clients, four rounds, one microstep each, evaluation and
    aggregation every second round. *)
Lemma counters_in_lockstep_witness :
  ∃ s, Lora.loop_top toy 4 1 2 2 2 every_second_round
         (Lora.initial_state toy two_clients 0) 1 s ∧
       Lora.itr toy s = [1; 1].
Proof.
  set (s0 := Lora.initial_state toy two_clients 0).
  assert (∃ s, Lora.loop_top toy 4 1 2 2 2 every_second_round s0 1 s)
    as [s Hs].
  { let r := eval vm_compute in (Lora.setup toy 2 2 every_second_round s0) in
    lazymatch r with
    | (?s1, inr (?n, ?d, ?pe)) =>
        let r' := eval vm_compute in
          (Lora.round toy 4 1 2 2 2 every_second_round n d pe s1) in
        lazymatch r' with
        | (?s2, inr _) =>
            exists s2;
            apply (Lora.top_next toy 4 1 2 2 2 every_second_round s0
                     0 s1 s2 s1 n d pe);
            [ vm_compute; reflexivity
            | apply (Lora.top_first toy 4 1 2 2 2 every_second_round s0
                       s1 (n, d, pe)); vm_compute; reflexivity
            | vm_compute; reflexivity
            | vm_compute; reflexivity ]
        end
    end. }
  exists s. split; [exact Hs|].
  exact (LoraProofs.counters_in_lockstep toy 4 1 2 2 2 every_second_round
           two_clients 0 1 s Hs).
Defined.

Lemma train_lora_returns_witness :
  ∃ s, Lora.train_lora toy 4 1 2 2 2 every_second_round
         (Lora.initial_state toy two_clients 0) = (s, inr (Lora.stats toy s)) ∧
       Lora.itr toy s = [4; 4].
Proof.
  apply (LoraProofs.train_lora_returns toy 4 1 2 2 2 every_second_round
           two_clients 0); [done|lia| |done|done|done|].
  - repeat constructor; by eexists.
  - intros _. split_and!; [lia| |].
    + intros i _. simpl. done.
    + intros mode p shard r. simpl. by eexists.
Defined.

Lemma train_lora_without_scheduler_witness :
  ∃ s pre g,
    Lora.train_lora toy 4 1 2 2 2 every_second_round
      (Lora.initial_state toy
         [unscheduled toy 0%Q tt; scheduled toy 0%Q tt tt] 0)
    = (s, inl AttributeError) ∧
    Lora.itr toy s = [0; 0] ∧
    Lora.log toy s = pre ++ [Lora.EvOptStep toy 0 g] ∧
    forallb (λ e, negb (Lora.is_step e)) pre = true.
Proof.
  apply (LoraProofs.train_lora_without_scheduler toy 4 1 2 2 2
           every_second_round (unscheduled toy 0%Q tt)
           [scheduled toy 0%Q tt tt] 0); [reflexivity|lia|done].
Defined.

Lemma aggregation_rounds_witness :
  trust_freq every_second_round ≠ 0 ∧
  let s := (Lora.train_lora toy 4 1 2 2 2 every_second_round
              (Lora.initial_state toy two_clients 0)).1 in
  Lora.aggregations (Lora.log toy s) = [2; 4] ∧
  Lora.justified (Lora.after_all_steps 2) (Lora.log toy s).
Proof.
  split; [done|].
  destruct (LoraProofs.aggregation_rounds toy 4 1 2 2 2 every_second_round
              two_clients 0) as [Hagg Hafter]; [done|].
  split; [|exact Hafter].
  etransitivity; [exact Hagg|]. vm_compute. reflexivity.
Defined.




(** With [trust_freq = 0] the guard of the aggregation divides by zero at
    the end of the first round, when every counter has reached
    [iterations]. *)
Lemma train_lora_raises_on_zero_trust_freq :
  let run := Lora.train_lora toy 1 1 2 2 2 zero_trust_freq
               (Lora.initial_state toy two_clients 0) in
  run.2 = inl ZeroDivisionError ∧ Lora.itr toy run.1 = [1; 1].
Proof. vm_compute. split; reflexivity. Qed.

(** With an evaluator that raises, the first evaluation, at round 2, ends
    the run with client 0 left in inference mode. *)
Lemma failing_evaluation_leaves_inference_mode :
  let run := Lora.train_lora toy_failing_eval 4 1 2 2 2 every_second_round
               (Lora.initial_state toy_failing_eval
                  [scheduled toy_failing_eval 0%Q tt tt;
                   scheduled toy_failing_eval 0%Q tt tt] 0) in
  run.2 = inl EvaluatorError ∧
  Lora.training toy_failing_eval <$> Lora.clients toy_failing_eval run.1
    = [false; true].
Proof. vm_compute. split; reflexivity. Qed.


End ExampleRuns.

(** ** Edge cases and accounts of the training loop *)

Module LoraCoverage.
Import Lora LoraProofs Accounting.

Section edges.

Context (W : world).
Context (iterations acc_steps batch_size sequence_length eval_freq : Z).
Context (extra_args : args_t).

Implicit Types (s : state W) (cs : list (client W)).

Local Abbreviation train_lora :=
  (Lora.train_lora W iterations acc_steps batch_size sequence_length eval_freq
     extra_args).
Local Abbreviation round :=
  (Lora.round W iterations acc_steps batch_size sequence_length eval_freq
     extra_args).
Local Abbreviation loop_top :=
  (Lora.loop_top W iterations acc_steps batch_size sequence_length eval_freq
     extra_args).

Local Abbreviation env_loaded n :=
  (env_ok_loaded W batch_size sequence_length n).

(** A specification that pins the outcome down gives the outcome. *)
Lemma wp_outcome {A} (m : M W A) s0 (out : state W * (exn + A)) :
  wp W m (λ a s, out = (s, inr a)) (λ e s, out = (s, inl e)) s0 → m s0 = out.
Proof. unfold wp. destruct (m s0) as [s [e|a]]; by intros ->. Qed.

(** X1. With no client, [itr] is the empty list and [itr[-1]] of line 59 raises
    before anything else has happened, whatever [iterations] is. *)
Theorem train_lora_no_clients (r0 : Rng W) :
  train_lora (initial_state W [] r0) = (initial_state W [] r0, inl IndexError).
Proof.
  apply wp_outcome.
  apply (wp_train_lora W iterations acc_steps batch_size sequence_length
           eval_freq extra_args
           (λ _ s, s = initial_state W [] r0)); simpl.
  - done.
  - intros _. unfold compile_events. by destruct (no_compile extra_args).
  - by intros _ s -> _.
  - intros k s Hn. lia.
  - intros k s Hn. lia.
Qed.

(** X2. With [iterations <= 0] the loop body never runs: the call returns the
    empty statistics, one empty list per client and key, and has only put
    the models in training mode (and compiled them, if asked to). *)
Theorem train_lora_nothing_to_do cs (r0 : Rng W) :
  cs ≠ [] → iterations ≤ 0 → batch_size * sequence_length ≠ 0 →
  let n := length cs in
  train_lora (initial_state W cs r0)
  = (State W (with_training W true <$> cs) (replicate n 0) (replicate n 0)
       (empty_stats n) None r0 (compile_events W (no_compile extra_args) n),
     inr (empty_stats n)).
Proof.
  intros Hcs Hit Hbs n. apply wp_outcome.
  set (s1 := State W _ _ _ _ _ _ _).
  apply (wp_train_lora W iterations acc_steps batch_size sequence_length
           eval_freq extra_args (λ _ s, s = s1)); simpl; fold n.
  - done.
  - done.
  - intros Hn. by destruct cs.
  - intros k s _ Hk. lia.
  - by intros k s _ _ _ _ ->.
Qed.

(** X3. With [batch_size * sequence_length = 0] and a client, line 48 divides by
    zero: the call raises before any model is touched. *)
Theorem train_lora_zero_batch_geometry cs (r0 : Rng W) :
  cs ≠ [] → batch_size * sequence_length = 0 →
  let n := length cs in
  train_lora (initial_state W cs r0)
  = (State W cs (replicate n 0) (replicate n 0) (empty_stats n) None r0 [],
     inl ZeroDivisionError).
Proof.
  intros Hcs Hbs n. apply wp_outcome.
  apply (wp_train_lora W iterations acc_steps batch_size sequence_length
           eval_freq extra_args (λ _ _, False)); simpl; fold n.
  - done.
  - intros [Hn|?]; [by destruct cs|done].
  - done.
  - done.
  - done.
Qed.

(** X4. With [trust_freq = 0] the guard of line 82 divides by zero: the first
    round trains every client, and the call raises right after the
    scheduler step of the last one, before the second loop. *)
Theorem train_lora_zero_trust_freq cs (r0 : Rng W) :
  cs ≠ [] → 1 ≤ iterations →
  Forall (λ c, is_Some (scheduler W c)) cs →
  batch_size * sequence_length ≠ 0 →
  trust_freq extra_args = 0 →
  ∃ s, train_lora (initial_state W cs r0) = (s, inl ZeroDivisionError) ∧
       itr W s = replicate (length cs) 1 ∧
       last (log W s) = Some (EvSchedStep W (length cs - 1)).
Proof.
  intros Hcs Hit Hsched Hbs Htf. set (n := length cs).
  assert (Hn : (0 < n)%nat) by (subst n; destruct cs; [done|simpl; lia]).
  set (sched_ok := λ s : state W,
         Forall (λ c, is_Some (scheduler W c)) (clients W s)).
  set (E := λ (e : exn) (s : state W),
         e = ZeroDivisionError ∧ itr W s = replicate n 1 ∧
         last (log W s) = Some (EvSchedStep W (n - 1))).
  cut (wp W train_lora (λ _ _, False) E (initial_state W cs r0)).
  { unfold wp. destruct (train_lora (initial_state W cs r0)) as [s [e|st]];
      [|done]. intros (-> & ? & ?). by exists s. }
  apply (wp_train_lora W iterations acc_steps batch_size sequence_length
           eval_freq extra_args (λ k s, k = O ∧ sched_ok s)); simpl; fold n.
  - done.
  - intros _. split; [done|]. unfold sched_ok. simpl. apply Forall_fmap.
    eapply Forall_impl; [exact Hsched|]. by intros [].
  - lia.
  - intros k s _ Hk Hls [-> Hok].
    apply (wp_round_lockstep W iterations acc_steps batch_size sequence_length
             eval_freq extra_args n _ _ O
             (λ i s, sched_ok s ∧
                     ((0 < i)%nat →
                      last (log W s) = Some (EvSchedStep W (i - 1))))
             (λ _ _, False));
      [apply (env_loaded n)|done|done|split; [done|lia]|..].
    + intros i s1 Hi [Hsh Hitr] [Hs1 _].
      destruct (shaped_lookups W n s1 i Hsh Hi)
        as (c & x & it & _ & _ & _ & _ & Hc & Hx & Hit' & _).
      destruct (env_lookups _ _ _ _ (env_loaded n) Hi)
        as (tr & _ & _ & Htr & _).
      eapply wp_local_step; [done..|].
      intros g1 r1 l1 evs o' p' Hms clip g2 evs' sub' _.
      destruct (scheduler W c) as [sc|] eqn:Hsc.
      2:{ pose proof (Forall_lookup_1 _ _ _ _ Hs1 Hc) as [? ?]. congruence. }
      intros sc' o'' _. split.
      * unfold sched_ok. simpl. apply Forall_insert; [done|]. by eexists.
      * intros _. simpl. rewrite app_assoc, last_snoc.
        by rewrite Nat.sub_0_r.
    + intros s1 [Hsh1 Hitr1] [Hs1 Hl1]. apply wp_maybe_aggregate.
      * intros Hnil. destruct Hsh1 as (_ & Hlen & _). rewrite Hnil in Hlen.
        simpl in Hlen. lia.
      * intros _. split_and!; [done| |by apply Hl1].
        by rewrite Hitr1, counters_0.
      * done.
    + done.
    + done.
  - intros k s _ -> _ _ [Hk _]. lia.
Qed.

Lemma forallb_true_impl {A} (f g : A → bool) (l : list A) :
  (∀ x, f x = true → g x = true) → forallb f l = true → forallb g l = true.
Proof. rewrite !forallb_forall. auto. Qed.

Lemma local_step_no_evaluation i shard mode p ks g r l g1 r1 l1 evs
    (clip : bool) gc m g2 :
  Lora.microsteps W acc_steps batch_size sequence_length
    (type_ctx extra_args) i shard mode p ks g r l = (g1, r1, l1, evs) →
  forallb (λ e, negb (is_evaluation e))
    ((evs ++ (if clip then [EvClip W i gc m] else []) ++ [EvOptStep W i g2])
       ++ [EvSchedStep W i]) = true.
Proof.
  intros Hms. apply microsteps_events in Hms.
  rewrite !forallb_app. destruct clip; simpl; rewrite !andb_true_r;
    (eapply forallb_true_impl; [|exact Hms]); by intros [].
Qed.

Lemma compile_no_evaluation n :
  forallb (λ e, negb (is_evaluation e))
    (compile_events W (no_compile extra_args) n) = true.
Proof.
  unfold compile_events. destruct (no_compile extra_args); [done|].
  apply forallb_forall. intros e He. by apply in_map_iff in He as (? & <- & _).
Qed.

(** X5. With [eval_freq = 0] the guard of line 92 divides by zero: the first
    round trains every client and aggregates if it is due, and the call
    raises in the second loop, right after the first client's gradients
    were cleared. *)
Theorem train_lora_zero_eval_freq cs (r0 : Rng W) :
  cs ≠ [] → 1 ≤ iterations →
  Forall (λ c, is_Some (scheduler W c)) cs →
  batch_size * sequence_length ≠ 0 →
  trust_freq extra_args ≠ 0 →
  eval_freq = 0 →
  ∃ s, train_lora (initial_state W cs r0) = (s, inl ZeroDivisionError) ∧
       itr W s = replicate (length cs) 1 ∧
       last (log W s) = Some (EvZeroGrad W 0).
Proof.
  intros Hcs Hit Hsched Hbs Htf Hef. set (n := length cs).
  assert (Hn : (0 < n)%nat) by (subst n; destruct cs; [done|simpl; lia]).
  set (sched_ok := λ s : state W,
         Forall (λ c, is_Some (scheduler W c)) (clients W s)).
  set (E := λ (e : exn) (s : state W),
         e = ZeroDivisionError ∧ itr W s = replicate n 1 ∧
         last (log W s) = Some (EvZeroGrad W 0)).
  cut (wp W train_lora (λ _ _, False) E (initial_state W cs r0)).
  { unfold wp. destruct (train_lora (initial_state W cs r0)) as [s [e|st]];
      [|done]. intros (-> & ? & ?). by exists s. }
  apply (wp_train_lora W iterations acc_steps batch_size sequence_length
           eval_freq extra_args (λ k s, k = O ∧ sched_ok s)); simpl; fold n.
  - done.
  - intros _. split; [done|]. unfold sched_ok. simpl. apply Forall_fmap.
    eapply Forall_impl; [exact Hsched|]. by intros [].
  - lia.
  - intros k s _ Hk Hls [-> Hok].
    apply (wp_round_lockstep W iterations acc_steps batch_size sequence_length
             eval_freq extra_args n _ _ O (λ _, sched_ok) (λ i _, i = O));
      [apply (env_loaded n)|done|done|done|..].
    + intros i s1 Hi [Hsh Hitr] Hs1.
      destruct (shaped_lookups W n s1 i Hsh Hi)
        as (c & x & it & _ & _ & _ & _ & Hc & Hx & Hit' & _).
      destruct (env_lookups _ _ _ _ (env_loaded n) Hi)
        as (tr & _ & _ & Htr & _).
      eapply wp_local_step; [done..|].
      intros g1 r1 l1 evs o' p' Hms clip g2 evs' sub' _.
      destruct (scheduler W c) as [sc|] eqn:Hsc.
      2:{ pose proof (Forall_lookup_1 _ _ _ _ Hs1 Hc) as [? ?]. congruence. }
      intros sc' o'' _. unfold sched_ok. simpl.
      apply Forall_insert; [done|]. by eexists.
    + intros s1 [Hsh1 Hitr1] Hs1. apply wp_maybe_aggregate; [|done|].
      { intros Hnil. destruct Hsh1 as (_ & Hlen & _). rewrite Hnil in Hlen.
        simpl in Hlen. lia. }
      intros r _ _. destruct (_ && _); [|done].
      by apply wp_call_aggregate.
    + intros i s1 Hi [Hsh1 Hitr1] ->.
      destruct (shaped_lookups W n s1 O Hsh1 Hi)
        as (c & x & it & _ & _ & _ & _ & Hc & Hx & Hit' & _).
      eapply wp_after_step; [done..| |done].
      intros _. split_and!; simpl; [done| |by rewrite last_snoc].
      by rewrite Hitr1, counters_0.
    + intros s1 _ Hn'. lia.
  - intros k s _ -> _ _ [Hk _]. lia.
Qed.

(** X7. On a process that is not the master, lines 94-130 never run: the
    evaluator is not called, nothing is written to [stats] or sent to wandb,
    whatever the exit; and a call that returns, returns the empty
    statistics. *)
Theorem worker_process_records_nothing cs (r0 : Rng W) :
  is_master_process W = false →
  let run := train_lora (initial_state W cs r0) in
  forallb (λ e, negb (is_evaluation e)) (log W run.1) = true ∧
  ∀ st, run.2 = inr st → st = empty_stats (length cs).
Proof.
  intros Hm. set (n := length cs).
  set (Φ := λ s : state W,
         forallb (λ e, negb (is_evaluation e)) (log W s) = true).
  cut (wp W train_lora (λ st s, Φ s ∧ st = empty_stats n) (λ _, Φ)
         (initial_state W cs r0)).
  { unfold wp. simpl.
    destruct (train_lora (initial_state W cs r0)) as [s [e|st]]; simpl.
    - by intros ?.
    - intros [? ->]. split; [done|]. by intros ? [= <-]. }
  apply (wp_train_lora W iterations acc_steps batch_size sequence_length
           eval_freq extra_args
           (λ _ s, Φ s ∧ stats W s = empty_stats n)); simpl; fold n.
  - done.
  - intros _. split; [|done]. apply compile_no_evaluation.
  - by intros _ s [? _] _.
  - intros k s Hn Hk Hls HJ.
    apply (wp_round_lockstep W iterations acc_steps batch_size sequence_length
             eval_freq extra_args n _ _ k
             (λ _ s, Φ s ∧ stats W s = empty_stats n)
             (λ _ s, Φ s ∧ stats W s = empty_stats n));
      [apply (env_loaded n)|done|done|done|..].
    + intros i s1 Hi [Hsh Hitr] [Hq Hst].
      destruct (shaped_lookups W n s1 i Hsh Hi)
        as (c & x & it & _ & _ & _ & _ & Hc & Hx & Hit' & _).
      destruct (env_lookups _ _ _ _ (env_loaded n) Hi)
        as (tr & _ & _ & Htr & _).
      eapply wp_local_step; [done..|].
      intros g1 r1 l1 evs o' p' Hms clip g2 evs' sub' _.
      pose proof (local_step_no_evaluation _ _ _ _ _ _ _ _ _ _ _ _ clip g1
                    (grad_clip extra_args) g2 Hms) as Hev.
      fold evs' in Hev. rewrite forallb_app in Hev.
      apply andb_true_iff in Hev as [Hev' _].
      destruct (scheduler W c) as [sc|].
      * intros sc' o'' _. split; [|done]. unfold Φ. simpl.
        rewrite app_assoc, !forallb_app. unfold Φ in Hq. by rewrite Hq, Hev'.
      * unfold Φ. simpl. rewrite forallb_app. unfold Φ in Hq.
        by rewrite Hq, Hev'.
    + intros s1 [Hsh1 Hitr1] [Hq Hst].
      apply wp_maybe_aggregate; [done..|].
      intros r _ _. destruct (_ && _); [|done].
      apply wp_call_aggregate. intros ps r' _. split; [|done].
      unfold Φ in *. simpl. by rewrite forallb_app, Hq.
    + intros i s1 Hi [Hsh1 Hitr1] [Hq Hst].
      destruct (shaped_lookups W n s1 i Hsh1 Hi)
        as (c & x & it & _ & _ & _ & _ & Hc & Hx & Hit' & _).
      assert (Hq' : Φ (State W (<[i := with_grad W None c]> (clients W s1))
                         (itr W s1) (substep W s1) (stats W s1) (loss W s1)
                         (rng W s1) (log W s1 ++ [EvZeroGrad W i]))).
      { unfold Φ in *. simpl. by rewrite forallb_app, Hq. }
      eapply wp_after_step; [done..| |]; [done|].
      intros _. by rewrite Hm, andb_false_r.
    + intros s1 _ [Hq Hst]. by split.
  - by intros k s _ _ _ _ [? <-].
Qed.

Local Abbreviation per_epoch n :=
  ((λ t : Shard, Z.of_nat (length t) `div` (batch_size * sequence_length))
     <$> d_train (loaded_data W n)).

(** What the setup returns and leaves, when it returns. *)
Lemma setup_returns s0 s1 env :
  Lora.setup W batch_size sequence_length extra_args s0 = (s1, inr env) →
  let n := length (clients W s0) in
  env = (n, loaded_data W n, per_epoch n) ∧
  lockstep W n 0 0 s1 ∧
  substep W s1 = replicate n 0 ∧ stats W s1 = empty_stats n.
Proof.
  intros Hs n.
  apply (wp_returns W
           (Lora.setup W batch_size sequence_length extra_args)
           (λ env s1, env = (n, loaded_data W n, per_epoch n) ∧
                      lockstep W n 0 0 s1 ∧
                      substep W s1 = replicate n 0 ∧
                      stats W s1 = empty_stats n)
           (λ _ _, True) s0 s1 env); [|done].
  apply wp_setup; [done|]. intros _. split_and!; [done| |done|done].
  split; [|by rewrite counters_0]. unfold shaped, empty_stats.
  cbn [clients itr substep stats train_loss val_loss val_pp val_acc].
  by rewrite length_fmap, !length_replicate.
Qed.

(** The second loop leaves the counters alone, on both exits. *)
Lemma after_step_counters n i s :
  (i < n)%nat → shaped W n s →
  let R s' := itr W s' = itr W s ∧ substep W s' = substep W s in
  wp W (after_step W iterations acc_steps batch_size sequence_length eval_freq
          extra_args n (loaded_data W n) (per_epoch n) i)
    (λ _, R) (λ _, R) s.
Proof.
  intros Hi Hsh R.
  destruct (shaped_lookups W n s i Hsh Hi)
    as (c & x & it & a1 & a2 & a3 & a4 & Hc & Hx & Hit & H1 & H2 & H3 & H4).
  destruct (env_lookups _ _ _ _ (env_loaded n) Hi) as (_ & va & pe & _ & Hva & Hpe).
  assert (Hi' : (i < length (clients W s))%nat) by by eapply lookup_lt_Some.
  eapply wp_after_step; [done..| |]; [done|].
  intros _. destruct (_ && _); [|done].
  eapply wp_evaluate; simpl; [by apply list_lookup_insert_eq|done..| |];
    [done|].
  intros _. destruct (loss W s) as [l|]; [|done].
  intros res r' _. by destruct res as [[[va' vl'] vp']|].
Qed.

Local Abbreviation per_round := (Z.of_nat (Z.to_nat acc_steps)).

(** One round adds [max(acc_steps, 0)] to every substep counter. *)
Lemma round_substeps n k s :
  (0 < n)%nat → lockstep W n k 0 s →
  substep W s = (λ c, c * per_round) <$> itr W s →
  wp W (round n (loaded_data W n) (per_epoch n))
    (λ _ s', substep W s' = (λ c, c * per_round) <$> itr W s')
    (λ _ _, True) s.
Proof.
  intros Hn Hls Hinv.
  set (Inv := λ s : state W, substep W s = (λ c, c * per_round) <$> itr W s).
  apply (wp_round_lockstep W iterations acc_steps batch_size sequence_length
           eval_freq extra_args n _ _ k (λ _, Inv) (λ _, Inv));
    [apply (env_loaded n)|done|done|done|..].
  - intros i s1 Hi [Hsh Hitr] Hs1.
    destruct (shaped_lookups W n s1 i Hsh Hi)
      as (c & x & it & _ & _ & _ & _ & Hc & Hx & Hit' & _).
    destruct (env_lookups _ _ _ _ (env_loaded n) Hi) as (tr & _ & _ & Htr & _).
    eapply wp_local_step; [done..|].
    intros g1 r1 l1 evs o' p' Hms clip g2 evs' sub' _.
    destruct (scheduler W c) as [sc|]; [|done].
    intros sc' o'' _. unfold Inv. simpl. subst sub'.
    rewrite list_fmap_insert. unfold Inv in Hs1. rewrite Hs1.
    f_equal. rewrite Hs1, list_lookup_fmap, Hit' in Hx. simplify_eq/=.
    unfold range. rewrite length_fmap, length_seq. lia.
  - intros s1 [Hsh1 Hitr1] Hs1. apply wp_maybe_aggregate; [done..|].
    intros r _ _. destruct (_ && _); [|done].
    by apply wp_call_aggregate.
  - intros i s1 Hi [Hsh1 Hitr1] Hs1.
    eapply wp_mono; [| |by apply (after_step_counters n)]; simpl; [|done].
    intros _ s' [Hi' Hs']. unfold Inv in *. by rewrite Hs', Hi'.
  - done.
Qed.

(** X8. At every round boundary [substep[i]] is the number of completed rounds
    times the number of microsteps of a round, [max(acc_steps, 0)], for
    every client. *)
Theorem substeps_in_lockstep cs (r0 : Rng W) (k : nat) s :
  loop_top (initial_state W cs r0) k s →
  substep W s = replicate (length cs) (Z.of_nat k * Z.max 0 acc_steps).
Proof.
  intros Htop. set (n := length cs).
  assert (Hinv : substep W s = (λ c, c * per_round) <$> itr W s).
  { induction Htop as [s env Hs|k s s' s1 m data pes Hs Htop IH Hcond Hround].
    - apply setup_returns in Hs as (_ & [_ Hitr] & Hsub & _).
      rewrite Hsub, Hitr, counters_0, fmap_replicate. done.
    - pose proof (loop_top_lockstep _ _ _ _ _ _ _ _ _ _ Htop) as Hls.
      apply setup_returns in Hs as (Henv & _). simpl in Henv, Hls.
      fold n in Henv, Hls. simplify_eq.
      assert (Hn : (0 < n)%nat).
      { destruct (Nat.eq_dec n O) as [Hz|]; [|lia].
        destruct Hls as [(_ & Hlen & _) _]. rewrite Hz in Hlen.
        apply nil_length_inv in Hlen.
        unfold Lora.loop_cond, gets, index_last, mbind, M_bind in Hcond.
        rewrite Hlen in Hcond. done. }
      apply (wp_returns W (round n (loaded_data W n) (per_epoch n))
               (λ _ s', substep W s' = (λ c, c * per_round) <$> itr W s')
               (λ _ _, True) s s' tt); [|done].
      by apply (round_substeps n k). }
  apply loop_top_lockstep in Htop as [_ Hitr]. simpl in Hitr. fold n in Hitr.
  rewrite Hinv, Hitr, counters_0, fmap_replicate. f_equal. lia.
Qed.

Lemma evaluations_S k :
  evaluations iterations eval_freq (S k)
  = (evaluations iterations eval_freq k
     + if eval_due iterations eval_freq (Z.of_nat (S k)) then 1 else 0)%nat.
Proof.
  unfold evaluations. rewrite seq_S, fmap_app, List.filter_app, length_app.
  simpl. by destruct (eval_due _ _ _).
Qed.

Lemma col_lengths_insert f i a x col :
  col_lengths f col → col !! i = Some a →
  col_lengths (λ j, if decide (j = i) then S (f i) else f j)
    (<[i := a ++ [x]]> col).
Proof.
  intros Hcol Ha j l Hl. destruct (decide (j = i)) as [->|Hne].
  - rewrite list_lookup_insert_eq in Hl by by eapply lookup_lt_Some.
    simplify_eq. rewrite length_app. simpl. rewrite (Hcol i a Ha). lia.
  - rewrite list_lookup_insert_ne in Hl by done. by apply Hcol.
Qed.

Lemma col_lengths_ext f g col :
  (∀ j, (j < length col)%nat → f j = g j) → col_lengths f col → col_lengths g col.
Proof.
  intros Hfg Hcol j l Hl. rewrite <- Hfg by by eapply lookup_lt_Some.
  by apply Hcol.
Qed.

Lemma col_lengths_entries n m col :
  length col = n → col_lengths (λ _, m) col → entries n m col.
Proof.
  intros Hlen Hcol. split; [done|]. apply Forall_lookup. intros j l Hl.
  by apply (Hcol j).
Qed.

(** X9. On the master process a call that returns has recorded, for every
    client and under every key, one entry per evaluated round: the rounds
    [r] of [1 .. iterations] with [r % eval_freq == 0] or
    [r == iterations]. *)
Theorem one_entry_per_evaluation cs (r0 : Rng W) s st :
  is_master_process W = true →
  train_lora (initial_state W cs r0) = (s, inr st) →
  let m := evaluations iterations eval_freq (Z.to_nat iterations) in
  entries (length cs) m (train_loss st) ∧ entries (length cs) m (val_loss st) ∧
  entries (length cs) m (val_pp st) ∧ entries (length cs) m (val_acc st).
Proof.
  intros Hm Hrun m. set (n := length cs).
  set (J := λ (k : nat) (s : state W),
         stats_lengths (λ _, evaluations iterations eval_freq k) (stats W s)).
  apply (wp_returns W train_lora
           (λ st s, entries n m (train_loss st) ∧ entries n m (val_loss st) ∧
                    entries n m (val_pp st) ∧ entries n m (val_acc st))
           (λ _ _, True) (initial_state W cs r0) s st); [|done].
  apply (wp_train_lora W iterations acc_steps batch_size sequence_length
           eval_freq extra_args J); simpl; fold n.
  - done.
  - intros _. unfold J, stats_lengths, empty_stats, col_lengths. simpl.
    split_and!; intros j l [-> _]%lookup_replicate; done.
  - done.
  - intros k s1 Hn Hk Hls HJ.
    set (d := if eval_due iterations eval_freq (Z.of_nat (S k))
              then 1%nat else 0%nat).
    apply (wp_round_lockstep W iterations acc_steps batch_size sequence_length
             eval_freq extra_args n _ _ k (λ _, J k)
             (λ i s, stats_lengths
                       (λ j, (evaluations iterations eval_freq k
                              + if decide (j < i)%nat then d else 0)%nat)
                       (stats W s)));
      [apply (env_loaded n)|done|done|done|..].
    + intros i s2 Hi [Hsh Hitr] Hs2.
      destruct (shaped_lookups W n s2 i Hsh Hi)
        as (c & x & it & _ & _ & _ & _ & Hc & Hx & Hit' & _).
      destruct (env_lookups _ _ _ _ (env_loaded n) Hi) as (tr & _ & _ & Htr & _).
      eapply wp_local_step; [done..|].
      intros g1 r1 l1 evs o' p' Hms clip g2 evs' sub' _.
      destruct (scheduler W c) as [sc|]; [|done]. by intros sc' o'' _.
    + intros s2 [Hsh2 Hitr2] Hs2.
      assert (Hs2' : stats_lengths
                (λ j, (evaluations iterations eval_freq k
                       + if decide (j < 0)%nat then d else 0)%nat) (stats W s2)).
      { destruct Hs2 as (H1 & H2 & H3 & H4).
        split_and!; (eapply col_lengths_ext; [|done]); intros j _; simpl; lia. }
      apply wp_maybe_aggregate; [done..|].
      intros r _ _. destruct (_ && _); [|done].
      by apply wp_call_aggregate.
    + intros i s2 Hi [Hsh2 Hitr2] Hs2.
      destruct (shaped_lookups W n s2 i Hsh2 Hi)
        as (c & x & it & a1 & a2 & a3 & a4 & Hc & Hx & Hit' & H1 & H2 & H3 & H4).
      destruct (env_lookups _ _ _ _ (env_loaded n) Hi)
        as (_ & va & pe & _ & Hva & Hpe).
      assert (it = Z.of_nat (S k)) as ->.
      { rewrite Hitr2, counters_0_lookup in Hit' by done. by simplify_eq. }
      assert (Hi' : (i < length (clients W s2))%nat) by by eapply lookup_lt_Some.
      assert (Hskip : d = 0%nat →
                stats_lengths
                  (λ j, (evaluations iterations eval_freq k
                         + if decide (j < S i)%nat then d else 0)%nat)
                  (stats W s2)).
      { intros Hd. destruct Hs2 as (G1 & G2 & G3 & G4).
        split_and!; (eapply col_lengths_ext; [|done]); intros j _; simpl;
          rewrite Hd; repeat case_decide; lia. }
      eapply wp_after_step; [done..| |]; [done|].
      intros _. rewrite Hm, andb_true_r.
      change ((Z.of_nat (S k) `mod` eval_freq =? 0)
              || (Z.of_nat (S k) =? iterations))
        with (eval_due iterations eval_freq (Z.of_nat (S k))).
      destruct (eval_due iterations eval_freq (Z.of_nat (S k))) eqn:Hdue;
        [|by apply Hskip].
      eapply wp_evaluate; simpl; [by apply list_lookup_insert_eq|done..| |];
        [done|].
      intros _. destruct (loss W s2) as [l|]; [|done].
      intros res r' _. destruct res as [[[va' vl'] vp']|]; [|done].
      split; [done|]. intros evs _. simpl.
      destruct Hs2 as (G1 & G2 & G3 & G4).
      assert (Hlen : ∀ col a (x : Q),
                length col = n →
                col_lengths
                  (λ j, (evaluations iterations eval_freq k
                         + if decide (j < i)%nat then d else 0)%nat) col →
                col !! i = Some a →
                col_lengths
                  (λ j, (evaluations iterations eval_freq k
                         + if decide (j < S i)%nat then d else 0)%nat)
                  (<[i := a ++ [x]]> col)).
      { intros col a x0 Hcl Hcol Ha.
        eapply col_lengths_ext; [|by apply col_lengths_insert].
        intros j _. simpl. subst d. repeat case_decide; lia. }
      destruct Hsh2 as (_ & _ & _ & L1 & L2 & L3 & L4).
      split_and!; by apply Hlen.
    + intros s2 [Hsh2 _] Hs2. split; [done|]. unfold J.
      destruct Hs2 as (G1 & G2 & G3 & G4). destruct Hsh2 as (_ & _ & _ & L1 & L2 & L3 & L4).
      split_and!; (eapply col_lengths_ext; [|done]); intros j Hj; simpl;
        rewrite evaluations_S; fold d; rewrite decide_True by lia; done.
  - intros k s1 _ -> _ [Hsh _] (G1 & G2 & G3 & G4).
    destruct Hsh as (_ & _ & _ & L1 & L2 & L3 & L4).
    split_and!; by apply col_lengths_entries.
Qed.

Lemma sched_steps_app i (l evs : list (event W)) :
  sched_steps i (l ++ evs) = (sched_steps i l + sched_steps i evs)%nat.
Proof. unfold sched_steps. by rewrite List.filter_app, length_app. Qed.

Lemma sched_steps_none i (evs : list (event W)) :
  forallb (λ e, negb (is_step e)) evs = true → sched_steps i evs = 0%nat.
Proof.
  unfold sched_steps. induction evs as [|e evs IH]; [done|]. simpl.
  intros [He Hevs]%andb_true_iff. destruct e; simpl in *; try done; by apply IH.
Qed.

(** The steps in the events of one local step of client [i]. *)
Lemma local_step_counts i j shard mode p ks g r l g1 r1 l1 evs
    (clip : bool) gc m g2 :
  Lora.microsteps W acc_steps batch_size sequence_length
    (type_ctx extra_args) i shard mode p ks g r l = (g1, r1, l1, evs) →
  let evs' := (evs ++ (if clip then [EvClip W i gc m] else [])
                 ++ [EvOptStep W i g2]) ++ [EvSchedStep W i] in
  opt_steps j evs' = (if decide (i = j) then 1 else 0)%nat ∧
  sched_steps j evs' = (if decide (i = j) then 1 else 0)%nat.
Proof.
  intros Hms evs'. split.
  - by destruct (local_events W acc_steps batch_size sequence_length extra_args
                   i shard mode p ks g r l g1 r1 l1 evs clip gc m g2 j Hms)
      as (_ & _ & _ & ?).
  - apply microsteps_events in Hms. subst evs'.
    rewrite !sched_steps_app.
    rewrite (sched_steps_none j evs)
      by (eapply forallb_true_impl; [|exact Hms]; by intros []).
    destruct clip; unfold sched_steps; simpl;
      repeat case_bool_decide; repeat case_decide; simpl; congruence.
Qed.

(** X10. A call that returns has stepped the optimizer and the scheduler of
    every client once per round, [max(iterations, 0)] times in all. *)
Theorem one_step_per_round cs (r0 : Rng W) s st (i : nat) :
  train_lora (initial_state W cs r0) = (s, inr st) →
  (i < length cs)%nat →
  opt_steps i (log W s) = Z.to_nat iterations ∧
  sched_steps i (log W s) = Z.to_nat iterations.
Proof.
  intros Hrun Hi. set (n := length cs).
  set (J := λ (f : nat → nat) (s : state W),
         ∀ j, (j < n)%nat →
              opt_steps j (log W s) = f j ∧ sched_steps j (log W s) = f j).
  apply (wp_returns W train_lora
           (λ _ s, opt_steps i (log W s) = Z.to_nat iterations ∧
                   sched_steps i (log W s) = Z.to_nat iterations)
           (λ _ _, True) (initial_state W cs r0) s st); [|done].
  apply (wp_train_lora W iterations acc_steps batch_size sequence_length
           eval_freq extra_args (λ k, J (λ _, k))); simpl; fold n.
  - done.
  - intros _ j _.
    assert (Hc : forallb (λ e : event W, negb (is_step e))
                   (compile_events W (no_compile extra_args) n) = true).
    { unfold compile_events. destruct (no_compile extra_args); [done|].
      apply forallb_forall. intros e He.
      by apply in_map_iff in He as (? & <- & _). }
    by rewrite opt_steps_none, sched_steps_none.
  - done.
  - intros k s1 Hn Hk Hls HJ.
    apply (wp_round_lockstep W iterations acc_steps batch_size sequence_length
             eval_freq extra_args n _ _ k
             (λ i, J (λ j, if decide (j < i)%nat then S k else k))
             (λ _, J (λ _, S k)));
      [apply (env_loaded n)|done|done|..].
    + intros j Hj. rewrite decide_False by lia. by apply HJ.
    + intros i' s2 Hi' [Hsh Hitr] Hs2.
      destruct (shaped_lookups W n s2 i' Hsh Hi')
        as (c & x & it & _ & _ & _ & _ & Hc & Hx & Hit' & _).
      destruct (env_lookups _ _ _ _ (env_loaded n) Hi') as (tr & _ & _ & Htr & _).
      eapply wp_local_step; [done..|].
      intros g1 r1 l1 evs o' p' Hms clip g2 evs' sub' _.
      destruct (scheduler W c) as [sc|]; [|done].
      intros sc' o'' _ j Hj. simpl.
      destruct (local_step_counts i' j _ _ _ _ _ _ _ _ _ _ _ clip g1
                  (grad_clip extra_args) g2 Hms) as [Ho Hs].
      destruct (Hs2 j Hj) as [Ho' Hs'].
      rewrite opt_steps_app, sched_steps_app. subst evs'.
      rewrite Ho, Hs, Ho', Hs'. repeat case_decide; lia.
    + intros s2 [Hsh2 Hitr2] Hs2.
      assert (Hs2' : J (λ _, S k) s2).
      { intros j Hj. specialize (Hs2 j Hj). simpl in Hs2.
        by rewrite decide_True in Hs2 by done. }
      apply wp_maybe_aggregate; [done..|].
      intros r _ _. destruct (_ && _); [|done].
      apply wp_call_aggregate. intros ps r' _ j Hj. simpl.
      rewrite opt_steps_quiet, (sched_steps_app j), (sched_steps_none j [_])
        by done.
      rewrite Nat.add_0_r. by apply Hs2'.
    + intros i' s2 Hi' [Hsh2 Hitr2] Hs2.
      eapply wp_mono;
        [| |by apply (after_step_effect W iterations acc_steps batch_size
                        sequence_length eval_freq extra_args n
                        (loaded_data W n) (per_epoch n) n i' s2
                        (env_loaded n))]; simpl; [|done].
      intros _ s' (_ & _ & _ & evs & Hlog & Htrace) j Hj.
      apply eval_trace_quiet in Htrace.
      assert (Hq : forallb (λ e : event W, negb (is_step e))
                     (EvZeroGrad W i' :: evs) = true).
      { simpl. eapply forallb_true_impl; [|exact Htrace].
        by intros e [[? _]%andb_true_iff _]%andb_true_iff. }
      rewrite Hlog, opt_steps_quiet, sched_steps_app, (sched_steps_none j (_ :: _))
        by done.
      rewrite Nat.add_0_r. by apply Hs2.
    + done.
  - intros k s1 _ -> _ _ HJ. by apply HJ.
Qed.

(** X6. With [acc_steps <= 0] no microstep ever binds the local [loss], while
    the optimizers are stepped all the same: on the master process the first
    evaluation that is due finds [loss] unbound at line 97, and the call
    raises with nothing recorded. *)
Theorem train_lora_without_microsteps cs (r0 : Rng W) :
  cs ≠ [] → 1 ≤ iterations → acc_steps ≤ 0 →
  is_master_process W = true →
  Forall (λ c, is_Some (scheduler W c)) cs →
  trust_freq extra_args ≠ 0 → eval_freq ≠ 0 →
  batch_size * sequence_length ≠ 0 →
  (∀ i, (i < length cs)%nat →
     Z.of_nat (length (memmap W TrainBin i))
       `div` (batch_size * sequence_length) ≠ 0) →
  ∃ s r, train_lora (initial_state W cs r0) = (s, inl UnboundLocalError) ∧
         itr W s = replicate (length cs) r ∧ 1 ≤ r ≤ iterations ∧
         eval_due iterations eval_freq r = true ∧
         stats W s = empty_stats (length cs).
Proof.
  intros Hcs Hit Hacc Hm Hsched Htf Hef Hbs Hpes. set (n := length cs).
  assert (Hn : (0 < n)%nat) by (subst n; destruct cs; [done|simpl; lia]).
  set (ok := λ s : state W,
         Forall (λ c, is_Some (scheduler W c)) (clients W s) ∧
         loss W s = None ∧ stats W s = empty_stats n).
  set (E := λ (e : exn) (s : state W),
         e = UnboundLocalError ∧
         ∃ r, itr W s = replicate n r ∧ 1 ≤ r ≤ iterations ∧
              eval_due iterations eval_freq r = true ∧
              stats W s = empty_stats n).
  cut (wp W train_lora (λ _ _, False) E (initial_state W cs r0)).
  { unfold wp. destruct (train_lora (initial_state W cs r0)) as [s [e|st]];
      [|done]. intros (-> & r & ?). by exists s, r. }
  apply (wp_train_lora W iterations acc_steps batch_size sequence_length
           eval_freq extra_args
           (λ k s, ok s ∧ ∀ r : nat, (1 ≤ r ≤ k)%nat →
                          eval_due iterations eval_freq (Z.of_nat r) = false));
    simpl; fold n.
  - done.
  - intros _. split; [|intros r; lia]. split_and!; [|done..]. simpl.
    apply Forall_fmap. eapply Forall_impl; [exact Hsched|]. by intros [].
  - lia.
  - intros k s _ Hk Hls [Hok Hnot].
    apply (wp_round_lockstep W iterations acc_steps batch_size sequence_length
             eval_freq extra_args n _ _ k (λ _, ok)
             (λ i s, ok s ∧
                     ((0 < i)%nat →
                      eval_due iterations eval_freq (Z.of_nat (S k)) = false)));
      [apply (env_loaded n)|done|done|done|..].
    + intros i s1 Hi [Hsh Hitr] (Hs1 & Hl1 & Hst1).
      destruct (shaped_lookups W n s1 i Hsh Hi)
        as (c & x & it & _ & _ & _ & _ & Hc & Hx & Hit' & _).
      destruct (env_lookups _ _ _ _ (env_loaded n) Hi) as (tr & _ & _ & Htr & _).
      eapply wp_local_step; [done..|].
      intros g1 r1 l1 evs o' p' Hms clip g2 evs' sub' _.
      rewrite range_empty in Hms by done. simpl in Hms. simplify_eq.
      destruct (scheduler W c) as [sc|] eqn:Hsc.
      2:{ pose proof (Forall_lookup_1 _ _ _ _ Hs1 Hc) as [? ?]. congruence. }
      intros sc' o'' _. split_and!; simpl; [|done..].
      apply Forall_insert; [done|]. by eexists.
    + intros s1 [Hsh1 Hitr1] (Hs1 & Hl1 & Hst1).
      apply wp_maybe_aggregate; [|done|].
      { intros Hnil. destruct Hsh1 as (_ & Hlen & _). rewrite Hnil in Hlen.
        simpl in Hlen. lia. }
      intros r _ _. destruct (_ && _).
      * apply wp_call_aggregate. intros ps r' _.
        split; [|lia]. split_and!; simpl; [|done..].
        apply Forall_aggregated; [by intros []|done].
      * split; [done|lia].
    + intros i s1 Hi [Hsh1 Hitr1] [Hok1 Hdue].
      destruct Hok1 as (Hs1 & Hl1 & Hst1).
      destruct (shaped_lookups W n s1 i Hsh1 Hi)
        as (c & x & it & a1 & a2 & a3 & a4 & Hc & Hx & Hit' & H1 & H2 & H3 & H4).
      destruct (env_lookups _ _ _ _ (env_loaded n) Hi)
        as (_ & va & pe & _ & Hva & Hpe).
      assert (it = Z.of_nat (S k)) as ->.
      { rewrite Hitr1, counters_0_lookup in Hit' by done. by simplify_eq. }
      assert (Hi' : (i < length (clients W s1))%nat) by by eapply lookup_lt_Some.
      eapply wp_after_step; [done..|]. intros _. rewrite Hm, andb_true_r.
      change ((Z.of_nat (S k) `mod` eval_freq =? 0)
              || (Z.of_nat (S k) =? iterations))
        with (eval_due iterations eval_freq (Z.of_nat (S k))).
      destruct (eval_due iterations eval_freq (Z.of_nat (S k))) eqn:Hd.
      * eapply wp_evaluate; simpl; [by apply list_lookup_insert_eq|done..| |].
        { intros ->. exfalso. apply per_epoch_lookup in Hpe. by eapply Hpes. }
        intros _. rewrite Hl1. split; [done|]. exists (Z.of_nat (S k)).
        simpl. rewrite Hitr1, counters_0.
        split; [done|]. split; [lia|]. split; [exact Hd|exact Hst1].
      * split; [|done]. split_and!; simpl; [|done..].
        apply Forall_insert; [done|].
        pose proof (Forall_lookup_1 _ _ _ _ Hs1 Hc) as Hsc. by destruct c.
    + intros s1 _ [Hok1 Hd]. split; [done|]. split; [done|].
      intros r Hr. destruct (decide (r = S k)) as [->|]; [apply Hd; lia|].
      apply Hnot. lia.
  - intros k s _ -> _ _ [_ Hnot].
    specialize (Hnot (Z.to_nat iterations)). unfold eval_due in Hnot.
    rewrite Z2Nat.id, Z.eqb_refl, orb_true_r in Hnot by lia.
    by specialize (Hnot ltac:(lia)).
Qed.

End edges.
End LoraCoverage.

(** ** Outcomes and effects of the entry point *)

Module MainCoverage.
Import Main MainProofs Effects.

(** *** Paths *)

Lemma open_ended_cons c s : c ≠ "/"%char → s = "" ∨ open_ended s →
  open_ended (String c s).
Proof.
  intros Hc [->|[Hne Hs]]; split; try done.
  - simpl. by rewrite bool_decide_eq_false_2.
  - simpl. by destruct s.
Qed.

Lemma open_ended_append s t : open_ended t → open_ended (s +:+ t).
Proof.
  intros [Hne Ht]. induction s as [|c s [IH1 IH2]]; [done|]. split; [done|].
  simpl. by destruct (s +:+ t).
Qed.

Lemma pretty_N_char_not_sep x : pretty_N_char x ≠ "/"%char.
Proof. unfold pretty_N_char. by repeat case_match. Qed.

Lemma pretty_N_go_open_ended x s :
  (0 < x)%N ∨ open_ended s → s = "" ∨ open_ended s →
  open_ended (pretty_N_go x s).
Proof.
  revert s. induction (N.lt_wf_0 x) as [x _ IH]; intros s Hx Hs.
  assert (x = 0 ∨ 0 < x)%N as [->|Hpos] by lia.
  - rewrite pretty_N_go_0. destruct Hx as [?|?]; [lia|done].
  - rewrite pretty_N_go_step by done.
    assert (open_ended (String (pretty_N_char (x `mod` 10)) s))
      by (apply open_ended_cons; [apply pretty_N_char_not_sep|done]).
    apply IH; [by apply N.div_lt|by right..].
Qed.

Lemma pretty_N_open_ended (x : N) : open_ended (pretty x).
Proof.
  unfold pretty, pretty_N. case_decide; [done|].
  apply pretty_N_go_open_ended; [left; lia|by left].
Qed.

Lemma pretty_Z_open_ended (x : Z) : open_ended (pretty x).
Proof.
  destruct x as [|p|p]; unfold pretty, pretty_Z; [done|..].
  - apply pretty_N_open_ended.
  - apply open_ended_append, pretty_N_open_ended.
Qed.

Lemma join_step_open_ended path b : open_ended b → open_ended (join_step path b).
Proof.
  intros Hb. unfold join_step. repeat case_match; [done|..];
    by repeat apply open_ended_append.
Qed.

Lemma forallb_weaken {A} (f g : A → bool) (l : list A) :
  (∀ x, f x = true → g x = true) → forallb f l = true → forallb g l = true.
Proof. rewrite !forallb_forall. auto. Qed.

Lemma append_not_fixed s t : t ≠ "" → s +:+ t ≠ s.
Proof.
  intros Ht. induction s as [|c s IH]; simpl; [done|]. by intros [= ?].
Qed.

Section main.

Context (W : world) (L : library W).

Implicit Types (a : args) (s : state W).

Lemma ckpt_path_open_ended a : open_ended (ckpt_path W L a).
Proof.
  unfold ckpt_path, os_path_join. simpl. apply join_step_open_ended.
  unfold get_exp_name. repeat apply open_ended_append.
  apply pretty_Z_open_ended.
Qed.

Lemma join_summary_path a :
  os_path_join (ckpt_path W L a) ["summary.json"] = summary_path L a.
Proof.
  destruct (ckpt_path_open_ended a) as [Hne Hsep].
  unfold summary_path, os_path_join. simpl. unfold join_step. simpl.
  rewrite Hsep, bool_decide_eq_false_2 by done. done.
Qed.

Lemma summary_path_not_ckpt a : summary_path L a ≠ ckpt_path W L a.
Proof. by apply append_not_fixed. Qed.

(** X14. The file that line 122 looks for is the file that line 142 writes:
    [os.path.join(ckpt_path, 'summary.json')] and
    [f'{ckpt_path}/summary.json'] are the same path, whatever the
    arguments, because the experiment name ends with the digits of the
    seed; and it is not the checkpoint directory itself. *)
Theorem summary_path_agrees a :
  os_path_join (ckpt_path W L a) ["summary.json"] = summary_path L a ∧
  summary_path L a ≠ ckpt_path W L a.
Proof.
  destruct (ckpt_path_open_ended a) as [Hne Hsep]. split.
  - unfold summary_path, os_path_join. simpl. unfold join_step. simpl.
    rewrite Hsep, bool_decide_eq_false_2 by done. done.
  - unfold summary_path. by apply append_not_fixed.
Qed.

Lemma join_step_inj path m u u' :
  join_step path (m +:+ "_lr_" +:+ u) = join_step path (m +:+ "_lr_" +:+ u') →
  u = u'.
Proof.
  unfold join_step.
  assert (Hpre : String.prefix "/" (m +:+ "_lr_" +:+ u)
                 = String.prefix "/" (m +:+ "_lr_" +:+ u')).
  { destruct m as [|c m]; [done|].
    assert (Hnil : ∀ t, String.prefix "" t = true) by (by intros []).
    assert (Hc : ∀ x, String.prefix "/" (String c x)
                      = if ascii_dec "/" c then true else false).
    { intros x.
      change (String.prefix "/" (String c x))
        with (match ascii_dec "/" c with
              | left _ => String.prefix "" x
              | right _ => false
              end).
      destruct (ascii_dec "/" c); [apply Hnil|done]. }
    change (String c m +:+ "_lr_" +:+ u) with (String c (m +:+ "_lr_" +:+ u)).
    change (String c m +:+ "_lr_" +:+ u') with (String c (m +:+ "_lr_" +:+ u')).
    by rewrite !Hc. }
  rewrite Hpre. repeat case_match; intros Heq;
    repeat (apply (inj (String.app _)) in Heq); done.
Qed.

(** X15. Two runs that differ in the seed never share a checkpoint directory,
    so the summary of one does not make the other be skipped. *)
Theorem seeds_have_their_own_checkpoint a (seed' : Z) :
  seed' ≠ seed a →
  ckpt_path W L (with_seed seed' a) ≠ ckpt_path W L a.
Proof.
  intros Hne Heq. apply Hne. unfold ckpt_path, os_path_join in Heq.
  simpl in Heq. unfold get_exp_name in Heq. simpl in Heq.
  apply join_step_inj in Heq.
  repeat (apply (inj (String.app _)) in Heq).
  by apply (inj pretty) in Heq.
Qed.

(** *** Frames *)

Section keeps.

Context (R : state W → state W → Prop) `{!Reflexive R, !Transitive R}.

Lemma keeps_ret {A} (x : A) : keeps R (mret x : M W A).
Proof. intros s s' res [= <- _]. done. Qed.

Lemma keeps_raise {A} e : keeps R (raise W e : M W A).
Proof. intros s s' res [= <- _]. done. Qed.

Lemma keeps_gets {A} (f : state W → A) : keeps R (gets W f).
Proof. intros s s' res [= <- _]. done. Qed.

Lemma keeps_modify f : (∀ s, R s (f s)) → keeps R (modify W f).
Proof. intros Hf s s' res [= <- _]. apply Hf. Qed.

Lemma keeps_bind {A B} (m : M W A) (f : A → M W B) :
  keeps R m → (∀ x, keeps R (f x)) → keeps R (m ≫= f).
Proof.
  intros Hm Hf s s' res. unfold mbind, M_bind.
  destruct (m s) as [s1 [e|x]] eqn:Hs.
  - intros [= <- _]. by eapply Hm.
  - intros Hfx. etrans; [by eapply Hm|by eapply Hf].
Qed.

Lemma keeps_when (b : bool) m : keeps R m → keeps R (when W b m).
Proof. intros Hm. destruct b; [done|apply keeps_ret]. Qed.

Lemma keeps_for {X} (xs : list X) (body : X → M W ()) :
  (∀ x, keeps R (body x)) → keeps R (for_ W xs body).
Proof.
  intros Hbody. induction xs as [|x xs IH]; simpl; [apply keeps_ret|].
  apply keeps_bind; [apply Hbody|by intros _].
Qed.

(** What the relation has to tolerate: output, the random state, a new
    client, and the two writes to the file system. *)
Context (Hout : ∀ s e, R s (State W (fs W s) (rng W s) (clients W s)
                              (out W s ++ [e]))).
Context (Hrng : ∀ s r, R s (State W (fs W s) r (clients W s) (out W s))).
Context (Hclients : ∀ s cs, R s (State W (fs W s) (rng W s) cs (out W s))).

Lemma keeps_emit e : keeps R (emit W e).
Proof. apply keeps_modify. intros s. apply Hout. Qed.

Lemma keeps_make_client a i : keeps R (make_client W L a i).
Proof.
  unfold make_client. apply keeps_bind; [apply keeps_gets|]. intros r.
  destruct (get_model W L a r) as [p r'].
  apply keeps_bind; [apply keeps_modify; intros s; apply Hrng|]. intros _.
  apply keeps_bind; [apply keeps_when, keeps_emit|]. intros _.
  apply keeps_bind.
  { unfold make_optimizer. case_match; [|apply keeps_ret].
    apply keeps_bind; [apply keeps_emit|]. intros _. apply keeps_ret. }
  intros o. apply keeps_bind.
  { unfold make_scheduler. repeat case_match;
      [apply keeps_ret|apply keeps_raise|apply keeps_ret]. }
  intros sc. apply keeps_modify. intros s. apply Hclients.
Qed.

Lemma keeps_init_wandb a : keeps R (init_wandb W L a).
Proof.
  apply keeps_when, keeps_bind; [apply keeps_emit|]. intros _. apply keeps_emit.
Qed.

(** The two writes: the directory of line 121, the file of line 142. *)
Context (a : args).
Context (Hmkdir : is_master_process W = true →
           ∀ s, R s (State W (<[ckpt_path W L a := Dir]> (fs W s)) (rng W s)
                       (clients W s) (out W s))).
Context (Hdump : is_master_process W = true →
           ∀ s st, R s (State W (<[summary_path L a := File (Summary st a)]>
                                   (fs W s))
                          (rng W s) (clients W s) (out W s))).

Lemma keeps_check_completed : keeps R (check_completed W L a).
Proof.
  unfold check_completed. apply keeps_bind; [apply keeps_gets|]. intros files.
  repeat case_match.
  - destruct (decide (is_master_process W = true)) as [Hm|Hm];
      [rewrite Hm|rewrite (not_true_is_false _ Hm); apply keeps_ret].
    apply keeps_bind; [|intros _; apply keeps_emit].
    apply keeps_modify. intros s0. apply (Hmkdir Hm).
  - apply keeps_bind; [apply keeps_emit|]. intros _. apply keeps_raise.
  - apply keeps_ret.
Qed.

Lemma keeps_train : keeps R (train W a).
Proof.
  unfold train. apply keeps_bind; [apply keeps_gets|]. intros cs.
  apply keeps_bind; [apply keeps_gets|]. intros r.
  destruct (Lora.train_lora _ _ _ _ _ _ _ _) as [final [e|st]].
  - apply keeps_bind; [apply keeps_emit|]. intros _. apply keeps_raise.
  - apply keeps_bind; [apply keeps_emit|]. intros _. apply keeps_ret.
Qed.

Lemma keeps_dump_summary st :
  is_master_process W = true → keeps R (dump_summary W L a st).
Proof.
  intros Hm. unfold dump_summary.
  apply keeps_bind; [apply keeps_gets|]. intros files.
  repeat case_match; try apply keeps_raise;
    (apply keeps_bind; [|intros _; apply keeps_emit]);
    apply keeps_modify; intros s0; apply (Hdump Hm).
Qed.

Lemma keeps_main : keeps R (main W L a).
Proof.
  unfold main.
  apply keeps_bind; [apply keeps_modify; intros s; apply Hrng|]. intros _.
  apply keeps_bind; [apply keeps_emit|]. intros _.
  apply keeps_bind.
  { unfold get_dataset_from_args. repeat case_match;
      try apply keeps_ret. apply keeps_raise. }
  intros data_path.
  apply keeps_bind; [apply keeps_modify; intros s; apply Hclients|]. intros _.
  apply keeps_bind; [apply keeps_for, keeps_make_client|]. intros _.
  apply keeps_bind; [apply keeps_init_wandb|]. intros _.
  apply keeps_bind; [apply keeps_check_completed|]. intros _.
  apply keeps_bind; [case_match; [apply keeps_ret|apply keeps_raise]|].
  intros _.
  apply keeps_bind; [apply keeps_emit|]. intros _.
  apply keeps_bind; [apply keeps_train|]. intros st.
  apply keeps_bind; [|intros _; apply keeps_emit].
  destruct (decide (is_master_process W = true)) as [Hm|Hm].
  - rewrite Hm. by apply keeps_dump_summary.
  - rewrite (not_true_is_false _ Hm). apply keeps_ret.
Qed.

End keeps.

(** *** The outcomes of [main] *)

(** [s], having put out [evs] more. *)
Definition said (evs : list (event W)) s : state W :=
  State W (fs W s) (rng W s) (clients W s) (out W s ++ evs).

Lemma said_nil s : said [] s = s.
Proof. destruct s. unfold said. simpl. by rewrite app_nil_r. Qed.

Lemma get_dataset_unknown a s :
  ¬ known_dataset a →
  get_dataset_from_args W a s = (s, inl (Raised UnboundLocalError)).
Proof.
  unfold known_dataset, get_dataset_from_args. rewrite !elem_of_cons.
  intros Hn.
  destruct (String.eqb_spec (dataset a) "multiwiki"); [naive_solver|].
  destruct (String.eqb_spec (dataset a) "slimpajama"); [naive_solver|].
  destruct (String.eqb_spec (dataset a) "agnews"); [naive_solver|].
  done.
Qed.

Lemma make_scheduler_returns a o s :
  known_scheduler a →
  make_scheduler W L a o s = (s, inr (scheduler_of L a o)).
Proof.
  unfold known_scheduler, make_scheduler, scheduler_of. rewrite !elem_of_cons.
  intros [->|[->|[->|H]]]; [done..|]. by apply elem_of_nil in H.
Qed.

Lemma make_scheduler_raises a o s :
  ¬ known_scheduler a →
  make_scheduler W L a o s = (s, inl NotImplementedError).
Proof.
  unfold known_scheduler, make_scheduler. rewrite !elem_of_cons.
  intros Hn.
  destruct (String.eqb_spec (scheduler a) "none"); [naive_solver|].
  destruct (String.eqb_spec (scheduler a) "cos"); [naive_solver|].
  destruct (String.eqb_spec (scheduler a) "linear"); [naive_solver|].
  done.
Qed.

Lemma make_optimizer_returns a p s :
  ∃ evs, make_optimizer W L a p s = (said evs s, inr (optimizer_of L a p)) ∧
         forallb quiet evs = true.
Proof.
  unfold make_optimizer, optimizer_of. destruct (String.eqb (opt a) "adamw").
  - by exists [EvPrint W UsingFusedAdamW].
  - exists []. by rewrite said_nil.
Qed.

(** Lines 69-94 of one pass: the model and the optimizer. *)
Lemma make_client_start a i s :
  ∃ evs, forallb quiet evs = true ∧
    make_client W L a i s
    = (let '(p, r') := get_model W L a (rng W s) in
       let o := optimizer_of L a p in
       sc ← make_scheduler W L a o;
       modify W (λ s, State W (fs W s) (rng W s)
                        (clients W s ++ [Lora.Client W p true None o sc])
                        (out W s)))
        (let '(p, r') := get_model W L a (rng W s) in
         State W (fs W s) r' (clients W s) (out W s ++ evs)).
Proof.
  unfold make_client. rewrite (bind_eq W _ _ s s (rng W s)) by done.
  destruct (get_model W L a (rng W s)) as [p r']. cbv beta iota.
  set (s1 := State W (fs W s) r' (clients W s) (out W s)).
  assert (∃ evs1, when W (bool_decide (i = 0%nat))
                    (emit W (EvPrint W OptimizedParameters)) s1
                  = (said evs1 s1, inr ()) ∧ forallb quiet evs1 = true)
    as (evs1 & H1 & Hq1).
  { case_bool_decide; simpl.
    - by exists [EvPrint W OptimizedParameters].
    - exists []. by rewrite said_nil. }
  destruct (make_optimizer_returns a p (said evs1 s1)) as (evs2 & H2 & Hq2).
  exists (evs1 ++ evs2). split; [by rewrite forallb_app, Hq1, Hq2|].
  rewrite (bind_eq W _ _ s s1 ()) by done.
  rewrite (bind_eq W _ _ _ _ _ H1), (bind_eq W _ _ _ _ _ H2).
  unfold said. simpl. by rewrite <- app_assoc.
Qed.

Lemma make_client_returns a i s :
  known_scheduler a →
  ∃ evs, forallb quiet evs = true ∧
    make_client W L a i s
    = (State W (fs W s) (built L a 1 (rng W s)).2
         (clients W s ++ (built L a 1 (rng W s)).1) (out W s ++ evs), inr ()).
Proof.
  intros Hk. destruct (make_client_start a i s) as (evs & Hq & ->).
  exists evs. split; [done|]. simpl.
  destruct (get_model W L a (rng W s)) as [p r']. simpl.
  by rewrite (bind_eq W _ _ _ _ _ (make_scheduler_returns a _ _ Hk)).
Qed.

Lemma make_client_raises a i s :
  ¬ known_scheduler a →
  ∃ evs r', forallb quiet evs = true ∧
    make_client W L a i s
    = (State W (fs W s) r' (clients W s) (out W s ++ evs),
       inl NotImplementedError).
Proof.
  intros Hk. destruct (make_client_start a i s) as (evs & Hq & ->).
  destruct (get_model W L a (rng W s)) as [p r'].
  exists evs, r'. split; [done|].
  by rewrite (bind_raise W _ _ _ _ _ (make_scheduler_raises a _ _ Hk)).
Qed.

Lemma built_S a k r :
  built L a (S k) r
  = ((built L a 1 r).1 ++ (built L a k (built L a 1 r).2).1,
     (built L a k (built L a 1 r).2).2).
Proof.
  simpl. destruct (get_model W L a r) as [p r']. simpl.
  by destruct (built L a k r') as [cs r''].
Qed.

Lemma make_clients_returns a k i s :
  k = O ∨ known_scheduler a →
  ∃ evs, forallb quiet evs = true ∧
    for_ W (seq i k) (make_client W L a) s
    = (State W (fs W s) (built L a k (rng W s)).2
         (clients W s ++ (built L a k (rng W s)).1) (out W s ++ evs), inr ()).
Proof.
  intros Hk. revert i s. induction k as [|k IH]; intros i s.
  - exists []. split; [done|]. simpl. rewrite !app_nil_r. by destruct s.
  - destruct Hk as [|Hk]; [done|].
    destruct (make_client_returns a i s Hk) as (evs1 & Hq1 & H1).
    destruct (IH (or_intror Hk) (S i) (State W (fs W s) (built L a 1 (rng W s)).2
                (clients W s ++ (built L a 1 (rng W s)).1) (out W s ++ evs1)))
      as (evs2 & Hq2 & H2).
    exists (evs1 ++ evs2). split; [by rewrite forallb_app, Hq1, Hq2|].
    cbn [seq for_]. rewrite (bind_eq W _ _ _ _ _ H1), H2.
    cbn [fs rng clients out]. rewrite (built_S a k (rng W s)). cbn [fst snd].
    by rewrite !app_assoc.
Qed.

Lemma init_wandb_returns a s :
  ∃ evs, forallb quiet evs = true ∧
         init_wandb W L a s = (said evs s, inr ()).
Proof.
  unfold init_wandb. destruct (_ && _); simpl.
  - exists [EvPrint W InitializeWandb; EvWandbInit W (get_exp_name W L a)].
    split; [done|]. erewrite bind_eq by reflexivity.
    unfold emit, modify, said. simpl. by rewrite <- app_assoc.
  - exists []. by rewrite said_nil.
Qed.

Lemma check_completed_found a s :
  found L (fs W s) a = true →
  check_completed W L a s
  = (said [EvPrint W (AlreadyFound (ckpt_path W L a))] s, inl (SystemExit 0)).
Proof.
  unfold found. intros [He Hf]%andb_true_iff. unfold check_completed.
  rewrite (bind_eq W _ _ s s (fs W s)) by done. by rewrite He, Hf.
Qed.

Lemma check_completed_not_found a s :
  found L (fs W s) a = false →
  check_completed W L a s
  = (State W (prepared L (fs W s) a) (rng W s) (clients W s)
       (out W s ++ makedirs_events L (fs W s) a), inr ()).
Proof.
  unfold found, prepared, makedirs_events, makes_dir. intros Hnf.
  unfold check_completed. rewrite (bind_eq W _ _ s s (fs W s)) by done.
  destruct (exists_ (fs W s) (ckpt_path W L a)); simpl in *.
  - rewrite Hnf, app_nil_r. by destruct s.
  - destruct (is_master_process W); simpl; [done|].
    rewrite app_nil_r. by destruct s.
Qed.

Lemma dump_summary_cases a st s :
  dump_summary W L a st s
  = if writable L (fs W s) a
    then (State W (<[summary_path L a := File (Summary st a)]> (fs W s))
            (rng W s) (clients W s)
            (out W s ++ [EvDump W (summary_path L a)]), inr ())
    else (s, inl OSError).
Proof.
  unfold dump_summary, writable, summary_path.
  rewrite (bind_eq W _ _ s s (fs W s)) by done.
  by repeat case_match.
Qed.

Lemma train_cases a s :
  train W a s
  = match trained a s with
    | (final, inl e) => (said [EvTrain W final] s, inl (Raised e))
    | (final, inr st) => (said [EvTrain W final] s, inr st)
    end.
Proof.
  unfold train, trained.
  rewrite (bind_eq W _ _ s s (clients W s)) by done.
  rewrite (bind_eq W _ _ s s (rng W s)) by done.
  by destruct (Lora.train_lora _ _ _ _ _ _ _ _) as [final [e|st]].
Qed.

(** [main] ends in one of the seven ways. *)
Lemma main_outcome a (files : filesystem) (r : Rng W) :
  outcome L a files (main W L a (start W files r)).
Proof.
  unfold main, start.
  erewrite bind_eq by reflexivity. erewrite bind_eq by reflexivity.
  cbn [said fs rng clients out app].
  set (s1 := State W files (manual_seed W L (seed a)) []
               [EvPrint W (LoadingDataset (dataset a))]).
  destruct (decide (known_dataset a)) as [Hd|Hd].
  2:{ rewrite (bind_raise W _ _ _ _ _ (get_dataset_unknown a s1 Hd)).
      by apply unknown_dataset. }
  destruct (get_dataset_known W a s1 Hd) as [p Hp].
  rewrite (bind_eq W _ _ _ _ _ Hp).
  erewrite bind_eq by reflexivity. cbn [fs rng clients out]. fold s1.
  destruct (decide (Z.to_nat (num_clients a) = O ∨ known_scheduler a))
    as [Hk|Hk].
  2:{ assert (Hn : Z.to_nat (num_clients a) ≠ O) by (intros ?; apply Hk; by left).
      assert (Hk' : ¬ known_scheduler a) by (intros ?; apply Hk; by right).
      clear Hk. rename Hk' into Hk.
      destruct (Z.to_nat (num_clients a)) as [|k] eqn:Hnum; [done|].
      destruct (make_client_raises a O s1 Hk) as (evs & r' & Hq & Hraise).
      cbn [seq for_].
      rewrite (bind_raise W _ _ _ _ _ (bind_raise W _ _ _ _ _ Hraise)).
      apply unknown_scheduler; [done|lia|done|done|done|].
      simpl. by rewrite Hq. }
  assert (Hready : ready a).
  { split; [done|]. destruct Hk as [Hk|Hk]; [left; lia|by right]. }
  destruct (make_clients_returns a _ O s1 Hk) as (evs2 & Hq2 & H2).
  set (s2 := State W files (loaded L a).2 (loaded L a).1
               ([EvPrint W (LoadingDataset (dataset a))] ++ evs2)).
  rewrite (bind_eq W _ _ s1 s2 ()) by (by rewrite H2).
  destruct (init_wandb_returns a s2) as (evs3 & Hq3 & H3).
  rewrite (bind_eq W _ _ _ _ _ H3).
  assert (Hload : ∀ fs' out', holds_loaded L a
                    (State W fs' (loaded L a).2 (loaded L a).1 out')) by done.
  set (pre := [EvPrint W (LoadingDataset (dataset a))] ++ evs2 ++ evs3).
  assert (Hpre : forallb quiet pre = true).
  { subst pre. by rewrite !forallb_app, Hq2, Hq3. }
  assert (Hs3 : said evs3 s2 = State W files (loaded L a).2 (loaded L a).1 pre).
  { unfold said, s2, pre. simpl. done. }
  rewrite Hs3. clear Hs3 H3 H2. clearbody pre.
  set (s3 := State W files (loaded L a).2 (loaded L a).1 pre).
  destruct (found L files a) eqn:Hfound.
  { rewrite (bind_raise W _ _ _ _ _ (check_completed_found a s3 Hfound)).
    apply skipped; [done..|]. simpl. by rewrite forallb_app, Hpre. }
  set (s4 := State W (prepared L files a) (loaded L a).2 (loaded L a).1
               (pre ++ makedirs_events L files a)).
  rewrite (bind_eq W _ _ s3 s4 ())
    by exact (check_completed_not_found a s3 Hfound).
  destruct (String.eqb_spec (model a) "lora") as [Hmodel|Hmodel].
  2:{ erewrite bind_raise by reflexivity. by eapply unknown_model. }
  rewrite (bind_eq W _ _ s4 s4 ()) by done.
  set (tail := [EvPrint W (TrainingModel (model a))]).
  rewrite (bind_eq W _ _ s4 (said tail s4) ()) by done.
  set (s5 := said tail s4).
  destruct (trained a s5) as [final [e|st]] eqn:Htr.
  { rewrite (bind_raise W _ _ s5 (said [EvTrain W final] s5) (Raised e))
      by (by rewrite train_cases, Htr).
    eapply (training_raised L a files _ pre final e); try done.
    simpl. by rewrite <- !app_assoc. }
  rewrite (bind_eq W _ _ s5 (said [EvTrain W final] s5) st)
    by (by rewrite train_cases, Htr).
  set (s6 := said [EvTrain W final] s5).
  assert (Hout6 : out W s6 = pre ++ makedirs_events L files a
                    ++ [EvPrint W (TrainingModel (model a)); EvTrain W final]).
  { simpl. by rewrite <- !app_assoc. }
  destruct (is_master_process W) eqn:Hm; cbn [when].
  - destruct (writable L (prepared L files a) a) eqn:Hw.
    + rewrite (bind_eq W _ _ s6
                 (State W (<[summary_path L a := File (Summary st a)]>
                             (prepared L files a))
                    (loaded L a).2 (loaded L a).1
                    (out W s6 ++ [EvDump W (summary_path L a)])) ())
        by (rewrite dump_summary_cases; cbn [fs s6 s5 s4 said]; by rewrite Hw).
      eapply (returned L a files _ pre final st); try done;
        try (by rewrite Hm).
      cbn [out emit modify fst]. rewrite Hm, Hout6. by rewrite <- !app_assoc.
    + rewrite (bind_raise W _ _ s6 s6 OSError)
        by (rewrite dump_summary_cases; cbn [fs s6 s5 s4 said]; by rewrite Hw).
      by eapply (dump_failed L a files _ pre final st).
  - rewrite (bind_eq W _ _ s6 s6 ()) by done.
    eapply (returned L a files _ pre final st); try done;
      try (by rewrite Hm).
    cbn [out emit modify fst]. rewrite Hm, Hout6. by rewrite <- !app_assoc.
Qed.


Lemma main_cases a (files : filesystem) (r : Rng W) s res :
  main W L a (start W files r) = (s, res) → outcome L a files (s, res).
Proof. intros <-. apply main_outcome. Qed.

Lemma ready_not_unknown a :
  ready a → known_dataset a ∧ ¬ (1 ≤ num_clients a ∧ ¬ known_scheduler a).
Proof. intros [Hd [Hn|Hk]]; split; [done|lia|done|tauto]. Qed.

Lemma found_completed (files : filesystem) a :
  found L files a = true ↔ completed W L files a.
Proof.
  unfold found, completed, exists_, isfile.
  rewrite andb_true_iff, bool_decide_eq_true. split.
  - intros [? Hf]. split; [done|]. repeat case_match; try done. by eexists.
  - intros [? [c ->]]. done.
Qed.

Lemma prepared_summary (files : filesystem) a :
  prepared L files a !! summary_path L a = files !! summary_path L a.
Proof.
  unfold prepared. case_match; [|done].
  apply lookup_insert_ne. intros Heq. by apply (summary_path_not_ckpt a).
Qed.




Lemma writable_dir (files : filesystem) a :
  writable L files a = true → files !! ckpt_path W L a = Some Dir.
Proof. unfold writable. by repeat case_match. Qed.

(** X17. When [main] returns on the master process, the summary file holds the
    statistics that [train_lora] returned for the clients that were built,
    in the checkpoint directory, so that a later run with these arguments
    finds the run completed. *)
Theorem main_returns_with_summary a (files : filesystem) (r : Rng W) s :
  main W L a (start W files r) = (s, inr ()) →
  is_master_process W = true →
  ∃ final st,
    Lora.train_lora W (iterations a) (acc_steps a) (batch_size a)
      (sequence_length a) (eval_freq a) (extra a)
      (Lora.initial_state W (clients W s) (rng W s)) = (final, inr st) ∧
    fs W s !! summary_path L a = Some (File (Summary st a)) ∧
    fs W s !! ckpt_path W L a = Some Dir ∧
    completed W L (fs W s) a.
Proof.
  intros Hrun Hm. apply main_cases in Hrun. inversion Hrun; subst.
  match goal with H : fs W s = _ |- _ => rename H into Hfs end.
  rewrite Hm in Hfs.
  assert (Hsum : fs W s !! summary_path L a = Some (File (Summary st a)))
    by (rewrite Hfs; apply lookup_insert_eq).
  assert (Hdir : fs W s !! ckpt_path W L a = Some Dir).
  { rewrite Hfs. etrans; [apply lookup_insert_ne, summary_path_not_ckpt|].
    apply writable_dir. auto. }
  exists final, st. split_and!; [done..|].
  split; [by rewrite Hdir|]. rewrite join_summary_path. by eexists.
Qed.

(** X18. When [main] raises, whatever the exception, the summary file is as it
    was: it is only written by a run that returns. *)
Theorem main_failure_writes_no_summary a (files : filesystem) (r : Rng W)
    s e :
  main W L a (start W files r) = (s, inl e) →
  fs W s !! summary_path L a = files !! summary_path L a.
Proof.
  intros Hrun. apply main_cases in Hrun.
  inversion Hrun; subst; try done;
    match goal with H : fs W s = _ |- _ => rewrite H end;
    apply prepared_summary.
Qed.

(** X19. With a known dataset, the only exceptions of [train_lora]'s kind that
    [main] lets through are those of the call of line 133, on the clients
    it has built; the training it attempted is in its output. *)
Theorem main_passes_training_errors a (files : filesystem) (r : Rng W) s e :
  main W L a (start W files r) = (s, inl (Raised e)) →
  known_dataset a →
  ∃ final,
    Lora.train_lora W (iterations a) (acc_steps a) (batch_size a)
      (sequence_length a) (eval_freq a) (extra a)
      (Lora.initial_state W (clients W s) (rng W s)) = (final, inl e) ∧
    last (out W s) = Some (EvTrain W final).
Proof.
  intros Hrun Hd. apply main_cases in Hrun. inversion Hrun; subst; [done|].
  exists final. split; [done|].
  match goal with H : out W s = _ |- _ => rewrite H end.
  change [EvPrint W (TrainingModel (model a)); EvTrain W final]
    with ([EvPrint W (TrainingModel (model a))] ++ [EvTrain W final]).
  by rewrite !app_assoc, last_snoc.
Qed.

Lemma built_clients a k r0 :
  length (built L a k r0).1 = k ∧
  Forall (λ c, Lora.training W c = true ∧ Lora.grad W c = None ∧
               (Lora.scheduler W c = None ↔ scheduler a = "none"))
    (built L a k r0).1.
Proof.
  revert r0. induction k as [|k IH]; intros r0; [done|]. simpl.
  destruct (get_model W L a r0) as [p r']. specialize (IH r').
  destruct (built L a k r') as [cs r'']. simpl in *. destruct IH as [-> IH].
  split; [done|]. constructor; [|done]. simpl. split_and!; [done..|].
  unfold scheduler_of. by destruct (String.eqb_spec (scheduler a) "none").
Qed.


End main.
End MainCoverage.

(** ** The edge cases, accounts and outcomes at the example inputs *)

Module CoverageRuns.
Import Examples Scenarios Accounting Effects.

(** A run whose result is [b] is the pair of its final state and [b]. *)
Lemma outcome_as {A B} (run : A * B) (b : B) : run.2 = b → run = (run.1, b).
Proof. destruct run. simpl. by intros ->. Defined.

(** The outcome of a closed run, handed to the continuation. *)
Ltac with_outcome m k :=
  let r := eval vm_compute in m in
  lazymatch r with (?s, ?res) => k s res end.

Lemma train_lora_nothing_to_do_witness :
  (Lora.train_lora toy 0 1 2 2 2 every_second_round
     (Lora.initial_state toy two_clients 0)).2
  = inr (Lora.empty_stats 2).
Proof.
  by rewrite (LoraCoverage.train_lora_nothing_to_do toy 0 1 2 2 2
                every_second_round two_clients 0).
Defined.

Lemma train_lora_zero_batch_geometry_witness :
  (Lora.train_lora toy 4 1 0 2 2 every_second_round
     (Lora.initial_state toy two_clients 0)).2
  = inl ZeroDivisionError.
Proof.
  by rewrite (LoraCoverage.train_lora_zero_batch_geometry toy 4 1 0 2 2
                every_second_round two_clients 0).
Defined.

Lemma train_lora_zero_trust_freq_witness :
  ∃ s, Lora.train_lora toy 4 1 2 2 2 zero_trust_freq
         (Lora.initial_state toy two_clients 0) = (s, inl ZeroDivisionError) ∧
       Lora.itr toy s = [1; 1] ∧
       last (Lora.log toy s) = Some (Lora.EvSchedStep toy 1).
Proof.
  apply (LoraCoverage.train_lora_zero_trust_freq toy 4 1 2 2 2 zero_trust_freq
           two_clients 0); [done|lia| |done|done].
  repeat constructor; by eexists.
Defined.

Lemma train_lora_zero_eval_freq_witness :
  ∃ s, Lora.train_lora toy 4 1 2 2 0 every_second_round
         (Lora.initial_state toy two_clients 0) = (s, inl ZeroDivisionError) ∧
       Lora.itr toy s = [1; 1] ∧
       last (Lora.log toy s) = Some (Lora.EvZeroGrad toy 0).
Proof.
  apply (LoraCoverage.train_lora_zero_eval_freq toy 4 1 2 2 0
           every_second_round two_clients 0); [done|lia| |done|done|done].
  repeat constructor; by eexists.
Defined.

Lemma worker_process_records_nothing_witness :
  let run := Lora.train_lora toy_worker 4 1 2 2 2 every_second_round
               (Lora.initial_state toy_worker two_workers 0) in
  forallb (λ e, negb (is_evaluation e)) (Lora.log toy_worker run.1) = true ∧
  ∀ st, run.2 = inr st → st = Lora.empty_stats 2.
Proof.
  by apply (LoraCoverage.worker_process_records_nothing toy_worker 4 1 2 2 2
              every_second_round two_workers 0).
Defined.

Lemma substeps_in_lockstep_witness :
  ∃ s, Lora.loop_top toy 4 2 2 2 2 every_second_round
         (Lora.initial_state toy two_clients 0) 1 s ∧
       Lora.substep toy s = [2; 2].
Proof.
  set (s0 := Lora.initial_state toy two_clients 0).
  assert (∃ s, Lora.loop_top toy 4 2 2 2 2 every_second_round s0 1 s)
    as [s Hs].
  { with_outcome (Lora.setup toy 2 2 every_second_round s0) ltac:(fun s1 env =>
      lazymatch env with
      | inr (?n, ?d, ?pe) =>
          with_outcome (Lora.round toy 4 2 2 2 2 every_second_round n d pe s1)
            ltac:(fun s2 _ =>
              exists s2;
              apply (Lora.top_next toy 4 2 2 2 2 every_second_round s0
                       0 s1 s2 s1 n d pe);
              [ vm_compute; reflexivity
              | apply (Lora.top_first toy 4 2 2 2 2 every_second_round s0
                         s1 (n, d, pe)); vm_compute; reflexivity
              | vm_compute; reflexivity
              | vm_compute; reflexivity ])
      end). }
  exists s. split; [exact Hs|].
  exact (LoraCoverage.substeps_in_lockstep toy 4 2 2 2 2 every_second_round
           two_clients 0 1 s Hs).
Defined.

Lemma one_entry_per_evaluation_witness :
  ∃ s st, Lora.train_lora toy 4 1 2 2 2 every_second_round
            (Lora.initial_state toy two_clients 0) = (s, inr st) ∧
          entries 2 2 (train_loss st) ∧ entries 2 2 (val_loss st) ∧
          entries 2 2 (val_pp st) ∧ entries 2 2 (val_acc st).
Proof.
  with_outcome (Lora.train_lora toy 4 1 2 2 2 every_second_round
                  (Lora.initial_state toy two_clients 0))
    ltac:(fun s res =>
      lazymatch res with
      | inr ?st =>
          exists s, st; split; [vm_compute; reflexivity|];
          apply (LoraCoverage.one_entry_per_evaluation toy 4 1 2 2 2
                   every_second_round two_clients 0 s st eq_refl);
          vm_compute; reflexivity
      end).
Defined.

Lemma one_step_per_round_witness :
  ∃ s st, Lora.train_lora toy 4 1 2 2 2 every_second_round
            (Lora.initial_state toy two_clients 0) = (s, inr st) ∧
          Lora.opt_steps 1 (Lora.log toy s) = 4%nat ∧
          sched_steps 1 (Lora.log toy s) = 4%nat.
Proof.
  with_outcome (Lora.train_lora toy 4 1 2 2 2 every_second_round
                  (Lora.initial_state toy two_clients 0))
    ltac:(fun s res =>
      lazymatch res with
      | inr ?st =>
          exists s, st; split; [vm_compute; reflexivity|];
          apply (LoraCoverage.one_step_per_round toy 4 1 2 2 2
                   every_second_round two_clients 0 s st 1%nat);
          [vm_compute; reflexivity|simpl; lia]
      end).
Defined.

Lemma train_lora_without_microsteps_witness :
  ∃ s r, Lora.train_lora toy 4 0 2 2 2 every_second_round
           (Lora.initial_state toy two_clients 0)
         = (s, inl UnboundLocalError) ∧
         Lora.itr toy s = replicate 2 r ∧ 1 ≤ r ≤ 4 ∧
         eval_due 4 2 r = true ∧ Lora.stats toy s = Lora.empty_stats 2.
Proof.
  apply (LoraCoverage.train_lora_without_microsteps toy 4 0 2 2 2
           every_second_round two_clients 0);
    [done|lia|lia|done| |done|done|done|].
  - repeat constructor; by eexists.
  - intros i _. simpl. done.
Defined.





Lemma main_returns_with_summary_witness :
  let s := (Main.main toy toy_library (toy_args "cos")
              (Main.start toy ∅ 0)).1 in
  ∃ final st,
    Lora.train_lora toy 4 1 2 2 2 every_second_round
      (Lora.initial_state toy (Main.clients toy s) (Main.rng toy s))
    = (final, inr st) ∧
    Main.fs toy s !! summary_path toy_library (toy_args "cos")
    = Some (Main.File (Main.Summary st (toy_args "cos"))) ∧
    Main.fs toy s !! Main.ckpt_path toy toy_library (toy_args "cos")
    = Some Main.Dir ∧
    Main.completed toy toy_library (Main.fs toy s) (toy_args "cos").
Proof.
  apply (MainCoverage.main_returns_with_summary toy toy_library
           (toy_args "cos") ∅ 0);
    [apply outcome_as; vm_compute; reflexivity|reflexivity].
Defined.

Lemma main_failure_writes_no_summary_witness :
  let s := (Main.main toy toy_library (toy_args "none")
              (Main.start toy ∅ 0)).1 in
  Main.fs toy s !! summary_path toy_library (toy_args "none")
  = (∅ : Main.filesystem) !! summary_path toy_library (toy_args "none").
Proof.
  apply (MainCoverage.main_failure_writes_no_summary toy toy_library
           (toy_args "none") ∅ 0 _ (Main.Raised AttributeError)).
  apply outcome_as. vm_compute. reflexivity.
Defined.

Lemma main_passes_training_errors_witness :
  let s := (Main.main toy toy_library (toy_args "none")
              (Main.start toy ∅ 0)).1 in
  ∃ final,
    Lora.train_lora toy 4 1 2 2 2 every_second_round
      (Lora.initial_state toy (Main.clients toy s) (Main.rng toy s))
    = (final, inl AttributeError) ∧
    last (Main.out toy s) = Some (Main.EvTrain toy final).
Proof.
  apply (MainCoverage.main_passes_training_errors toy toy_library
           (toy_args "none") ∅ 0).
  - apply outcome_as. vm_compute. reflexivity.
  - unfold Main.known_dataset. simpl. repeat constructor.
Defined.


Lemma seeds_have_their_own_checkpoint_witness :
  1 ≠ Main.seed (toy_args "cos") ∧
  Main.ckpt_path toy toy_library (with_seed 1 (toy_args "cos"))
  ≠ Main.ckpt_path toy toy_library (toy_args "cos").
Proof.
  split; [done|].
  by apply (MainCoverage.seeds_have_their_own_checkpoint toy toy_library
              (toy_args "cos") 1).
Defined.

End CoverageRuns.
